(** * India-inflation ETL: ingestion and dimension reconciliation

    A shallow embedding of the ingestion core of the repository
    ([etl/utils.py], [etl/fetch_mospi.py], [etl/phase3_pipeline.py],
    [etl/models.py], [etl/monthly_refresh.py]) together with the properties
    stated about it.

    Conventions of the embedding.
    - A Python [str] is a Rocq [string]; each character stands for one code
      point below 256.  Whitespace and case classification follow Python on
      that range.  The Unicode decomposition used by [slugify], the float
      conversions, the wall clock and the UUID source are library services:
      they are the fields of the class [PyRuntime].
    - A Python exception is a value of [exn]; a call that may raise returns
      a [result].
    - The record dictionaries shared between the indices of
      [DimensionManager] are stored once, under their primary key, and the
      indices hold that key: an update of a record is seen through every
      index, as in the source. *)

From Stdlib Require Import ZArith String Ascii List Bool Lia.
From stdpp Require Import base option list gmap sets strings pretty.

Local Open Scope string_scope.
Local Open Scope list_scope.
Local Open Scope Z_scope.

(** ** Exceptions and results *)

Inductive exn : Type :=
  | ValueError (msg : string)
  | TypeError (msg : string)
  | AttributeError (msg : string)
  | OverflowError (msg : string)
  | DBAPIError (msg : string)      (* sqlalchemy.exc.DBAPIError and subclasses *)
  | OtherError (msg : string).     (* any exception outside those classes *)

Inductive result (A : Type) : Type :=
  | Ok (a : A)
  | Raise (e : exn).
Arguments Ok {A} a.
Arguments Raise {A} e.

Global Instance result_ret : MRet result := λ A a, Ok a.
Global Instance result_bind : MBind result := λ A B k r,
  match r with
  | Ok a => k a
  | Raise e => Raise e
  end.

(** The exception a call raised, and the value it returned. *)
Definition raised {A} (r : result A) : option exn :=
  match r with Raise e => Some e | Ok _ => None end.

Definition returned {A} (r : result A) : option A :=
  match r with Ok a => Some a | Raise _ => None end.

Definition is_value_error (e : exn) : bool :=
  match e with ValueError _ => true | _ => false end.

Definition is_dbapi_error (e : exn) : bool :=
  match e with DBAPIError _ => true | _ => false end.

Definition exn_str (e : exn) : string :=
  match e with
  | ValueError m | TypeError m | AttributeError m
  | OverflowError m | DBAPIError m | OtherError m => m
  end.

(** ** Python strings *)

Module Str.

Definition code (c : ascii) : N := N_of_ascii c.

(** [str.isspace] on one character, which is also the class [\s] of [re]. *)
Definition is_space (c : ascii) : bool :=
  let n := code c in
  ((9 <=? n) && (n <=? 13) || (28 <=? n) && (n <=? 32)
   || (n =? 133) || (n =? 160))%N.

Definition is_upper_az (c : ascii) : bool :=
  let n := code c in ((65 <=? n) && (n <=? 90))%N.
Definition is_lower_az (c : ascii) : bool :=
  let n := code c in ((97 <=? n) && (n <=? 122))%N.
Definition is_digit (c : ascii) : bool :=
  let n := code c in ((48 <=? n) && (n <=? 57))%N.

Definition lower_char (c : ascii) : ascii :=
  let n := code c in
  if (is_upper_az c || (192 <=? n) && (n <=? 222) && negb (n =? 215))%N
  then ascii_of_N (n + 32) else c.

Definition upper_char_az (c : ascii) : ascii :=
  if is_lower_az c then ascii_of_N (code c - 32) else c.

Fixpoint map (f : ascii → ascii) (s : string) : string :=
  match s with
  | EmptyString => EmptyString
  | String c r => String (f c) (map f r)
  end.

Fixpoint filter (p : ascii → bool) (s : string) : string :=
  match s with
  | EmptyString => EmptyString
  | String c r => if p c then String c (filter p r) else filter p r
  end.

(** [s.lower()] *)
Definition lower (s : string) : string := map lower_char s.

Fixpoint lstrip (s : string) : string :=
  match s with
  | EmptyString => EmptyString
  | String c r => if is_space c then lstrip r else s
  end.

Fixpoint rstrip (s : string) : string :=
  match s with
  | EmptyString => EmptyString
  | String c r =>
      match rstrip r with
      | EmptyString => if is_space c then EmptyString else String c EmptyString
      | r' => String c r'
      end
  end.

(** [s.strip()] *)
Definition strip (s : string) : string := rstrip (lstrip s).

(** [s[:n]] *)
Fixpoint take (n : nat) (s : string) : string :=
  match n, s with
  | S n', String c r => String c (take n' r)
  | _, _ => EmptyString
  end.

Fixpoint starts_with (p s : string) : bool :=
  match p, s with
  | EmptyString, _ => true
  | String a p', String b s' => if Ascii.eqb a b then starts_with p' s' else false
  | String _ _, EmptyString => false
  end.

(** [p in s] *)
Fixpoint contains (p s : string) : bool :=
  starts_with p s ||
  match s with
  | EmptyString => false
  | String _ r => contains p r
  end.

(** [s.split(c)[0]] *)
Fixpoint before (c : ascii) (s : string) : string :=
  match s with
  | EmptyString => EmptyString
  | String a r => if Ascii.eqb a c then EmptyString else String a (before c r)
  end.

(** [re.sub(cls+, rep, s)] for a character class [cls] and a one-character
    replacement: every maximal run of class members becomes [rep]. *)
Fixpoint collapse (cls : ascii → bool) (rep : ascii) (in_run : bool)
    (s : string) : string :=
  match s with
  | EmptyString => EmptyString
  | String c r =>
      if cls c
      then if in_run then collapse cls rep true r
           else String rep (collapse cls rep true r)
      else String c (collapse cls rep false r)
  end.

(** [" ".join(s.split())] *)
Definition join_words (s : string) : string :=
  collapse is_space " " false (strip s).

(** [s.title()] on ASCII letters: a letter that follows a letter is
    lower-cased, any other letter is upper-cased. *)
Fixpoint title_from (prev_cased : bool) (s : string) : string :=
  match s with
  | EmptyString => EmptyString
  | String c r =>
      if is_upper_az c || is_lower_az c
      then String (if prev_cased then lower_char c else upper_char_az c)
                  (title_from true r)
      else String c (title_from false r)
  end.
Definition title (s : string) : string := title_from false s.

(** Python truthiness of a string. *)
Definition nonempty (s : string) : bool :=
  match s with EmptyString => false | _ => true end.

(** [a or b] on strings *)
Definition or_else (a b : string) : string := if nonempty a then a else b.

End Str.

(** ** Library services

    [nfkd_ascii value] is
    [unicodedata.normalize("NFKD", value).encode("ascii", "ignore").decode("ascii")];
    [float_of_str], [float_of_int], [int_of_float], [float_str] are
    [float(s)] ([None] for a [ValueError]), [float(n)] for an integer within
    the range of the doubles, [int(x)] and [str(x)] on a float; [float_is_nan] and [float_is_zero] test a float for NaN and
    for zero; [fromisoformat s] is the year and month of
    [datetime.fromisoformat(s)] ([None] for a [ValueError]); [now n] is the
    n-th reading of [datetime.now(timezone.utc)], [isoformat] its rendering
    and [uuid4 n] the n-th value drawn from [uuid.uuid4()]. *)

Class PyRuntime : Type := {
  nfkd_ascii : string → string;
  pyfloat : Type;
  float_of_str : string → option pyfloat;
  float_of_int : Z → pyfloat;
  int_of_float : pyfloat → result Z;
  float_str : pyfloat → string;
  float_is_nan : pyfloat → bool;
  float_is_zero : pyfloat → bool;
  fromisoformat : string → option (Z * Z);
  now : nat → Z;
  isoformat : Z → string;
  uuid4 : nat → Z;
}.

Section Normalisation.
Context `{RT : PyRuntime}.

(** [etl/utils.py: slugify] *)
Definition slug_keep (c : ascii) : bool :=
  Str.is_upper_az c || Str.is_lower_az c || Str.is_digit c
  || Str.is_space c || Ascii.eqb c "-".

Definition slug_sep (c : ascii) : bool :=
  Str.is_space c || Ascii.eqb c "_" || Ascii.eqb c "-".

Definition slugify (value : string) : string :=
  let value_normalized := nfkd_ascii value in
  let value_normalized :=
    Str.lower (Str.strip (Str.filter slug_keep value_normalized)) in
  Str.collapse slug_sep "-" false value_normalized.

(** [etl/fetch_mospi.py: _normalize_alias] *)
Definition _normalize_alias (value : string) : string :=
  let slug := slugify value in
  Str.or_else slug (Str.lower (Str.strip value)).

(** The normalisation rule in the words of the specification: case-fold,
    trim, strip diacritics, collapse non-alphanumeric runs to single
    hyphens. *)
Definition spec_alnum (c : ascii) : bool :=
  Str.is_lower_az c || Str.is_upper_az c || Str.is_digit c.

Definition spec_normalize (value : string) : string :=
  Str.collapse (λ c, negb (spec_alnum c)) "-" false
    (nfkd_ascii (Str.strip (Str.lower value))).

End Normalisation.

(** ** Python values read from a source file *)

Section Values.
Context `{RT : PyRuntime}.

(** A cell of a data frame or a field of a JSON record. *)
Inductive pyval : Type :=
  | PNone
  | PInt (z : Z)
  | PFloat (x : pyfloat)
  | PStr (s : string).

(** Truthiness, as used by [x or y] and [if x]. *)
Definition truthy (v : pyval) : bool :=
  match v with
  | PStr s => Str.nonempty s
  | PNone => false
  | PInt z => negb (z =? 0)
  | PFloat x => negb (float_is_zero x)
  end.

(** [x or y] *)
Definition py_or (x y : pyval) : pyval := if truthy x then x else y.

(** [str(x)] *)
Definition py_str (v : pyval) : string :=
  match v with
  | PStr s => s
  | PNone => "None"
  | PInt z => pretty z
  | PFloat x => float_str x
  end.

(** Decimal digits with single underscores between them. *)
Fixpoint digits_value (acc : Z) (prev_digit : bool) (s : string) : option Z :=
  match s with
  | EmptyString => if prev_digit then Some acc else None
  | String c r =>
      if Str.is_digit c
      then digits_value (10 * acc + (Z.of_N (Str.code c) - 48)) true r
      else if Ascii.eqb c "_" && prev_digit
      then digits_value acc false r
      else None
  end.

(** [int(s)] for a string; [None] stands for [ValueError]. *)
Definition int_of_str (s : string) : option Z :=
  match Str.strip s with
  | String "-" r => Z.opp <$> digits_value 0 false r
  | String "+" r => digits_value 0 false r
  | t => digits_value 0 false t
  end.

(** [int(x)] *)
Definition py_int (v : pyval) : result Z :=
  match v with
  | PInt z => Ok z
  | PFloat x => int_of_float x
  | PStr s =>
      match int_of_str s with
      | Some z => Ok z
      | None => Raise (ValueError ("invalid literal for int() with base 10: " +:+ s))
      end
  | PNone => Raise (TypeError "int() argument must be a string or a real number")
  end.

(** [float(n)] of an integer rounds to the nearest double and raises
    [OverflowError] when that is beyond the finite doubles, that is from
    2^1024 - 2^970 on in absolute value. *)
Definition FLOAT_INT_LIMIT : Z := 2 ^ 1024 - 2 ^ 970.

Definition float_of_pyint (z : Z) : result pyfloat :=
  if Z.abs z <? FLOAT_INT_LIMIT then Ok (float_of_int z)
  else Raise (OverflowError "int too large to convert to float").

(** [float(x)] *)
Definition py_float (v : pyval) : result pyfloat :=
  match v with
  | PInt z => float_of_pyint z
  | PFloat x => Ok x
  | PStr s =>
      match float_of_str s with
      | Some x => Ok x
      | None => Raise (ValueError ("could not convert string to float: " +:+ s))
      end
  | PNone => Raise (TypeError "float() argument must be a string or a real number")
  end.

(** [pandas.isna] on a cell *)
Definition is_na (v : pyval) : bool :=
  match v with
  | PNone => true
  | PFloat x => float_is_nan x
  | _ => false
  end.

(** [etl/fetch_mospi.py: month_to_number] *)
Definition month_lookup : list (string * Z) :=
  [("jan", 1); ("feb", 2); ("mar", 3); ("apr", 4); ("may", 5); ("jun", 6);
   ("jul", 7); ("aug", 8); ("sep", 9); ("sept", 9); ("oct", 10);
   ("nov", 11); ("dec", 12)].

Fixpoint assoc {V} (key : string) (table : list (string * V)) : option V :=
  match table with
  | [] => None
  | (k, v) :: rest => if String.eqb k key then Some v else assoc key rest
  end.

Definition month_to_number (value : pyval) : result Z :=
  match value with
  | PInt z => Ok z
  | PStr s =>
      let value_clean := Str.lower (Str.strip s) in
      let key := Str.take 3 value_clean in
      match assoc key month_lookup with
      | None => Raise (ValueError ("Unsupported month value: " +:+ s))
      | Some m => Ok m
      end
  | PNone => Raise (AttributeError "'NoneType' object has no attribute 'strip'")
  | PFloat _ => Raise (AttributeError "'float' object has no attribute 'strip'")
  end.

End Values.

(** ** The store ([etl/models.py])

    Columns filled by the server ([raw_series.id], [raw_series.ingested_at],
    [series.id]) are left out.  A [Numeric] cell holds the decimal text that
    the client sends, [str(Decimal(str(x)))].  The [series] table is a map
    on the columns of its unique constraint.

    The statements below give what a statement does when the server
    accepts it.  A statement that the server refuses (a value wider than
    its column, an insert without a row, a violated constraint) raises a
    storage error inside the transaction: in the embedding that is a fault
    of the schedule at that statement ([AtStatement], see below), and the
    properties that hold for every schedule cover it. *)

Definition date : Type := Z * Z * Z.               (* year, month, day *)
Definition fact_key : Type := Z * Z * date.        (* item_id, region_id, date *)

Record item_row : Type := {
  item_id : Z;
  item_slug : string;
  item_canonical_name : string;
  item_aliases : list string;
}.

Record region_row : Type := {
  region_id : Z;
  region_code : string;
  region_name : string;
  region_type : string;
}.

Record raw_row : Type := {
  raw_source_file : string;
  raw_item_alias : string;
  raw_region_alias : string;
  raw_year : Z;
  raw_month : Z;
  raw_value : string;
}.

Record run_row : Type := {
  run_id : Z;
  started_at : Z;
  finished_at : Z;
  run_status : string;
  run_checksum : string;
  run_log : string;
}.

Record database : Type := {
  items_table : list item_row;
  regions_table : list region_row;
  raw_series_table : list raw_row;
  series_table : gmap fact_key string;
  etl_runs_table : list run_row;
}.

Definition empty_database : database :=
  {| items_table := []; regions_table := []; raw_series_table := [];
     series_table := ∅; etl_runs_table := [] |}.

(** A connection inside [with engine.begin() as conn]: the working copy of
    the store and the number of statements executed so far. *)
Record connection : Type := {
  conn_db : database;
  conn_statements : nat;
}.

Definition conn_execute (f : database → database) (conn : connection) : connection :=
  {| conn_db := f (conn_db conn); conn_statements := S (conn_statements conn) |}.

(** The value returned by [insert(...).returning(id)] for a serial key:
    an id that no stored record has.  The embedding takes the successor of
    the greatest stored id; a sequence of the server also skips the ids
    drawn in transactions that were rolled back. *)
Definition next_id (ids : list Z) : Z := 1 + foldr Z.max 0 ids.

Definition set_item_aliases (id : Z) (aliases : list string) (db : database) : database :=
  {| items_table :=
       (λ r, if decide (item_id r = id)
             then {| item_id := item_id r; item_slug := item_slug r;
                     item_canonical_name := item_canonical_name r;
                     item_aliases := aliases |}
             else r) <$> items_table db;
     regions_table := regions_table db;
     raw_series_table := raw_series_table db;
     series_table := series_table db;
     etl_runs_table := etl_runs_table db |}.

Definition insert_item (r : item_row) (db : database) : database :=
  {| items_table := items_table db ++ [r];
     regions_table := regions_table db;
     raw_series_table := raw_series_table db;
     series_table := series_table db;
     etl_runs_table := etl_runs_table db |}.

Definition insert_region (r : region_row) (db : database) : database :=
  {| items_table := items_table db;
     regions_table := regions_table db ++ [r];
     raw_series_table := raw_series_table db;
     series_table := series_table db;
     etl_runs_table := etl_runs_table db |}.

(** [conn.execute(raw_series_table.insert(), payload)], accepted by the
    server: one row per element of the payload. *)
Definition insert_raw (payload : list raw_row) (db : database) : database :=
  {| items_table := items_table db;
     regions_table := regions_table db;
     raw_series_table := raw_series_table db ++ payload;
     series_table := series_table db;
     etl_runs_table := etl_runs_table db |}.

(** [pg_insert(series_table).values(...).on_conflict_do_update(...)] *)
Definition upsert_series (k : fact_key) (value : string) (db : database) : database :=
  {| items_table := items_table db;
     regions_table := regions_table db;
     raw_series_table := raw_series_table db;
     series_table := <[k := value]> (series_table db);
     etl_runs_table := etl_runs_table db |}.

Definition insert_run (r : run_row) (db : database) : database :=
  {| items_table := items_table db;
     regions_table := regions_table db;
     raw_series_table := raw_series_table db;
     series_table := series_table db;
     etl_runs_table := etl_runs_table db ++ [r] |}.

(** ** Dimension resolver ([etl/fetch_mospi.py: DimensionManager]) *)

Record DimensionManager : Type := {
  dm_conn : connection;
  dm_items : gmap Z item_row;
  item_alias_index : gmap string Z;
  slug_index : gmap string Z;
  dm_regions : gmap Z region_row;
  region_alias_index : gmap string Z;
  region_code_index : gmap string Z;
}.

Definition dm_execute (f : database → database) (dm : DimensionManager) : DimensionManager :=
  {| dm_conn := conn_execute f (dm_conn dm);
     dm_items := dm_items dm; item_alias_index := item_alias_index dm;
     slug_index := slug_index dm; dm_regions := dm_regions dm;
     region_alias_index := region_alias_index dm;
     region_code_index := region_code_index dm |}.

Definition set_dm_item (r : item_row) (dm : DimensionManager) : DimensionManager :=
  {| dm_conn := dm_conn dm;
     dm_items := <[item_id r := r]> (dm_items dm);
     item_alias_index := item_alias_index dm;
     slug_index := slug_index dm; dm_regions := dm_regions dm;
     region_alias_index := region_alias_index dm;
     region_code_index := region_code_index dm |}.

Definition set_slug_index (slug : string) (r : item_row) (dm : DimensionManager)
    : DimensionManager :=
  {| dm_conn := dm_conn dm; dm_items := dm_items dm;
     item_alias_index := item_alias_index dm;
     slug_index := <[slug := item_id r]> (slug_index dm);
     dm_regions := dm_regions dm;
     region_alias_index := region_alias_index dm;
     region_code_index := region_code_index dm |}.

Definition set_dm_region (r : region_row) (dm : DimensionManager) : DimensionManager :=
  {| dm_conn := dm_conn dm; dm_items := dm_items dm;
     item_alias_index := item_alias_index dm; slug_index := slug_index dm;
     dm_regions := <[region_id r := r]> (dm_regions dm);
     region_alias_index := region_alias_index dm;
     region_code_index := region_code_index dm |}.

Definition set_code_index (code : string) (r : region_row) (dm : DimensionManager)
    : DimensionManager :=
  {| dm_conn := dm_conn dm; dm_items := dm_items dm;
     item_alias_index := item_alias_index dm; slug_index := slug_index dm;
     dm_regions := dm_regions dm;
     region_alias_index := region_alias_index dm;
     region_code_index := <[code := region_id r]> (region_code_index dm) |}.

(** [while candidate in index: counter += 1; candidate = f"{slug}-{counter}"].
    The loop is run for at most one step per key of the index;
    [unique_loop_fresh] shows that this bound is never exhausted. *)
Fixpoint unique_loop (fuel : nat) (index : gmap string Z) (slug candidate : string)
    (counter : nat) : string :=
  if bool_decide (is_Some (index !! candidate)) then
    match fuel with
    | O => candidate
    | S fuel' =>
        let counter := S counter in
        unique_loop fuel' index slug (slug +:+ "-" +:+ pretty counter) counter
    end
  else candidate.

Section Resolver.
Context `{RT : PyRuntime}.

Definition _register_item_alias (record : item_row) (alias : string)
    (dm : DimensionManager) : DimensionManager :=
  let token := _normalize_alias alias in
  {| dm_conn := dm_conn dm; dm_items := dm_items dm;
     item_alias_index := <[token := item_id record]> (item_alias_index dm);
     slug_index := slug_index dm; dm_regions := dm_regions dm;
     region_alias_index := region_alias_index dm;
     region_code_index := region_code_index dm |}.

Definition _register_region_alias (record : region_row) (alias : string)
    (dm : DimensionManager) : DimensionManager :=
  let token := _normalize_alias alias in
  {| dm_conn := dm_conn dm; dm_items := dm_items dm;
     item_alias_index := item_alias_index dm;
     slug_index := slug_index dm; dm_regions := dm_regions dm;
     region_alias_index := <[token := region_id record]> (region_alias_index dm);
     region_code_index := region_code_index dm |}.

Definition _load_items (dm : DimensionManager) : DimensionManager :=
  let dm := dm_execute id dm in
  foldl (λ dm row,
           let record := row in
           let dm := set_dm_item record dm in
           let dm := set_slug_index (item_slug row) record dm in
           let dm := _register_item_alias record (item_slug row) dm in
           let dm := _register_item_alias record (item_canonical_name row) dm in
           foldl (λ dm alias, _register_item_alias record alias dm)
                 dm (item_aliases record))
        dm (items_table (conn_db (dm_conn dm))).

Definition _load_regions (dm : DimensionManager) : DimensionManager :=
  let dm := dm_execute id dm in
  foldl (λ dm row,
           let record := row in
           let dm := set_dm_region record dm in
           let dm := set_code_index (region_code row) record dm in
           let dm := _register_region_alias record (region_code row) dm in
           _register_region_alias record (region_name row) dm)
        dm (regions_table (conn_db (dm_conn dm))).

(** [DimensionManager.__init__] *)
Definition new_DimensionManager (conn : connection) : DimensionManager :=
  _load_regions (_load_items
    {| dm_conn := conn; dm_items := ∅; item_alias_index := ∅; slug_index := ∅;
       dm_regions := ∅; region_alias_index := ∅; region_code_index := ∅ |}).

Definition _unique_item_slug (dm : DimensionManager) (base_slug : string) : string :=
  let slug := Str.or_else base_slug "item" in
  unique_loop (size (slug_index dm)) (slug_index dm) slug slug 1.

Definition _unique_region_code (dm : DimensionManager) (base_code : string) : string :=
  let code := Str.or_else base_code "region" in
  unique_loop (size (region_code_index dm)) (region_code_index dm) code code 1.

Definition with_aliases (record : item_row) (aliases : list string) : item_row :=
  {| item_id := item_id record; item_slug := item_slug record;
     item_canonical_name := item_canonical_name record;
     item_aliases := aliases |}.

Definition _append_item_alias_if_needed (record : item_row) (alias : string)
    (dm : DimensionManager) : DimensionManager :=
  let token := _normalize_alias alias in
  let existing_tokens := _normalize_alias <$> item_aliases record in
  if bool_decide (token ∈ existing_tokens) then dm
  else
    let updated_aliases := item_aliases record ++ [alias] in
    let dm := dm_execute (set_item_aliases (item_id record) updated_aliases) dm in
    let record := with_aliases record updated_aliases in
    let dm := set_dm_item record dm in
    _register_item_alias record alias dm.

(** [self.item_alias_index.get(token)]: the record the index refers to. *)
Definition item_by_token (dm : DimensionManager) (token : string) : option item_row :=
  item_alias_index dm !! token ≫= λ id, dm_items dm !! id.

Definition region_by_token (dm : DimensionManager) (token : string) : option region_row :=
  region_alias_index dm !! token ≫= λ id, dm_regions dm !! id.

Definition create_item (alias slug_candidate : string) (dm : DimensionManager)
    : DimensionManager * Z :=
  let slug := _unique_item_slug dm slug_candidate in
  let new_id := next_id (item_id <$> items_table (conn_db (dm_conn dm))) in
  let dm := dm_execute
              (insert_item {| item_id := new_id; item_slug := slug;
                              item_canonical_name := alias;
                              item_aliases := [alias] |}) dm in
  let record := {| item_id := new_id; item_slug := slug;
                   item_canonical_name := alias; item_aliases := [alias] |} in
  let dm := set_dm_item record dm in
  let dm := set_slug_index slug record dm in
  let dm := _register_item_alias record slug dm in
  let dm := _register_item_alias record alias dm in
  (dm, new_id).

Definition ensure_item (alias : string) (dm : DimensionManager)
    : DimensionManager * Z :=
  let token := _normalize_alias alias in
  match item_by_token dm token with
  | Some record =>
      (_append_item_alias_if_needed record alias dm, item_id record)
  | None =>
      let slug_candidate := slugify alias in
      let token_from_slug := _normalize_alias slug_candidate in
      match item_by_token dm token_from_slug with
      | Some record =>
          (_append_item_alias_if_needed record alias dm, item_id record)
      | None => create_item alias slug_candidate dm
      end
  end.

Definition create_region (alias : string) (dm : DimensionManager)
    : DimensionManager * Z :=
  let code_candidate := slugify alias in
  let code := _unique_region_code dm code_candidate in
  let new_id := next_id (region_id <$> regions_table (conn_db (dm_conn dm))) in
  let dm := dm_execute
              (insert_region {| region_id := new_id; region_code := code;
                                region_name := alias;
                                region_type := "unknown" |}) dm in
  let record := {| region_id := new_id; region_code := code;
                   region_name := alias; region_type := "unknown" |} in
  let dm := set_dm_region record dm in
  let dm := set_code_index code record dm in
  let dm := _register_region_alias record code dm in
  let dm := _register_region_alias record alias dm in
  (dm, new_id).

Definition ensure_region (alias : string) (dm : DimensionManager)
    : DimensionManager * Z :=
  let token := _normalize_alias alias in
  match region_by_token dm token with
  | Some record => (dm, region_id record)
  | None => create_region alias dm
  end.

End Resolver.

(** ** Storage faults and the environment of one process

    Every [engine.begin()] block consumes the next entry of [w_faults]:
    [None] (or an exhausted schedule) lets the transaction through; a fault
    makes the storage layer raise on connecting, at its n-th statement
    (counted from 0) if the block gets that far, or on commit.  A block left
    by an exception is rolled back. *)

Inductive fault : Type :=
  | AtBegin (e : exn)
  | AtStatement (n : nat) (e : exn)
  | AtCommit (e : exn).

Record world : Type := {
  w_db : database;
  w_faults : list (option fault);
  w_clock : nat;                          (* readings of the clock so far *)
  w_uuids : nat;                          (* UUIDs drawn so far *)
  w_logger : list (string * string);      (* (level, message) sent to the logger *)
  w_sleeps : list Z;                      (* arguments of time.sleep, in order *)
  w_disposed : nat;                       (* calls of engine.dispose *)
}.

Definition set_w_db (db : database) (w : world) : world :=
  {| w_db := db; w_faults := w_faults w; w_clock := w_clock w;
     w_uuids := w_uuids w; w_logger := w_logger w; w_sleeps := w_sleeps w;
     w_disposed := w_disposed w |}.

Definition next_fault (w : world) : option fault * world :=
  match w_faults w with
  | [] => (None, w)
  | f :: rest =>
      (f, {| w_db := w_db w; w_faults := rest; w_clock := w_clock w;
             w_uuids := w_uuids w; w_logger := w_logger w;
             w_sleeps := w_sleeps w; w_disposed := w_disposed w |})
  end.

Definition tick_clock (w : world) : world :=
  {| w_db := w_db w; w_faults := w_faults w; w_clock := S (w_clock w);
     w_uuids := w_uuids w; w_logger := w_logger w; w_sleeps := w_sleeps w;
     w_disposed := w_disposed w |}.

Definition draw_uuid (w : world) : world :=
  {| w_db := w_db w; w_faults := w_faults w; w_clock := w_clock w;
     w_uuids := S (w_uuids w); w_logger := w_logger w; w_sleeps := w_sleeps w;
     w_disposed := w_disposed w |}.

Definition logger_call (level message : string) (w : world) : world :=
  {| w_db := w_db w; w_faults := w_faults w; w_clock := w_clock w;
     w_uuids := w_uuids w; w_logger := w_logger w ++ [(level, message)];
     w_sleeps := w_sleeps w; w_disposed := w_disposed w |}.

Definition dispose_and_sleep (seconds : Z) (w : world) : world :=
  {| w_db := w_db w; w_faults := w_faults w; w_clock := w_clock w;
     w_uuids := w_uuids w; w_logger := w_logger w;
     w_sleeps := w_sleeps w ++ [seconds]; w_disposed := S (w_disposed w) |}.

Record tx_report : Type := {
  tx_entered : bool;        (* the block was entered *)
  tx_body_done : bool;      (* the block ran to its last statement *)
  tx_error : option exn;    (* the exception that left the block, if any *)
}.

Definition statement_fault (f : option fault) (executed : nat) : option exn :=
  match f with
  | Some (AtStatement n e) => if bool_decide (n < executed)%nat then Some e else None
  | _ => None
  end.

Definition commit_fault (f : option fault) : option exn :=
  match f with
  | Some (AtCommit e) => Some e
  | _ => None
  end.

(** [with engine.begin() as conn: body] *)
Definition run_transaction (f : option fault) (db : database)
    (body : connection → connection * option exn) : database * tx_report :=
  match f with
  | Some (AtBegin e) =>
      (db, {| tx_entered := false; tx_body_done := false; tx_error := Some e |})
  | _ =>
      let '(conn, err) := body {| conn_db := db; conn_statements := 0 |} in
      match statement_fault f (conn_statements conn) with
      | Some e =>
          (db, {| tx_entered := true; tx_body_done := false; tx_error := Some e |})
      | None =>
          match err with
          | Some e =>
              (db, {| tx_entered := true; tx_body_done := false; tx_error := Some e |})
          | None =>
              match commit_fault f with
              | Some e =>
                  (db, {| tx_entered := true; tx_body_done := true; tx_error := Some e |})
              | None =>
                  (conn_db conn,
                   {| tx_entered := true; tx_body_done := true; tx_error := None |})
              end
          end
      end
  end.

(** ** Ingestion engine ([etl/fetch_mospi.py: ingest_with_engine]) *)

Definition MAX_LOG_CHARS : Z := 64 * 1024.
Definition MAX_RETRIES : nat := 3.
Definition RETRY_BASE_DELAY_SECONDS : Z := 2.

Definition newline : string := String (ascii_of_nat 10) EmptyString.

(** [datetime(year, month, 1).date()] *)
Definition first_of_month (year month : Z) : result date :=
  if negb ((1 <=? year) && (year <=? 9999))
  then Raise (ValueError ("year " +:+ pretty year +:+ " is out of range"))
  else if negb ((1 <=? month) && (month <=? 12))
  then Raise (ValueError "month must be in 1..12")
  else Ok (year, month, 1).

Record run_summary : Type := {
  summary_run_id : Z;
  summary_status : string;
  summary_rows_processed : nat;
}.

Section Ingestion.
Context `{RT : PyRuntime}.

(** The keys of a row that the engine reads. *)
Record base_row : Type := {
  row_item_alias : string;
  row_region_alias : string;
  row_year : Z;
  row_month : Z;
  row_index_value : pyfloat;
}.

(** [Decimal(str(x))], kept as its text. *)
Definition decimal_of (x : pyfloat) : string := float_str x.

Definition raw_payload (file_path : string) (rows : list base_row) : list raw_row :=
  (λ row, {| raw_source_file := file_path;
             raw_item_alias := row_item_alias row;
             raw_region_alias := row_region_alias row;
             raw_year := row_year row;
             raw_month := row_month row;
             raw_value := decimal_of (row_index_value row) |}) <$> rows.

(** One iteration of [for row in rows] inside the transaction. *)
Definition ingest_row (row : base_row) (dimensions : DimensionManager)
    : DimensionManager * option exn :=
  let '(dimensions, item_id) := ensure_item (row_item_alias row) dimensions in
  let '(dimensions, region_id) := ensure_region (row_region_alias row) dimensions in
  match first_of_month (row_year row) (row_month row) with
  | Raise e => (dimensions, Some e)
  | Ok date_value =>
      let value := decimal_of (row_index_value row) in
      (dm_execute (upsert_series (item_id, region_id, date_value) value) dimensions,
       None)
  end.

Fixpoint ingest_rows (rows : list base_row) (dimensions : DimensionManager)
    : DimensionManager * option exn :=
  match rows with
  | [] => (dimensions, None)
  | row :: rest =>
      match ingest_row row dimensions with
      | (dimensions, Some e) => (dimensions, Some e)
      | (dimensions, None) => ingest_rows rest dimensions
      end
  end.

(** The body of [with engine.begin() as conn] in the retry loop. *)
Definition transaction_body (file_path : string) (rows : list base_row)
    (conn : connection) : connection * option exn :=
  let payload := raw_payload file_path rows in
  let conn := conn_execute (insert_raw payload) conn in
  let dimensions := new_DimensionManager conn in
  let '(dimensions, err) := ingest_rows rows dimensions in
  (dm_conn dimensions, err).

(** The local state of one call: the environment and [log_entries]. *)
Definition frame : Type := world * list string.

Definition append_log (level message : string) (st : frame) : frame :=
  let '(w, log_entries) := st in
  let entry := isoformat (now (w_clock w)) +:+ " ["
               +:+ Str.map Str.upper_char_az level +:+ "] " +:+ message in
  (logger_call level message (tick_clock w), log_entries ++ [entry]).

Definition record_run (run_id started_at : Z) (checksum final_status : string)
    (st : frame) : world :=
  let '(w, log_entries) := st in
  let finished_at := now (w_clock w) in
  let w := tick_clock w in
  let log_text := String.concat newline log_entries in
  let truncated_log := Str.take (Z.to_nat MAX_LOG_CHARS) log_text in
  let '(f, w) := next_fault w in
  let '(db, report) :=
    run_transaction f (w_db w)
      (λ conn,
         (conn_execute
            (insert_run {| run_id := run_id; started_at := started_at;
                           finished_at := finished_at;
                           run_status := final_status;
                           run_checksum := checksum;
                           run_log := truncated_log |}) conn,
          None)) in
  let w := set_w_db db w in
  match tx_error report with
  | Some run_exc =>
      logger_call "error"
        ("Failed to record ETL run metadata: " +:+ exn_str run_exc) w
  | None => w
  end.

(** [for attempt in range(1, MAX_RETRIES + 1)]; the result carries the
    exception that leaves the loop, if any. *)
Fixpoint retry_loop (attempts : list nat) (file_path : string)
    (rows : list base_row) (st : frame) : frame * option exn :=
  match attempts with
  | [] => (st, None)
  | attempt :: rest =>
      let '(w, log_entries) := st in
      let '(f, w) := next_fault w in
      let '(db, report) :=
        run_transaction f (w_db w) (transaction_body file_path rows) in
      let st := (set_w_db db w, log_entries) in
      let st :=
        if tx_entered report
        then append_log "info"
               ("Inserting raw series rows (attempt " +:+ pretty attempt +:+ ")") st
        else st in
      let st :=
        if tx_body_done report
        then append_log "info"
               ("Upserted " +:+ pretty (length rows) +:+ " series rows") st
        else st in
      match tx_error report with
      | None => (st, None)
      | Some transient_error =>
          if is_dbapi_error transient_error then
            if bool_decide (attempt = MAX_RETRIES) then
              (append_log "error"
                 ("Database operation failed after " +:+ pretty attempt
                  +:+ " attempts: " +:+ exn_str transient_error) st,
               Some transient_error)
            else
              let wait_time := Z.min (RETRY_BASE_DELAY_SECONDS * Z.of_nat attempt) 10 in
              let st :=
                append_log "warning"
                  ("Transient database error (attempt " +:+ pretty attempt +:+ "/"
                   +:+ pretty MAX_RETRIES +:+ "): " +:+ exn_str transient_error
                   +:+ ". Retrying in " +:+ pretty wait_time +:+ " seconds") st in
              let '(w, log_entries) := st in
              retry_loop rest file_path rows (dispose_and_sleep wait_time w, log_entries)
          else (st, Some transient_error)
      end
  end.

(** The [try] block: the opening log line, the retry loop and, when the
    loop is left without an exception, the closing log line. *)
Definition ingest_try (file_path : string) (rows : list base_row) (st : frame)
    : frame * option exn :=
  let st := append_log "info"
              ("Starting database ingestion for " +:+ pretty (length rows) +:+ " rows")
              st in
  let '(st, err) := retry_loop (seq 1 MAX_RETRIES) file_path rows st in
  match err with
  | None => (append_log "info" "Database ingestion complete" st, None)
  | Some e => (st, Some e)
  end.

(** [status] is "success" unless an exception leaves the [try] block; the
    [finally] clause records the run; the exception, if any, is re-raised. *)
Definition ingest_with_engine (file_path : string) (rows : list base_row)
    (checksum : string) (w : world) : world * result run_summary :=
  let run_id := uuid4 (w_uuids w) in
  let w := draw_uuid w in
  let started_at := now (w_clock w) in
  let w := tick_clock w in
  let '(st, err) := ingest_try file_path rows (w, []) in
  let status := match err with None => "success" | Some _ => "failed" end in
  let w := record_run run_id started_at checksum status st in
  (w, match err with
      | None => Ok {| summary_run_id := run_id; summary_status := status;
                      summary_rows_processed := length rows |}
      | Some e => Raise e
      end).

End Ingestion.

(** ** Source adapters ([etl/fetch_mospi.py: parse_annex],
       [etl/phase3_pipeline.py])

    An adapter is embedded from the point where the file has been read and
    its required columns have been resolved: its input is the list of rows
    of the resulting frame (or the records of the JSON document). *)

Definition ACCEPTED_YEARS : Z * Z := (1958, 2025).

Definition _year_in_scope (year : Z) : bool :=
  let '(start, end_) := ACCEPTED_YEARS in
  (start <=? year) && (year <=? end_).

(** [CPI_ITEM_OVERRIDES] and [WPI_ITEM_OVERRIDES] *)
Definition override : Type := string * string * option (list string).

Definition CPI_ITEM_OVERRIDES : list (string * override) :=
  [("general", ("cpi-all-items", "CPI All Items", Some ["general index"; "headline cpi"]));
   ("food and beverages",
    ("cpi-food-and-beverages", "CPI Food & Beverages", Some ["food beverages"; "food and bev"]));
   ("pan tobacco and intoxicants",
    ("cpi-pan-tobacco-intoxicants", "CPI Pan, Tobacco & Intoxicants", None));
   ("clothing and footwear", ("cpi-clothing-footwear", "CPI Clothing & Footwear", None));
   ("housing", ("cpi-housing", "CPI Housing", None));
   ("fuel and light",
    ("cpi-fuel-and-light", "CPI Fuel & Light", Some ["fuel & light"; "fuel light"]));
   ("miscellaneous", ("cpi-miscellaneous", "CPI Miscellaneous", None))].

Definition WPI_ITEM_OVERRIDES : list (string * override) :=
  [("all commodities", ("wpi-all-commodities", "WPI All Commodities", None));
   ("primary articles", ("wpi-primary-articles", "WPI Primary Articles", None));
   ("fuel and power", ("wpi-fuel-and-power", "WPI Fuel & Power", None));
   ("manufactured products",
    ("wpi-manufactured-products", "WPI Manufactured Products", Some ["manufactured goods"]))].

(** [re.sub(r"&", " and ", value)] *)
Fixpoint replace_ampersand (s : string) : string :=
  match s with
  | EmptyString => EmptyString
  | String c r =>
      if Ascii.eqb c "&" then " and " +:+ replace_ampersand r
      else String c (replace_ampersand r)
  end.

Definition _normalize_item_key (alias : string) : string :=
  let value := Str.lower alias in
  let value := replace_ampersand value in
  let value := Str.before "(" value in
  let value := Str.before "/" value in
  let value :=
    Str.map (λ c, if Str.is_lower_az c || Str.is_digit c || Str.is_space c
                  then c else " "%char) value in
  Str.join_words value.

Definition _resolve_item_override (alias source : string)
    : option string * option string * option (list string) :=
  let key := _normalize_item_key alias in
  let override :=
    if String.eqb source "mospi" || String.eqb source "data_gov" || String.eqb source "imf"
    then assoc key CPI_ITEM_OVERRIDES
    else if String.eqb source "dpiit" then assoc key WPI_ITEM_OVERRIDES
    else None in
  match override with
  | None => (None, None, None)
  | Some (slug, canonical, aliases) => (Some slug, Some canonical, aliases)
  end.

Definition _infer_region_type (alias : string) : string :=
  let token := Str.lower alias in
  if Str.contains "urban" token then "urban"
  else if Str.contains "rural" token then "rural"
  else if Str.contains "all india" token || Str.contains "india" token then "nation"
  else "state".

(** [x or y] for an optional string *)
Definition opt_or (x : option string) (y : string) : string :=
  match x with
  | Some s => Str.or_else s y
  | None => y
  end.

(** [list(xs) if xs else None] *)
Definition list_or_none (xs : option (list string)) : option (list string) :=
  match xs with
  | Some (x :: rest) => Some (x :: rest)
  | _ => None
  end.

(** What one iteration of an adapter's row loop does. *)
Inductive row_outcome (A : Type) : Type :=
  | Emit (row : A)        (* [results.append(...)] *)
  | Skip                  (* [continue] *)
  | Abort (e : exn).      (* the exception leaves the adapter *)
Arguments Emit {A} row.
Arguments Skip {A}.
Arguments Abort {A} e.

Section Adapters.
Context `{RT : PyRuntime}.

Record norm_row : Type := {
  nr_item_alias : string;
  nr_item_slug : string;
  nr_item_canonical_name : string;
  nr_item_aliases : option (list string);
  nr_region_alias : string;
  nr_region_code : string;
  nr_region_type : string;
  nr_region_aliases : option (list string);
  nr_year : Z;
  nr_month : Z;
  nr_index_value : pyfloat;
  nr_source : string;
}.

(** [_base_row]: the five keys read by the engine and the preview writer. *)
Definition _base_row (row : norm_row) : base_row :=
  {| row_item_alias := nr_item_alias row;
     row_region_alias := nr_region_alias row;
     row_year := nr_year row;
     row_month := nr_month row;
     row_index_value := nr_index_value row |}.

Definition _normalize_numeric (value : pyval) : result pyfloat :=
  match value with
  | PNone => Raise (ValueError "missing numeric value")
  | PInt z => float_of_pyint z
  | PFloat x => Ok x
  | PStr s =>
      let string_value := Str.strip s in
      if negb (Str.nonempty string_value) then Raise (ValueError "empty numeric value")
      else py_float (PStr string_value)
  end.

Definition _normalized_row (item_alias region_alias : string) (year month : Z)
    (value : pyfloat) (source : string)
    (item_slug canonical_name region_code region_type : option string)
    (extra_item_aliases extra_region_aliases : option (list string))
    : result norm_row :=
  if negb (_year_in_scope year) then Raise (ValueError "year out of accepted range")
  else
    let normalized_region_code := opt_or region_code (slugify region_alias) in
    let normalized_region_type := opt_or region_type (_infer_region_type region_alias) in
    let canonical := opt_or canonical_name item_alias in
    Ok {| nr_item_alias := item_alias;
          nr_item_slug := opt_or item_slug (slugify item_alias);
          nr_item_canonical_name := canonical;
          nr_item_aliases := list_or_none extra_item_aliases;
          nr_region_alias := region_alias;
          nr_region_code := normalized_region_code;
          nr_region_type := normalized_region_type;
          nr_region_aliases := list_or_none extra_region_aliases;
          nr_year := year;
          nr_month := month;
          nr_index_value := value;
          nr_source := source |}.

(** [for row in rows: ...] collecting the appended rows. *)
Fixpoint row_loop {A B} (step : A → row_outcome B) (rows : list A) : result (list B) :=
  match rows with
  | [] => Ok []
  | row :: rest =>
      match step row with
      | Emit r => results ← row_loop step rest; Ok (r :: results)
      | Skip => row_loop step rest
      | Abort e => Raise e
      end
  end.

(** [try: body except ValueError: continue] *)
Definition continue_on_value_error {A} (body : result (row_outcome A)) : row_outcome A :=
  match body with
  | Ok o => o
  | Raise e => if is_value_error e then Skip else Abort e
  end.

(** *** Spreadsheet annex: [parse_annex], rows of the renamed frame *)
Record annex_cells : Type := {
  ac_item : pyval;
  ac_region : pyval;
  ac_year : pyval;
  ac_month : pyval;
  ac_index_value : pyval;
}.

Definition annex_has_na (row : annex_cells) : bool :=
  is_na (ac_item row) || is_na (ac_region row) || is_na (ac_year row)
  || is_na (ac_month row) || is_na (ac_index_value row).

Definition parse_annex_row (row : annex_cells) : row_outcome base_row :=
  let coerced :=
    year ← py_int (ac_year row);
    month ← month_to_number (ac_month row);
    value ← py_float (ac_index_value row);
    Ok (year, month, value) in
  match coerced with
  | Raise (ValueError _) | Raise (TypeError _) =>
      Abort (ValueError "Invalid record encountered")
  | Raise e => Abort e
  | Ok (year, month, value) =>
      Emit {| row_item_alias := Str.strip (py_str (ac_item row));
              row_region_alias := Str.strip (py_str (ac_region row));
              row_year := year;
              row_month := month;
              row_index_value := value |}
  end.

Definition parse_annex (frame_rows : list annex_cells) : result (list base_row) :=
  let df := List.filter (λ row, negb (annex_has_na row)) frame_rows in
  row_loop parse_annex_row df.

Definition parse_mospi_annex_row (entry : base_row) : row_outcome norm_row :=
  continue_on_value_error (
    let year := row_year entry in
    if negb (_year_in_scope year) then Ok Skip
    else
      let month := row_month entry in
      value ← _normalize_numeric (PFloat (row_index_value entry));
      let region_alias := Str.strip (row_region_alias entry) in
      let item_alias := Str.strip (row_item_alias entry) in
      let '(item_slug, canonical_name, extra_aliases) :=
        _resolve_item_override item_alias "mospi" in
      r ← _normalized_row item_alias region_alias year month value "mospi"
            item_slug canonical_name None None extra_aliases None;
      Ok (Emit r)).

Definition parse_mospi_annex (frame_rows : list annex_cells) : result (list norm_row) :=
  rows ← parse_annex frame_rows;
  row_loop parse_mospi_annex_row rows.

(** *** Delimited resource: [parse_datagov_resource] *)
Record datagov_cells : Type := {
  dg_item : pyval;
  dg_state : pyval;
  dg_sector : option pyval;       (* [None]: the frame has no such column *)
  dg_year : pyval;
  dg_month : pyval;
  dg_value : pyval;
}.

(** [row.get(column)] *)
Definition row_get (cell : option pyval) : pyval := default PNone cell.

Definition parse_datagov_row (row : datagov_cells) : row_outcome norm_row :=
  continue_on_value_error (
    year ← py_int (dg_year row);
    if negb (_year_in_scope year) then Ok Skip
    else
      month ← month_to_number (dg_month row);
      value ← _normalize_numeric (dg_value row);
      let item_alias := Str.strip (py_str (dg_item row)) in
      let state := Str.strip (py_str (dg_state row)) in
      let sector_raw := Str.strip (py_str (py_or (row_get (dg_sector row)) (PStr ""))) in
      let sector := if Str.nonempty sector_raw then Str.lower sector_raw else "combined" in
      let region_alias :=
        if negb (String.eqb sector "combined")
        then state +:+ " (" +:+ Str.title sector +:+ ")" else state in
      let region_type :=
        if String.eqb sector "rural" || String.eqb sector "urban" then sector else "state" in
      let region_code := slugify region_alias in
      let '(item_slug, canonical_name, extra_aliases) :=
        _resolve_item_override item_alias "data_gov" in
      r ← _normalized_row item_alias region_alias year month value "data_gov"
            item_slug canonical_name (Some region_code) (Some region_type)
            extra_aliases (Some [state]);
      Ok (Emit r)).

Definition parse_datagov_resource (frame_rows : list datagov_cells)
    : result (list norm_row) :=
  row_loop parse_datagov_row frame_rows.

(** *** Structured series document: [parse_imf_series], one JSON record;
    an absent key and a null both read as [PNone] through [entry.get]. *)
Record imf_entry : Type := {
  imf_item : pyval;
  imf_indicator : pyval;
  imf_series : pyval;
  imf_region : pyval;
  imf_country : pyval;
  imf_date : pyval;
  imf_period : pyval;
  imf_year : pyval;
  imf_month : pyval;
  imf_value : pyval;
  imf_obs_value : pyval;
  imf_region_type : pyval;
}.

Definition is_none (v : pyval) : bool :=
  match v with PNone => true | _ => false end.

Definition parse_imf_entry_dated (entry : imf_entry) (year_value month_value : pyval)
    : row_outcome norm_row :=
  let item :=
    Str.strip (py_str (py_or (py_or (py_or (imf_item entry) (imf_indicator entry))
                                    (imf_series entry)) (PStr "IMF CPI"))) in
  let region :=
    Str.strip (py_str (py_or (py_or (imf_region entry) (imf_country entry))
                             (PStr "All India"))) in
  if is_none year_value || is_none month_value then Skip
  else
    let coerced :=
      year ← py_int year_value;
      if negb (_year_in_scope year) then Ok None
      else
        month ← month_to_number month_value;
        value ← _normalize_numeric (py_or (imf_value entry) (imf_obs_value entry));
        Ok (Some (year, month, value)) in
    match coerced with
    | Raise e => if is_value_error e then Skip else Abort e
    | Ok None => Skip
    | Ok (Some (year, month, value)) =>
        let region_type :=
          Str.lower (py_str (py_or (imf_region_type entry) (PStr "nation"))) in
        let '(item_slug, canonical_name, extra_aliases) :=
          _resolve_item_override item "imf" in
        match _normalized_row item region year month value "imf"
                item_slug canonical_name None (Some region_type) extra_aliases None with
        | Ok r => Emit r
        | Raise e => Abort e
        end
    end.

Definition parse_imf_entry (entry : imf_entry) : row_outcome norm_row :=
  let date_value := py_or (imf_date entry) (imf_period entry) in
  let year_value := imf_year entry in
  let month_value := imf_month entry in
  if truthy date_value && negb (truthy year_value && truthy month_value) then
    match fromisoformat (py_str date_value) with
    | Some (year, month) => parse_imf_entry_dated entry (PInt year) (PInt month)
    | None => Skip
    end
  else parse_imf_entry_dated entry year_value month_value.

Definition parse_imf_series (series : list imf_entry) : result (list norm_row) :=
  row_loop parse_imf_entry series.

(** *** Archived resource: [parse_dpiit_resource] *)
Record dpiit_cells : Type := {
  dp_item : pyval;
  dp_year : pyval;
  dp_month : pyval;
  dp_value : pyval;
  dp_region : option pyval;
  dp_sector : option pyval;
}.

Definition parse_dpiit_row (row : dpiit_cells) : row_outcome norm_row :=
  continue_on_value_error (
    year ← py_int (dp_year row);
    if negb (_year_in_scope year) then Ok Skip
    else
      month ← month_to_number (dp_month row);
      value ← _normalize_numeric (dp_value row);
      let item_alias :=
        Str.or_else (Str.strip (py_str (dp_item row))) "WPI All Commodities" in
      let '(item_slug_override, canonical_override, extra_aliases) :=
        _resolve_item_override item_alias "dpiit" in
      let slug_value := opt_or item_slug_override (slugify ("wpi-" +:+ item_alias)) in
      let canonical_label := opt_or canonical_override item_alias in
      let region_raw :=
        Str.strip (py_str (py_or (row_get (dp_region row)) (PStr "All India"))) in
      let sector_raw := Str.strip (py_str (py_or (row_get (dp_sector row)) (PStr ""))) in
      let region_raw := if negb (Str.nonempty region_raw) then "All India" else region_raw in
      let region_alias :=
        if Str.nonempty sector_raw
           && negb (Str.contains (Str.lower sector_raw) (Str.lower region_raw))
        then region_raw +:+ " (" +:+ sector_raw +:+ ")" else region_raw in
      let lowered := Str.lower region_alias in
      let region_type :=
        if Str.contains "rural" lowered then "rural"
        else if Str.contains "urban" lowered then "urban"
        else if negb (Str.contains "india" lowered) then "state"
        else "nation" in
      r ← _normalized_row item_alias region_alias year month value "dpiit"
            (Some slug_value) (Some canonical_label) None (Some region_type)
            extra_aliases
            (if negb (String.eqb region_raw region_alias) then Some [region_raw] else None);
      Ok (Emit r)).

Definition parse_dpiit_resource (frame_rows : list dpiit_cells)
    : result (list norm_row) :=
  row_loop parse_dpiit_row frame_rows.

End Adapters.

(** ** Pipeline orchestrator ([etl/phase3_pipeline.py: run_phase3_pipeline]) *)

(** What acquiring a source location and reading it gives: an exception
    (download failure, unreadable file, unresolved required columns) or the
    rows handed to the adapter's loop. *)
Inductive loaded (A : Type) : Type :=
  | LoadError (e : exn)
  | Loaded (rows : list A).
Arguments LoadError {A} e.
Arguments Loaded {A} rows.

Record source (A : Type) : Type := {
  src_path : string;
  src_stem : string;
  src_checksum : string;
  src_content : loaded A;
}.
Arguments src_path {A} _.
Arguments src_stem {A} _.
Arguments src_checksum {A} _.
Arguments src_content {A} _.

Record batch_summary : Type := {
  bs_source : string;
  bs_file : string;
  bs_rows : nat;
  bs_checksum : string;
  bs_status : string;
  bs_preview : option string;
  bs_error : option string;
}.

Record validation : Type := {
  v_items : nat;
  v_regions : nat;
  v_latest_date : option date;
}.

Record totals : Type := {
  t_batches : nat;
  t_rows : nat;
  t_validation : option validation;
}.

Record PipelineSummary : Type := {
  ps_batches : list batch_summary;
  ps_totals : totals;
}.

Definition date_ltb (a b : date) : bool :=
  let '(ya, ma, da) := a in
  let '(yb, mb, db) := b in
  (ya <? yb) || (ya =? yb) && ((ma <? mb) || (ma =? mb) && (da <? db)).

(** [select(func.max(series_table.c.date))] *)
Definition max_date (facts : gmap fact_key string) : option date :=
  foldr (λ '(k, _) acc,
           let d := k.2 in
           match acc with
           | None => Some d
           | Some d' => Some (if date_ltb d' d then d else d')
           end)
        None (map_to_list facts).

Section Orchestrator.
Context `{RT : PyRuntime}.

Record SourceBatch : Type := {
  batch_name : string;
  batch_file_path : string;
  batch_stem : string;
  batch_checksum : string;
  batch_rows : list norm_row;
}.

(** The environment of the pipeline: the process environment and the
    preview files written so far. *)
Definition pipeline_world : Type := world * list (string * list base_row).

Fixpoint load_batches {A} (name : string) (adapter : list A → result (list norm_row))
    (sources : list (source A)) : result (list SourceBatch) :=
  match sources with
  | [] => Ok []
  | src :: rest =>
      match src_content src with
      | LoadError e => Raise e
      | Loaded frame_rows =>
          rows ← adapter frame_rows;
          batches ← load_batches name adapter rest;
          Ok ({| batch_name := name; batch_file_path := src_path src;
                 batch_stem := src_stem src; batch_checksum := src_checksum src;
                 batch_rows := rows |} :: batches)
      end
  end.

Definition build_batches
    (mospi_annexes : list (source annex_cells))
    (datagov_resources : list (source datagov_cells))
    (imf_series : list (source imf_entry))
    (dpiit_resources : list (source dpiit_cells)) : result (list SourceBatch) :=
  b1 ← load_batches "mospi" parse_mospi_annex mospi_annexes;
  b2 ← load_batches "data_gov" parse_datagov_resource datagov_resources;
  b3 ← load_batches "imf" parse_imf_series imf_series;
  b4 ← load_batches "dpiit" parse_dpiit_resource dpiit_resources;
  Ok (b1 ++ b2 ++ b3 ++ b4).

Definition base_summary (batch : SourceBatch) (status : string)
    (preview error : option string) : batch_summary :=
  {| bs_source := batch_name batch; bs_file := batch_file_path batch;
     bs_rows := length (batch_rows batch); bs_checksum := batch_checksum batch;
     bs_status := status; bs_preview := preview; bs_error := error |}.

(** [for batch in batches] of [run_phase3_pipeline].  An exception raised
    by the engine leaves the function after the failed summary has been
    appended to the local list [summaries]; the list goes with the frame. *)
Fixpoint process_batches (preview_only : bool) (batches : list SourceBatch)
    (summaries : list batch_summary) (pw : pipeline_world)
    : pipeline_world * result (list batch_summary) :=
  match batches with
  | [] => (pw, Ok summaries)
  | batch :: rest =>
      let '(w, previews) := pw in
      if preview_only then
        let preview_path :=
          "previews/" +:+ batch_stem batch +:+ "_" +:+ batch_name batch +:+ ".csv" in
        let previews := previews ++ [(preview_path, _base_row <$> batch_rows batch)] in
        process_batches preview_only rest
          (summaries ++ [base_summary batch "preview" (Some preview_path) None])
          (w, previews)
      else
        match ingest_with_engine (batch_file_path batch) (_base_row <$> batch_rows batch)
                (batch_checksum batch) w with
        | (w, Ok _) =>
            process_batches preview_only rest
              (summaries ++ [base_summary batch "ingested" None None]) (w, previews)
        | (w, Raise exc) =>
            let summaries :=
              summaries ++ [base_summary batch "failed" None (Some (exn_str exc))] in
            ((w, previews), Raise exc)
        end
  end.

Definition collect_validation_snapshot (w : world) : world * result validation :=
  let '(f, w) := next_fault w in
  let '(_, report) :=
    run_transaction f (w_db w)
      (λ conn, (conn_execute id (conn_execute id (conn_execute id conn)), None)) in
  match tx_error report with
  | Some e => (w, Raise e)
  | None =>
      (w, Ok {| v_items := length (items_table (w_db w));
                v_regions := length (regions_table (w_db w));
                v_latest_date := max_date (series_table (w_db w)) |})
  end.

(** [has_engine] is [get_engine(database_url) is not None]. *)
Definition run_phase3_pipeline
    (mospi_annexes : list (source annex_cells))
    (datagov_resources : list (source datagov_cells))
    (imf_series : list (source imf_entry))
    (dpiit_resources : list (source dpiit_cells))
    (has_engine dry_run : bool) (pw : pipeline_world)
    : pipeline_world * result PipelineSummary :=
  match build_batches mospi_annexes datagov_resources imf_series dpiit_resources with
  | Raise e => (pw, Raise e)
  | Ok batches =>
      match process_batches (dry_run || negb has_engine) batches [] pw with
      | (pw, Raise e) => (pw, Raise e)
      | (pw, Ok summaries) =>
          let n_batches := length batches in
          let n_rows := foldr Nat.add 0%nat (bs_rows <$> summaries) in
          if negb dry_run && has_engine then
            let '(w, previews) := pw in
            match collect_validation_snapshot w with
            | (w, Raise e) => ((w, previews), Raise e)
            | (w, Ok snapshot) =>
                ((w, previews),
                 Ok {| ps_batches := summaries;
                       ps_totals := {| t_batches := n_batches; t_rows := n_rows;
                                       t_validation := Some snapshot |} |})
            end
          else
            (pw, Ok {| ps_batches := summaries;
                       ps_totals := {| t_batches := n_batches; t_rows := n_rows;
                                       t_validation := None |} |})
      end
  end.

End Orchestrator.

(** ** The annex workflow ([etl/fetch_mospi.py: run_etl])

    [download] is what [download_file] gives for the location: an
    exception, or the saved file with what reading it gives.  The CSV files
    written by dry runs are kept beside the environment, as the preview
    files of the pipeline are; their paths are given relative to the
    directory of the package. *)

Inductive etl_result : Type :=
  | DryRun (rows_parsed : nat) (output_file : string)
  | Skipped (rows_parsed : nat) (checksum : string)
  | Ingested (result : run_summary) (rows_parsed : nat) (checksum : string).

Section AnnexWorkflow.
Context `{RT : PyRuntime}.

Definition run_etl (mospi_url : string) (download : result (source annex_cells))
    (dry_run has_engine : bool) (pw : pipeline_world)
    : pipeline_world * result etl_result :=
  let '(w, files) := pw in
  let w := logger_call "info" ("Downloading MOSPI annex: " +:+ mospi_url) w in
  match download with
  | Raise e => ((w, files), Raise e)
  | Ok file =>
      let w := logger_call "info" ("Saved annex to " +:+ src_path file) w in
      match src_content file with
      | LoadError e => ((w, files), Raise e)
      | Loaded frame_rows =>
          match parse_annex frame_rows with
          | Raise e => ((w, files), Raise e)
          | Ok rows =>
              let w := logger_call "info"
                         ("Parsed " +:+ pretty (length rows) +:+ " rows") w in
              if dry_run then
                let csv_path := "data/exports/dry_run_" +:+ src_stem file +:+ ".csv" in
                let files := files ++ [(csv_path, rows)] in
                let w := logger_call "info"
                           ("Dry run complete. CSV written to " +:+ csv_path) w in
                ((w, files), Ok (DryRun (length rows) csv_path))
              else
                let checksum := src_checksum file in
                if negb has_engine then
                  let w := logger_call "info"
                             "No DATABASE_URL configured. Skipping database ingestion." w in
                  ((w, files), Ok (Skipped (length rows) checksum))
                else
                  match ingest_with_engine (src_path file) rows checksum w with
                  | (w, Raise e) => ((w, files), Raise e)
                  | (w, Ok result) =>
                      ((w, files), Ok (Ingested result (length rows) checksum))
                  end
          end
      end
  end.

End AnnexWorkflow.

(** ** The monthly wrapper ([etl/monthly_refresh.py])

    The configuration is taken after [load_config]; its lists hold, for
    each configured location, what acquiring it gives, as the arguments of
    [run_phase3_pipeline] do.  [str_date] and [str_totals] are the texts
    that the [%s] conversion of the logger gives for a date and for the
    totals of a summary. *)

(** [(a.year, a.month) < (b.year, b.month)] *)
Definition year_month_ltb (a b : date) : bool :=
  (a.1.1 <? b.1.1) || (a.1.1 =? b.1.1) && (a.1.2 <? b.1.2).

(** [bool(xs)] of a tuple *)
Definition nonempty_list {A} (xs : list A) : bool :=
  match xs with [] => false | _ => true end.

Section MonthlyRefresh.
Context `{RT : PyRuntime}.

Record RefreshConfig : Type := {
  cfg_mospi_annexes : list (source annex_cells);
  cfg_datagov_resources : list (source datagov_cells);
  cfg_imf_series : list (source imf_entry);
  cfg_dpiit_resources : list (source dpiit_cells);
}.

Variable str_date : date → string.
Variable str_totals : totals → string.

Definition should_refresh (has_engine : bool) (reference : date) (w : world)
    : world * result bool :=
  if negb has_engine then (w, Ok false)
  else
    let '(f, w) := next_fault w in
    let '(_, report) :=
      run_transaction f (w_db w) (λ conn, (conn_execute id conn, None)) in
    match tx_error report with
    | Some e => (w, Raise e)
    | None =>
        match max_date (series_table (w_db w)) with
        | None => (w, Ok true)
        | Some latest => (w, Ok (year_month_ltb latest reference))
        end
    end.

(** [main]; [current_date] is the value of [date.today()]. *)
Definition refresh_main (config : RefreshConfig) (has_engine force : bool)
    (current_date : date) (pw : pipeline_world) : pipeline_world * result unit :=
  if negb (nonempty_list (cfg_mospi_annexes config)
           || nonempty_list (cfg_datagov_resources config)
           || nonempty_list (cfg_imf_series config)
           || nonempty_list (cfg_dpiit_resources config))
  then (pw, Raise (OtherError "Config must list at least one data source"))
  else
    let today : date := (current_date.1.1, current_date.1.2, 1) in
    let '(w, previews) := pw in
    let '(w, refresh) :=
      if force then (w, Ok true) else should_refresh has_engine today w in
    match refresh with
    | Raise e => ((w, previews), Raise e)
    | Ok false =>
        ((logger_call "info"
            ("ETL already up to date for " +:+ str_date today +:+ "; skipping") w,
          previews), Ok ())
    | Ok true =>
        match run_phase3_pipeline (cfg_mospi_annexes config)
                (cfg_datagov_resources config) (cfg_imf_series config)
                (cfg_dpiit_resources config) has_engine false (w, previews) with
        | (pw, Raise e) => (pw, Raise e)
        | ((w, previews), Ok summary) =>
            ((logger_call "info"
                ("Phase 3 refresh completed: " +:+ str_totals (ps_totals summary)) w,
              previews), Ok ())
        end
    end.

End MonthlyRefresh.

(** ** Engines ([etl/utils.py: get_engine], [dispose_engine])

    The state of the process that these helpers read and write: the
    environment variables, the module-level cache and, as a record of what
    was done, the number of engines created and the engines disposed of.
    An engine is identified by its serial number, the number of engines
    created before it. *)

Record Engine : Type := {
  engine_url : string;
  engine_pool_size : Z;
  engine_max_overflow : Z;
  engine_serial : nat;
}.

Record process : Type := {
  environ : gmap string string;
  _ENGINE_CACHE : gmap string Engine;
  engines_created : nat;
  engines_disposed : list Engine;
}.

Definition set_environ (env : gmap string string) (p : process) : process :=
  {| environ := env; _ENGINE_CACHE := _ENGINE_CACHE p;
     engines_created := engines_created p; engines_disposed := engines_disposed p |}.

Section Engines.
Context `{RT : PyRuntime}.

(** The exception that [create_engine] raises on a URL and pool settings,
    if any. *)
Variable create_error : string → Z → Z → option exn.

Definition _int_env (name : string) (default : Z) (env : gmap string string)
    : result Z :=
  match py_int (match env !! name with
                | Some text => PStr text
                | None => PInt default
                end) with
  | Ok n => Ok n
  | Raise (TypeError _) | Raise (ValueError _) => Ok default
  | Raise e => Raise e
  end.

Definition get_database_url (override : option string) (env : gmap string string)
    : option string :=
  match override with
  | Some url => if Str.nonempty url then Some url else env !! "DATABASE_URL"
  | None => env !! "DATABASE_URL"
  end.

Definition create_engine (url : string) (pool_size max_overflow : Z) (p : process)
    : process * result Engine :=
  match create_error url pool_size max_overflow with
  | Some e => (p, Raise e)
  | None =>
      ({| environ := environ p; _ENGINE_CACHE := _ENGINE_CACHE p;
          engines_created := S (engines_created p);
          engines_disposed := engines_disposed p |},
       Ok {| engine_url := url; engine_pool_size := pool_size;
             engine_max_overflow := max_overflow;
             engine_serial := engines_created p |})
  end.

Definition get_engine (database_url : option string) (p : process)
    : process * result (option Engine) :=
  match get_database_url database_url (environ p) with
  | None => (p, Ok None)
  | Some url =>
      if negb (Str.nonempty url) then (p, Ok None)
      else
        match _ENGINE_CACHE p !! url with
        | Some engine => (p, Ok (Some engine))
        | None =>
            match _int_env "DB_POOL_SIZE" 5 (environ p) with
            | Raise e => (p, Raise e)
            | Ok pool_size =>
                match _int_env "DB_POOL_MAX_OVERFLOW" 5 (environ p) with
                | Raise e => (p, Raise e)
                | Ok max_overflow =>
                    match create_engine url pool_size max_overflow p with
                    | (p, Raise e) => (p, Raise e)
                    | (p, Ok engine) =>
                        ({| environ := environ p;
                            _ENGINE_CACHE := <[url := engine]> (_ENGINE_CACHE p);
                            engines_created := engines_created p;
                            engines_disposed := engines_disposed p |},
                         Ok (Some engine))
                    end
                end
            end
        end
  end.

Definition dispose_engine (database_url : option string) (p : process) : process :=
  match get_database_url database_url (environ p) with
  | None => p
  | Some url =>
      if negb (Str.nonempty url) then p
      else
        match _ENGINE_CACHE p !! url with
        | None => p
        | Some engine =>
            {| environ := environ p;
               _ENGINE_CACHE := delete url (_ENGINE_CACHE p);
               engines_created := engines_created p;
               engines_disposed := engines_disposed p ++ [engine] |}
        end
  end.

End Engines.

(** ** Choice of the DPIIT file ([etl/phase3_pipeline.py:
       _load_dpiit_dataframe])

    The function is embedded up to the call of the pandas reader: its
    result names the member of the archive that is read, if the resource
    is an archive, and the reader applied. *)

(** [s.endswith(suffix)] *)
Fixpoint ends_with (suffix s : string) : bool :=
  String.eqb suffix s
  || match s with
     | EmptyString => false
     | String _ r => ends_with suffix r
     end.

(** [list.sort] with the order [leb] of the keys: a stable sort. *)
Fixpoint insert_sorted {A} (leb : A → A → bool) (x : A) (l : list A) : list A :=
  match l with
  | [] => [x]
  | y :: r => if leb x y then x :: y :: r else y :: insert_sorted leb x r
  end.

Definition list_sort {A} (leb : A → A → bool) (l : list A) : list A :=
  foldr (insert_sorted leb) [] l.

Inductive frame_reader : Type :=
  | read_excel
  | read_csv.

Definition is_excel_name (name : string) : bool :=
  ends_with ".xlsx" (Str.lower name) || ends_with ".xls" (Str.lower name).

Definition is_csv_name (name : string) : bool :=
  ends_with ".csv" (Str.lower name).

(** The first component of the sort key. *)
Definition member_rank (name : string) : Z :=
  if is_excel_name name then 0 else if is_csv_name name then 1 else 2.

(** [(rank(a), a) <= (rank(b), b)] *)
Definition member_key_leb (a b : string) : bool :=
  (member_rank a <? member_rank b)
  || (member_rank a =? member_rank b) && (a <=? b)%string.

(** [suffix] is [path.suffix] and [namelist] is [archive.namelist()]. *)
Definition _load_dpiit_dataframe (path_suffix : string) (namelist : list string)
    : result (option string * frame_reader) :=
  let suffix := Str.lower path_suffix in
  if String.eqb suffix ".zip" then
    let preferred := List.filter (λ name, negb (ends_with "/" name)) namelist in
    match preferred with
    | [] => Raise (ValueError "DPIIT archive is empty")
    | _ =>
        match list_sort member_key_leb preferred with
        | [] => Raise (OtherError "list index out of range")
        | target_name :: _ =>
            if is_excel_name target_name then Ok (Some target_name, read_excel)
            else if is_csv_name target_name then Ok (Some target_name, read_csv)
            else Raise (ValueError ("Unsupported DPIIT file inside archive: "
                                    +:+ target_name))
        end
    end
  else if String.eqb suffix ".xlsx" || String.eqb suffix ".xls"
  then Ok (None, read_excel)
  else if String.eqb suffix ".csv" then Ok (None, read_csv)
  else Raise (ValueError ("Unsupported DPIIT resource type: " +:+ path_suffix)).

(** ** A concrete runtime for the examples

    ASCII text (on which NFKD is the identity), floats restricted to
    integral values, a clock that ticks once per reading and a counter as
    UUID source.  It is used to run the embedding on concrete inputs; the
    general theorems below hold for every runtime. *)

Definition example_fromisoformat (s : string) : option (Z * Z) :=
  if Ascii.eqb (default "x"%char (String.get 4 s)) "-"
  then match int_of_str (Str.take 4 s), int_of_str (String.substring 5 2 s) with
       | Some y, Some m => Some (y, m)
       | _, _ => None
       end
  else None.

Definition example_runtime : PyRuntime := {|
  nfkd_ascii := Str.filter (λ c, (Str.code c <? 128)%N);
  pyfloat := Z;
  float_of_str := int_of_str;
  float_of_int := λ z, z;
  int_of_float := λ z, Ok z;
  float_str := λ z, pretty z +:+ ".0";
  float_is_nan := λ _, false;
  float_is_zero := λ z, z =? 0;
  fromisoformat := example_fromisoformat;
  now := Z.of_nat;
  isoformat := pretty;
  uuid4 := Z.of_nat;
|}.

Definition empty_world : world :=
  {| w_db := empty_database; w_faults := []; w_clock := 0; w_uuids := 0;
     w_logger := []; w_sleeps := []; w_disposed := 0 |}.

Definition with_faults (faults : list (option fault)) (w : world) : world :=
  {| w_db := w_db w; w_faults := faults; w_clock := w_clock w;
     w_uuids := w_uuids w; w_logger := w_logger w; w_sleeps := w_sleeps w;
     w_disposed := w_disposed w |}.

(** * Notions used in the statements, and example data *)

Section AdapterScopeNotions.
Context `{RT : PyRuntime}.

Definition in_scope (r : norm_row) : Prop := _year_in_scope (nr_year r) = true.

End AdapterScopeNotions.

Section ResolverEffectsNotions.
Context `{RT : PyRuntime}.
Implicit Types (dm : DimensionManager) (alias : string).

Definition dm_db dm : database := conn_db (dm_conn dm).

(** Tables that an operation leaves alone. *)
Definition same_but_items (db db' : database) : Prop :=
  regions_table db' = regions_table db
  ∧ raw_series_table db' = raw_series_table db
  ∧ series_table db' = series_table db
  ∧ etl_runs_table db' = etl_runs_table db.

Definition same_but_regions (db db' : database) : Prop :=
  items_table db' = items_table db
  ∧ raw_series_table db' = raw_series_table db
  ∧ series_table db' = series_table db
  ∧ etl_runs_table db' = etl_runs_table db.

End ResolverEffectsNotions.

Section UniqueLoopNotions.

(** The k-th candidate tried for a base slug: the base itself, then
    [base-2], [base-3], ... *)
Definition candidate (slug : string) (k : nat) : string :=
  if decide (k = 1%nat) then slug else slug +:+ "-" +:+ pretty k.

End UniqueLoopNotions.

Section RegionExamplesData.
Local Existing Instance example_runtime.

Definition seeded_database : database :=
  {| items_table :=
       [{| item_id := 1; item_slug := "rice"; item_canonical_name := "Rice";
           item_aliases := [] |}];
     regions_table :=
       [{| region_id := 1; region_code := "delhi"; region_name := "Delhi";
           region_type := "state" |}];
     raw_series_table := []; series_table := ∅; etl_runs_table := [] |}.

Definition seeded_manager : DimensionManager :=
  new_DimensionManager {| conn_db := seeded_database; conn_statements := 0 |}.

End RegionExamplesData.

Section SlugDisambiguationNotions.
Context `{RT : PyRuntime}.
Implicit Types (dm : DimensionManager).

(** The slugs of the item records of the store, in table order. *)
Definition stored_slugs dm : list string := item_slug <$> items_table (dm_db dm).

(** Resolving a list of labels in order. *)
Definition resolve_items (labels : list string) dm : DimensionManager :=
  foldl (λ dm label, (ensure_item label dm).1) dm labels.

Definition slugs_indexed dm : Prop :=
  ∀ s, s ∈ stored_slugs dm → is_Some (slug_index dm !! s).

End SlugDisambiguationNotions.

Section SlugExamplesData.
Local Existing Instance example_runtime.

Definition fresh_manager : DimensionManager :=
  new_DimensionManager {| conn_db := empty_database; conn_statements := 0 |}.

End SlugExamplesData.

Section AliasConvergenceNotions.
Context `{RT : PyRuntime}.
Implicit Types (dm : DimensionManager) (alias : string).

(** Consistency of the item indices: an indexed token refers to a stored
    record, a record is stored under its own id, and every alias of a
    stored record is indexed. *)
Definition item_inv dm : Prop :=
  (∀ t id, item_alias_index dm !! t = Some id → is_Some (dm_items dm !! id))
  ∧ (∀ id r, dm_items dm !! id = Some r → item_id r = id)
  ∧ (∀ id r a, dm_items dm !! id = Some r → a ∈ item_aliases r →
               is_Some (item_alias_index dm !! _normalize_alias a)).

(** A call of the resolver. *)
Inductive resolver_call : Type :=
  | ResolveItem (alias : string)
  | ResolveRegion (alias : string).

Definition run_call (c : resolver_call) dm : DimensionManager :=
  match c with
  | ResolveItem alias => (ensure_item alias dm).1
  | ResolveRegion alias => (ensure_region alias dm).1
  end.

Definition run_calls (calls : list resolver_call) dm : DimensionManager :=
  foldl (λ dm c, run_call c dm) dm calls.

(** The ids of the item records of the store, in table order. *)
Definition stored_item_ids dm : list Z := item_id <$> items_table (dm_db dm).

End AliasConvergenceNotions.

Section RowCoercionNotions.
Context `{RT : PyRuntime}.

(** A month cell that is a string without a month name in its first three
    characters. *)
Definition unsupported_month (v : pyval) : Prop :=
  ∃ s, v = PStr s ∧ assoc (Str.take 3 (Str.lower (Str.strip s))) month_lookup = None.

(** A value cell that [_normalize_numeric] rejects with [ValueError]:
    [None], or text that is blank or that [float] does not parse.  A cell
    that holds a float is not among them, NaN included:
    [_normalize_numeric] returns it. *)
Definition unusable_number (v : pyval) : Prop :=
  match v with
  | PNone => True
  | PStr s => Str.strip s = "" ∨ float_of_str (Str.strip s) = None
  | _ => False
  end.

(** A value cell that [float] rejects. *)
Definition non_numeric (v : pyval) : Prop :=
  ∃ s, v = PStr s ∧ float_of_str s = None.

(** The year coerces and the month or, after it, the value does not. *)
Definition coercion_fails (year month value : pyval) : Prop :=
  (∃ y, py_int year = Ok y)
  ∧ (unsupported_month month
     ∨ ((∃ m, month_to_number month = Ok m) ∧ unusable_number value)).

End RowCoercionNotions.

Section CoercionExamplesData.
Local Existing Instance example_runtime.

Definition annex_good : annex_cells :=
  {| ac_item := PStr "Rice"; ac_region := PStr "All India"; ac_year := PInt 2023;
     ac_month := PStr "January"; ac_index_value := PInt 140 |}.

Definition annex_bad_month : annex_cells :=
  {| ac_item := PStr "Milk"; ac_region := PStr "All India"; ac_year := PInt 2023;
     ac_month := PStr "Foo"; ac_index_value := PInt 150 |}.

Definition datagov_good : datagov_cells :=
  {| dg_item := PStr "General"; dg_state := PStr "Delhi"; dg_sector := Some (PStr "Urban");
     dg_year := PInt 2024; dg_month := PStr "Jan"; dg_value := PStr "142" |}.

Definition datagov_bad_month : datagov_cells :=
  {| dg_item := PStr "General"; dg_state := PStr "Delhi"; dg_sector := Some (PStr "Urban");
     dg_year := PInt 2024; dg_month := PStr "Foo"; dg_value := PStr "142" |}.

Definition datagov_bad_value : datagov_cells :=
  {| dg_item := PStr "General"; dg_state := PStr "Delhi"; dg_sector := Some (PStr "Rural");
     dg_year := PInt 2024; dg_month := PStr "Feb"; dg_value := PStr "n/a" |}.

End CoercionExamplesData.

Section EngineEffectsNotions.
Context `{RT : PyRuntime}.

Definition fresh_conn (db : database) : connection :=
  {| conn_db := db; conn_statements := 0 |}.

(** The exception that leaves one ingestion attempt on the store [db] under
    the fault [f], if any. *)
Definition attempt_error (f : option fault) (file_path : string)
    (rows : list base_row) (db : database) : option exn :=
  tx_error (run_transaction f db (transaction_body file_path rows)).2.

(** The fault met by the i-th transaction from now on. *)
Definition fault_at (w : world) (i : nat) : option fault :=
  default None (w_faults w !! i).

(** The exception that a fault raises in a transaction of one statement. *)
Definition single_statement_fault (f : option fault) : option exn :=
  match f with
  | Some (AtBegin e) | Some (AtStatement O e) | Some (AtCommit e) => Some e
  | _ => None
  end.

(** What one transaction leaves of the environment: the store [db], one
    schedule entry consumed, the given sleeps appended. *)
Definition after_attempt (w w' : world) (db : database) (sleeps : list Z) : Prop :=
  w_db w' = db
  ∧ w_faults w' = tail (w_faults w)
  ∧ w_uuids w' = w_uuids w
  ∧ w_sleeps w' = w_sleeps w ++ sleeps.

(** The store after a committed attempt. *)
Definition committed_db (file_path : string) (rows : list base_row) (db : database)
    : database :=
  conn_db (transaction_body file_path rows (fresh_conn db)).1.

(** The pause before the retry that follows the given attempt. *)
Definition wait_time_after (attempt : nat) : Z :=
  Z.min (RETRY_BASE_DELAY_SECONDS * Z.of_nat attempt) 10.

(** The run record written by [record_run] from the frame [st]. *)
Definition run_record (run_id started_at : Z) (checksum final_status : string)
    (st : frame) : run_row :=
  {| run_id := run_id; started_at := started_at;
     finished_at := now (w_clock st.1);
     run_status := final_status; run_checksum := checksum;
     run_log := Str.take (Z.to_nat MAX_LOG_CHARS) (String.concat newline st.2) |}.

End EngineEffectsNotions.

Section EngineExamplesData.
Local Existing Instance example_runtime.

Definition two_rows : list base_row :=
  [{| row_item_alias := "Rice"; row_region_alias := "All India";
      row_year := 2023; row_month := 1; row_index_value := 140 |};
   {| row_item_alias := "Milk"; row_region_alias := "All India";
      row_year := 2023; row_month := 1; row_index_value := 150 |}].

Definition flaky_world : world :=
  with_faults [Some (AtBegin (DBAPIError "connection lost"));
               Some (AtCommit (DBAPIError "serialization failure"))] empty_world.

(** Storage that refuses four connections in a row: the three attempts
    and the transaction of the run record. *)
Definition down_world : world :=
  with_faults [Some (AtBegin (DBAPIError "connection lost"));
               Some (AtBegin (DBAPIError "connection lost"));
               Some (AtBegin (DBAPIError "connection lost"));
               Some (AtBegin (DBAPIError "connection lost"))] empty_world.

Definition outage_call : world * result run_summary :=
  ingest_with_engine "annex.xlsx" two_rows "c0ffee" down_world.

End EngineExamplesData.

Section ScopeEnforcementNotions.
Context `{RT : PyRuntime}.

(** The year of the date of a fact key. *)
Definition fact_year (k : fact_key) : Z := k.2.1.1.

(** Every fact that differs between two stores has a year in [P]. *)
Definition touched_years (P : Z → Prop) (db db' : database) : Prop :=
  ∀ k, series_table db' !! k ≠ series_table db !! k → P (fact_year k).

Definition row_years (rows : list base_row) (y : Z) : Prop :=
  ∃ row, row ∈ rows ∧ y = row_year row.

Definition accepted (y : Z) : Prop := 1958 ≤ y ≤ 2025.

Definition batch_in_scope (batch : SourceBatch) : Prop :=
  Forall in_scope (batch_rows batch).

End ScopeEnforcementNotions.

Section OrchestratorExamplesData.
Local Existing Instance example_runtime.

Definition annex_source (stem item : string) : source annex_cells :=
  {| src_path := stem +:+ ".xlsx"; src_stem := stem; src_checksum := "sha-" +:+ stem;
     src_content :=
       Loaded [{| ac_item := PStr item; ac_region := PStr "All India";
                  ac_year := PInt 2023; ac_month := PStr "January";
                  ac_index_value := PInt 140 |}] |}.

(** Storage that serves the first batch, then refuses three connections in
    a row, then works again. *)
Definition outage_world : world :=
  with_faults [None; None;
               Some (AtBegin (DBAPIError "connection lost"));
               Some (AtBegin (DBAPIError "connection lost"));
               Some (AtBegin (DBAPIError "connection lost"))] empty_world.

Definition outage_run : pipeline_world * result PipelineSummary :=
  run_phase3_pipeline
    [annex_source "a1" "Rice"; annex_source "a2" "Milk"; annex_source "a3" "Wheat"]
    [] [] [] true false (outage_world, []).

End OrchestratorExamplesData.

Section IdempotenceNotions.
Context `{RT : PyRuntime}.
Implicit Types (dm : DimensionManager) (db : database).

(** The tokens under which the loader registers a record. *)
Definition item_tokens (r : item_row) : list string :=
  _normalize_alias (item_slug r) :: _normalize_alias (item_canonical_name r)
  :: (_normalize_alias <$> item_aliases r).

Definition region_tokens (r : region_row) : list string :=
  [_normalize_alias (region_code r); _normalize_alias (region_name r)].

(** The primary keys of the dimension tables. *)
Definition primary_keys_unique db : Prop :=
  NoDup (item_id <$> items_table db) ∧ NoDup (region_id <$> regions_table db).

(** The invariant of the data model: a normalised alias token belongs to at
    most one item and to at most one region. *)
Definition alias_unique db : Prop :=
  (∀ r1 r2 t, r1 ∈ items_table db → r2 ∈ items_table db →
              t ∈ item_tokens r1 → t ∈ item_tokens r2 → item_id r1 = item_id r2)
  ∧ (∀ r1 r2 t, r1 ∈ regions_table db → r2 ∈ regions_table db →
                t ∈ region_tokens r1 → t ∈ region_tokens r2 → region_id r1 = region_id r2).

(** The store records the token among the aliases of the item [id]; the
    region [id] carries the token as its code or name. *)
Definition item_claims db (id : Z) (t : string) : Prop :=
  ∃ r, r ∈ items_table db ∧ item_id r = id ∧ t ∈ (_normalize_alias <$> item_aliases r).

Definition region_claims db (id : Z) (t : string) : Prop :=
  ∃ r, r ∈ regions_table db ∧ region_id r = id ∧ t ∈ region_tokens r.

(** Last-write-wins application of a list of upserts. *)
Definition apply_upserts (facts : gmap fact_key string)
    (upserts : list (fact_key * string)) : gmap fact_key string :=
  foldl (λ m kv, <[kv.1 := kv.2]> m) facts upserts.

(** One iteration of the loop of [_load_items], of [_load_regions]. *)
Definition load_item_step dm (row : item_row) : DimensionManager :=
  foldl (λ dm a, _register_item_alias row a dm)
    (_register_item_alias row (item_canonical_name row)
       (_register_item_alias row (item_slug row)
          (set_slug_index (item_slug row) row (set_dm_item row dm))))
    (item_aliases row).

Definition load_region_step dm (row : region_row) : DimensionManager :=
  _register_region_alias row (region_name row)
    (_register_region_alias row (region_code row)
       (set_code_index (region_code row) row (set_dm_region row dm))).

(** The item indices hold exactly the records [rows] and their tokens. *)
Definition items_loaded dm (rows : list item_row) : Prop :=
  (∀ r t, r ∈ rows → t ∈ item_tokens r → is_Some (item_alias_index dm !! t))
  ∧ (∀ t id, item_alias_index dm !! t = Some id →
             ∃ r, r ∈ rows ∧ item_id r = id ∧ t ∈ item_tokens r)
  ∧ (∀ r, r ∈ rows → dm_items dm !! item_id r = Some r)
  ∧ (∀ id r, dm_items dm !! id = Some r → r ∈ rows).

Definition regions_loaded dm (rows : list region_row) : Prop :=
  (∀ r t, r ∈ rows → t ∈ region_tokens r → is_Some (region_alias_index dm !! t))
  ∧ (∀ t id, region_alias_index dm !! t = Some id →
             ∃ r, r ∈ rows ∧ region_id r = id ∧ t ∈ region_tokens r)
  ∧ (∀ r, r ∈ rows → dm_regions dm !! region_id r = Some r)
  ∧ (∀ id r, dm_regions dm !! id = Some r → r ∈ rows).

Definition sync_items dm : Prop :=
  ∀ id r, dm_items dm !! id = Some r → r ∈ items_table (dm_db dm).

Definition region_sound dm : Prop :=
  ∀ t id, region_alias_index dm !! t = Some id →
          ∃ r, dm_regions dm !! id = Some r ∧ region_id r = id
               ∧ r ∈ regions_table (dm_db dm) ∧ t ∈ region_tokens r.

Definition run_inv dm : Prop :=
  item_inv dm ∧ primary_keys_unique (dm_db dm) ∧ sync_items dm ∧ region_sound dm.

(** The fact written for each row, under resolutions that the store
    records: the item and the region of the key claim the tokens of the
    row's aliases. *)
Definition resolved db (rows : list base_row) (upserts : list (fact_key * string))
    : Prop :=
  Forall2 (λ row kv, ∃ iid rid d,
             item_claims db iid (_normalize_alias (row_item_alias row))
             ∧ region_claims db rid (_normalize_alias (row_region_alias row))
             ∧ first_of_month (row_year row) (row_month row) = Ok d
             ∧ kv = ((iid, rid, d), decimal_of (row_index_value row)))
          rows upserts.

Definition same_but_runs (db db' : database) : Prop :=
  items_table db' = items_table db
  ∧ regions_table db' = regions_table db
  ∧ raw_series_table db' = raw_series_table db
  ∧ series_table db' = series_table db.

End IdempotenceNotions.

Section IdempotenceExamplesData.
Local Existing Instance example_runtime.

(** A batch whose only row carries the month 13, which [month_to_number]
    lets through. *)
Definition month_13_rows : list base_row :=
  [{| row_item_alias := "Rice"; row_region_alias := "All India";
      row_year := 2023; row_month := 13; row_index_value := 140 |}].

Definition month_13_run : world * result run_summary :=
  ingest_with_engine "annex.xlsx" month_13_rows "c0ffee" empty_world.

Definition month_13_rerun : world * result run_summary :=
  ingest_with_engine "annex.xlsx" month_13_rows "c0ffee" month_13_run.1.

(** A store in which the item "Item" was given the slug "foo", and a
    batch that names it next to a label without any ASCII letter or
    digit. *)
Definition stray_world : world :=
  set_w_db
    {| items_table :=
         [{| item_id := 1; item_slug := "foo"; item_canonical_name := "Item";
             item_aliases := [] |}];
       regions_table := []; raw_series_table := []; series_table := ∅;
       etl_runs_table := [] |} empty_world.

Definition stray_rows : list base_row :=
  [{| row_item_alias := "Item"; row_region_alias := "All India";
      row_year := 2023; row_month := 1; row_index_value := 140 |};
   {| row_item_alias := "???"; row_region_alias := "All India";
      row_year := 2023; row_month := 2; row_index_value := 150 |}].

Definition stray_run : world * result run_summary :=
  ingest_with_engine "annex.xlsx" stray_rows "c0ffee" stray_world.

Definition stray_rerun : world * result run_summary :=
  ingest_with_engine "annex.xlsx" stray_rows "c0ffee" stray_run.1.

End IdempotenceExamplesData.

Section TextNotions.

(** Every character of the string satisfies the test. *)
Fixpoint all_chars (p : ascii → bool) (s : string) : bool :=
  match s with
  | EmptyString => true
  | String c r => p c && all_chars p r
  end.

(** The alphabet of a slug: lower-case ASCII letters, digits and the hyphen. *)
Definition slug_char (c : ascii) : bool :=
  Str.is_lower_az c || Str.is_digit c || Ascii.eqb c "-".

(** The string starts with a white-space character. *)
Definition head_space (s : string) : bool :=
  match s with
  | String c _ => Str.is_space c
  | EmptyString => false
  end.

(** The characters a normalised override key is made of. *)
Definition key_char (c : ascii) : bool :=
  Str.is_lower_az c || Str.is_digit c || Ascii.eqb c " ".

End TextNotions.

Section RuntimeNotions.
Context `{RT : PyRuntime}.

(** NFKD followed by the ASCII round trip leaves a string of slug
    characters as it is. *)
Definition nfkd_fixes_slugs : Prop :=
  ∀ s, all_chars slug_char s = true → nfkd_ascii s = s.

End RuntimeNotions.

Section AnnexNotions.
Context `{RT : PyRuntime}.

(** Both aliases of the row are free of surrounding white space. *)
Definition stripped_aliases (row : base_row) : Prop :=
  Str.strip (row_item_alias row) = row_item_alias row
  ∧ Str.strip (row_region_alias row) = row_region_alias row.

End AnnexNotions.

Section AdapterNotions.
Context `{RT : PyRuntime}.

(** The region types the adapters assign themselves. *)
Definition known_region_type (t : string) : Prop :=
  t = "urban" ∨ t = "rural" ∨ t = "nation" ∨ t = "state".

(** What every adapter guarantees about an emitted row. *)
Definition row_shape (source : string) (r : norm_row) : Prop :=
  nr_source r = source
  ∧ nr_region_code r = slugify (nr_region_alias r)
  ∧ _year_in_scope (nr_year r) = true.

(** A cell that holds text or a Python [int]. *)
Definition text_or_int (v : pyval) : Prop :=
  match v with
  | PStr _ | PInt _ => True
  | PNone | PFloat _ => False
  end.

(** A cell that does not hold a float: [None], text or a Python [int]. *)
Definition not_float (v : pyval) : Prop :=
  match v with
  | PFloat _ => False
  | _ => True
  end.

(** A cell on which [float] does not overflow: anything but an integer
    beyond the range of the doubles. *)
Definition in_float_range (v : pyval) : Prop :=
  match v with
  | PInt z => Z.abs z < FLOAT_INT_LIMIT
  | _ => True
  end.

End AdapterNotions.

Section StoreNotions.
Context `{RT : PyRuntime}.
Implicit Types (dm : DimensionManager) (db : database).

(** The codes of the region records of the store, in table order. *)
Definition stored_codes dm : list string := region_code <$> regions_table (dm_db dm).

Definition codes_indexed dm : Prop :=
  ∀ c, c ∈ stored_codes dm → is_Some (region_code_index dm !! c).

(** The unique constraints of [items.slug] and [regions.code]. *)
Definition unique_keys db : Prop :=
  NoDup (item_slug <$> items_table db) ∧ NoDup (region_code <$> regions_table db).

(** The item record [r'] is the record [r] with further aliases appended. *)
Definition item_extends (r r' : item_row) : Prop :=
  item_id r' = item_id r
  ∧ item_slug r' = item_slug r
  ∧ item_canonical_name r' = item_canonical_name r
  ∧ item_aliases r `prefix_of` item_aliases r'.

(** Nothing of the store [db] is lost in [db']: every item record is kept,
    possibly with more aliases; region, raw and run records are kept in
    place, new ones following them; every fact key is kept. *)
Definition grows db db' : Prop :=
  (∀ r, r ∈ items_table db → ∃ r', r' ∈ items_table db' ∧ item_extends r r')
  ∧ regions_table db `prefix_of` regions_table db'
  ∧ raw_series_table db `prefix_of` raw_series_table db'
  ∧ etl_runs_table db `prefix_of` etl_runs_table db'
  ∧ (∀ k, is_Some (series_table db !! k) → is_Some (series_table db' !! k)).

(** The invariant of the resolver inside a run, with both unique
    constraints. *)
Definition dim_inv dm : Prop :=
  run_inv dm ∧ slugs_indexed dm ∧ codes_indexed dm ∧ unique_keys (dm_db dm).

(** The foreign keys of [series.item_id] and [series.region_id]. *)
Definition references_hold db : Prop :=
  ∀ k, is_Some (series_table db !! k) →
       k.1.1 ∈ (item_id <$> items_table db) ∧ k.1.2 ∈ (region_id <$> regions_table db).

(** What a sequence of transactions leaves of the environment: the
    schedule entries consumed, the sleeps appended and the number of
    times the engine was disposed of. *)
Definition consumed (w w' : world) (entries : nat) (sleeps : list Z) : Prop :=
  w_faults w' = drop entries (w_faults w)
  ∧ w_sleeps w' = w_sleeps w ++ sleeps
  ∧ w_disposed w' = (w_disposed w + length sleeps)%nat.

End StoreNotions.

Section PipelineNotions.
Context `{RT : PyRuntime}.
Implicit Types (db : database) (batch : SourceBatch).

(** The preview file written for a batch in preview mode. *)
Definition preview_path batch : string :=
  "previews/" +:+ batch_stem batch +:+ "_" +:+ batch_name batch +:+ ".csv".

Definition preview_file batch : string * list base_row :=
  (preview_path batch, _base_row <$> batch_rows batch).

Definition preview_summary batch : batch_summary :=
  base_summary batch "preview" (Some (preview_path batch)) None.

Definition ingested_summary batch : batch_summary :=
  base_summary batch "ingested" None None.

Definition total_rows (batches : list SourceBatch) : nat :=
  foldr Nat.add 0%nat ((λ batch, length (batch_rows batch)) <$> batches).

(** [latest] is the greatest date of the fact table [facts], or [None]
    when the table is empty. *)
Definition latest_of (facts : gmap fact_key string) (latest : option date) : Prop :=
  match latest with
  | None => facts = ∅
  | Some d =>
      (∃ k, is_Some (facts !! k) ∧ k.2 = d)
      ∧ ∀ k, is_Some (facts !! k) → date_ltb d k.2 = false
  end.

(** The constraints of the schema that the engine relies on and keeps. *)
Definition store_ok db : Prop :=
  primary_keys_unique db ∧ unique_keys db ∧ references_hold db.

End PipelineNotions.

Section PipelineExamplesData.
Local Existing Instance example_runtime.

Definition one_annex : list (source annex_cells) := [annex_source "a1" "Rice"].

End PipelineExamplesData.

Section WorkflowNotions.
Context `{RT : PyRuntime}.

(** The environment [w'] is [w] with further messages sent to the logger:
    no transaction was opened and the engine was not called. *)
Definition only_logged (w w' : world) : Prop :=
  w_db w' = w_db w ∧ w_faults w' = w_faults w ∧ w_clock w' = w_clock w
  ∧ w_uuids w' = w_uuids w ∧ w_sleeps w' = w_sleeps w
  ∧ w_disposed w' = w_disposed w
  ∧ w_logger w `prefix_of` w_logger w'.

(** The rows of a sheet without a missing cell. *)
Definition complete_rows (frame_rows : list annex_cells) : list annex_cells :=
  List.filter (λ cells, negb (annex_has_na cells)) frame_rows.

(** The date [d] lies in a month before the month of [reference]. *)
Definition month_before (d reference : date) : Prop :=
  d.1.1 < reference.1.1 ∨ d.1.1 = reference.1.1 ∧ d.1.2 < reference.1.2.

(** Every fact of the store is dated before the month of [reference]. *)
Definition stale (db : database) (reference : date) : Prop :=
  ∀ k, is_Some (series_table db !! k) → month_before k.2 reference.

Definition config_listed (config : RefreshConfig) : Prop :=
  cfg_mospi_annexes config ≠ [] ∨ cfg_datagov_resources config ≠ []
  ∨ cfg_imf_series config ≠ [] ∨ cfg_dpiit_resources config ≠ [].

End WorkflowNotions.

Section WorkflowExamplesData.
Local Existing Instance example_runtime.

Definition march_store : database :=
  {| items_table :=
       [{| item_id := 1; item_slug := "rice"; item_canonical_name := "Rice";
           item_aliases := [] |}];
     regions_table :=
       [{| region_id := 1; region_code := "delhi"; region_name := "Delhi";
           region_type := "state" |}];
     raw_series_table := [];
     series_table := {[ (1, 1, (2024, 3, 1)) := "140.0" ]};
     etl_runs_table := [] |}.

Definition march_world : world := set_w_db march_store empty_world.

(** An annex whose only row is dated January 1900. *)
Definition old_annex_rows : list annex_cells :=
  [{| ac_item := PStr "Rice"; ac_region := PStr "All India"; ac_year := PInt 1900;
      ac_month := PStr "January"; ac_index_value := PInt 140 |}].

Definition old_annex : source annex_cells :=
  {| src_path := "old.xlsx"; src_stem := "old"; src_checksum := "sha-old";
     src_content := Loaded old_annex_rows |}.

Definition old_annex_etl : pipeline_world * result etl_result :=
  run_etl "file://old.xlsx" (Ok old_annex) false true (empty_world, []).

Definition old_annex_pipeline : pipeline_world * result PipelineSummary :=
  run_phase3_pipeline [old_annex] [] [] [] true false (empty_world, []).

Definition one_annex_config : RefreshConfig :=
  {| cfg_mospi_annexes := one_annex; cfg_datagov_resources := [];
     cfg_imf_series := []; cfg_dpiit_resources := [] |}.

End WorkflowExamplesData.

Section EngineNotions.

(** A cached engine is filed under its own URL and was created by this
    process. *)
Definition cache_inv (p : process) : Prop :=
  ∀ url engine, _ENGINE_CACHE p !! url = Some engine →
                engine_url engine = url
                ∧ (engine_serial engine < engines_created p)%nat.

Definition fresh_process (env : gmap string string) : process :=
  {| environ := env; _ENGINE_CACHE := ∅; engines_created := 0;
     engines_disposed := [] |}.

(** A process that holds one engine, cached under its URL. *)
Definition pooled_engine : Engine :=
  {| engine_url := "postgresql://db"; engine_pool_size := 5;
     engine_max_overflow := 5; engine_serial := 0 |}.

Definition pooled_process : process :=
  {| environ := ∅; _ENGINE_CACHE := {[ "postgresql://db" := pooled_engine ]};
     engines_created := 1; engines_disposed := [] |}.

End EngineNotions.

Section DpiitNotions.

(** The members of an archive that are files. *)
Definition file_members (namelist : list string) : list string :=
  List.filter (λ name, negb (ends_with "/" name)) namelist.

End DpiitNotions.

Section ProvenanceNotions.
Context `{RT : PyRuntime}.
Implicit Types (db : database).

(** Where an item record comes from, relative to the store [db] and the
    item aliases of a batch: it is a record of [db] with aliases of the
    batch appended, or it is named after an alias of the batch, which
    heads its alias list, followed by aliases of the batch. *)
Definition item_origin (aliases : list string) db (r' : item_row) : Prop :=
  ∃ extra,
    Forall (λ a, a ∈ aliases) extra
    ∧ ((∃ r, r ∈ items_table db
             ∧ item_id r' = item_id r
             ∧ item_slug r' = item_slug r
             ∧ item_canonical_name r' = item_canonical_name r
             ∧ item_aliases r' = item_aliases r ++ extra)
       ∨ (item_canonical_name r' ∈ aliases
          ∧ item_aliases r' = item_canonical_name r' :: extra)).

(** A region record is a record of [db], or it is named after a region
    alias of the batch and has the type "unknown". *)
Definition region_origin (aliases : list string) db (r' : region_row) : Prop :=
  r' ∈ regions_table db
  ∨ (region_type r' = "unknown" ∧ region_name r' ∈ aliases).

Definition provenance (items regions : list string) db db' : Prop :=
  (∀ r', r' ∈ items_table db' → item_origin items db r')
  ∧ (∀ r', r' ∈ regions_table db' → region_origin regions db r').

End ProvenanceNotions.

Section BatchNotions.
Context `{RT : PyRuntime}.

(** The call of the engine that the pipeline makes for a batch. *)
Definition batch_call (batch : SourceBatch) (w : world) : world * result run_summary :=
  ingest_with_engine (batch_file_path batch) (_base_row <$> batch_rows batch)
    (batch_checksum batch) w.

(** The environment after the calls for the batches, one after the other. *)
Definition after_batches (batches : list SourceBatch) (w : world) : world :=
  foldl (λ w batch, (batch_call batch w).1) w batches.

(** Every one of these calls returns. *)
Fixpoint batches_return (batches : list SourceBatch) (w : world) : Prop :=
  match batches with
  | [] => True
  | batch :: rest =>
      is_Some (returned (batch_call batch w).2)
      ∧ batches_return rest (batch_call batch w).1
  end.

End BatchNotions.

(** * Properties *)

(** ** Month normalisation *)

Lemma first_of_month_ok (year month : Z) :
  (∃ d, first_of_month year month = Ok d) ↔ (1 ≤ year ≤ 9999 ∧ 1 ≤ month ≤ 12).
Proof.
  unfold first_of_month.
  destruct (Z.leb_spec 1 year), (Z.leb_spec year 9999),
           (Z.leb_spec 1 month), (Z.leb_spec month 12); simpl;
    (split; [intros [d Hd]; (discriminate || lia) | intros Hr; (by eauto) || lia]).
Qed.

(** C10: [month_to_number] returns an integer argument unchanged, whatever
    its value; an integer month outside 1..12 therefore passes month
    normalisation, and the first check it meets is the construction of the
    first-of-month date in the engine, which succeeds exactly for years
    1..9999 and months 1..12. *)
Theorem month_to_number_int_unchecked `{RT : PyRuntime} (z : Z) :
  month_to_number (PInt z) = Ok z
  ∧ ∀ year, (∃ d, first_of_month year z = Ok d) ↔ (1 ≤ year ≤ 9999 ∧ 1 ≤ z ≤ 12).
Proof.
  split; [reflexivity | intros year; apply first_of_month_ok].
Qed.

(** ** Scope of the rows emitted by the adapters *)

Section AdapterScope.
Context `{RT : PyRuntime}.

Lemma year_in_scope_bounds (year : Z) :
  _year_in_scope year = true ↔ 1958 ≤ year ≤ 2025.
Proof. unfold _year_in_scope, ACCEPTED_YEARS. lia. Qed.

Lemma normalized_row_in_scope ia ra y m v src s c rc rt xs ys r :
  _normalized_row ia ra y m v src s c rc rt xs ys = Ok r → in_scope r.
Proof.
  unfold _normalized_row, in_scope.
  destruct (_year_in_scope y) eqn:Hy; simpl; [|discriminate].
  intros [= <-]. exact Hy.
Qed.

Lemma row_loop_Forall {A B} (step : A → row_outcome B) (P : B → Prop) rows out :
  (∀ a b, step a = Emit b → P b) →
  row_loop step rows = Ok out → Forall P out.
Proof.
  intros Hstep. revert out.
  induction rows as [|a rows IH]; intros out; simpl.
  - intros [= <-]. constructor.
  - destruct (step a) as [b| |e] eqn:Ha; [| by apply IH | discriminate].
    destruct (row_loop step rows) as [rest|e]; simpl; [|discriminate].
    intros [= <-]. constructor; eauto.
Qed.

Ltac adapter_step :=
  repeat match goal with
    | H : context [mbind _ ?r] |- _ => destruct r eqn:?; simpl in H
    | H : context [if ?b then _ else _] |- _ => destruct b eqn:?; simpl in H
    | H : context [let '(_, _) := ?p in _] |- _ => destruct p eqn:?; simpl in H
    | H : context [match ?r with Ok _ => _ | Raise _ => _ end] |- _ =>
        destruct r eqn:?; simpl in H
    | H : Ok _ = Ok _ |- _ => injection H as H
    | H : Emit _ = Emit _ |- _ => injection H as H
    | _ => discriminate
    end.

Lemma parse_mospi_annex_row_scope entry r :
  parse_mospi_annex_row entry = Emit r → in_scope r.
Proof.
  unfold parse_mospi_annex_row, continue_on_value_error. intros H.
  adapter_step; subst; eauto using normalized_row_in_scope.
Qed.

Lemma parse_datagov_row_scope row r :
  parse_datagov_row row = Emit r → in_scope r.
Proof.
  unfold parse_datagov_row, continue_on_value_error. intros H.
  adapter_step; subst; eauto using normalized_row_in_scope.
Qed.

Lemma parse_dpiit_row_scope row r :
  parse_dpiit_row row = Emit r → in_scope r.
Proof.
  unfold parse_dpiit_row, continue_on_value_error. intros H.
  adapter_step; subst; eauto using normalized_row_in_scope.
Qed.

Lemma parse_imf_entry_dated_scope entry yv mv r :
  parse_imf_entry_dated entry yv mv = Emit r → in_scope r.
Proof.
  unfold parse_imf_entry_dated. intros H.
  adapter_step; subst; eauto using normalized_row_in_scope.
Qed.

Lemma parse_imf_entry_scope entry r :
  parse_imf_entry entry = Emit r → in_scope r.
Proof.
  unfold parse_imf_entry. intros H.
  repeat case_match; try discriminate; eauto using parse_imf_entry_dated_scope.
Qed.

Lemma parse_mospi_annex_scope frame_rows out :
  parse_mospi_annex frame_rows = Ok out → Forall in_scope out.
Proof.
  unfold parse_mospi_annex. destruct (parse_annex frame_rows); simpl; [|done].
  apply row_loop_Forall, parse_mospi_annex_row_scope.
Qed.

Lemma parse_datagov_resource_scope frame_rows out :
  parse_datagov_resource frame_rows = Ok out → Forall in_scope out.
Proof. apply row_loop_Forall, parse_datagov_row_scope. Qed.

Lemma parse_imf_series_scope series out :
  parse_imf_series series = Ok out → Forall in_scope out.
Proof. apply row_loop_Forall, parse_imf_entry_scope. Qed.

Lemma parse_dpiit_resource_scope frame_rows out :
  parse_dpiit_resource frame_rows = Ok out → Forall in_scope out.
Proof. apply row_loop_Forall, parse_dpiit_row_scope. Qed.

End AdapterScope.

(** ** How the resolver changes its state and the store *)

Section ResolverEffects.
Context `{RT : PyRuntime}.

Implicit Types (dm : DimensionManager) (alias : string).

Lemma ensure_item_cases alias dm :
  (∃ r, (item_by_token dm (_normalize_alias alias) = Some r
         ∨ (item_by_token dm (_normalize_alias alias) = None
            ∧ item_by_token dm (_normalize_alias (slugify alias)) = Some r))
        ∧ ensure_item alias dm = (_append_item_alias_if_needed r alias dm, item_id r))
  ∨ (item_by_token dm (_normalize_alias alias) = None
     ∧ item_by_token dm (_normalize_alias (slugify alias)) = None
     ∧ ensure_item alias dm = create_item alias (slugify alias) dm).
Proof.
  unfold ensure_item.
  destruct (item_by_token dm (_normalize_alias alias)) as [r|] eqn:H1.
  - left. exists r. eauto.
  - destruct (item_by_token dm (_normalize_alias (slugify alias))) as [r|] eqn:H2.
    + left. exists r. eauto.
    + right. eauto.
Qed.

Lemma append_cases r alias dm :
  (_normalize_alias alias ∈ (_normalize_alias <$> item_aliases r)
   ∧ _append_item_alias_if_needed r alias dm = dm)
  ∨ ((_normalize_alias alias ∉ (_normalize_alias <$> item_aliases r))
     ∧ _append_item_alias_if_needed r alias dm =
         _register_item_alias (with_aliases r (item_aliases r ++ [alias])) alias
           (set_dm_item (with_aliases r (item_aliases r ++ [alias]))
              (dm_execute (set_item_aliases (item_id r) (item_aliases r ++ [alias])) dm))).
Proof.
  unfold _append_item_alias_if_needed.
  case_bool_decide; [left | right]; eauto.
Qed.

(** The store after an operation of the resolver. *)
Lemma append_db r alias dm :
  dm_db (_append_item_alias_if_needed r alias dm) = dm_db dm
  ∨ dm_db (_append_item_alias_if_needed r alias dm) =
      set_item_aliases (item_id r) (item_aliases r ++ [alias]) (dm_db dm).
Proof.
  destruct (append_cases r alias dm) as [[_ ->]|[_ ->]]; [left | right]; done.
Qed.

Lemma create_item_db alias cand dm :
  dm_db (create_item alias cand dm).1 =
    insert_item {| item_id := next_id (item_id <$> items_table (dm_db dm));
                   item_slug := _unique_item_slug dm cand;
                   item_canonical_name := alias;
                   item_aliases := [alias] |} (dm_db dm).
Proof. reflexivity. Qed.

Lemma create_region_db alias dm :
  dm_db (create_region alias dm).1 =
    insert_region {| region_id := next_id (region_id <$> regions_table (dm_db dm));
                     region_code := _unique_region_code dm (slugify alias);
                     region_name := alias;
                     region_type := "unknown" |} (dm_db dm).
Proof. reflexivity. Qed.

Lemma ensure_region_cases alias dm :
  (∃ r, region_by_token dm (_normalize_alias alias) = Some r
        ∧ ensure_region alias dm = (dm, region_id r))
  ∨ (region_by_token dm (_normalize_alias alias) = None
     ∧ ensure_region alias dm = create_region alias dm).
Proof.
  unfold ensure_region.
  destruct (region_by_token dm (_normalize_alias alias)) as [r|]; eauto.
Qed.

Lemma ensure_item_frame alias dm :
  same_but_items (dm_db dm) (dm_db (ensure_item alias dm).1).
Proof.
  destruct (ensure_item_cases alias dm) as [(r & _ & ->)|(_ & _ & ->)].
  - simpl. destruct (append_db r alias dm) as [-> | ->]; by repeat split.
  - rewrite create_item_db. by repeat split.
Qed.

Lemma ensure_region_frame alias dm :
  same_but_regions (dm_db dm) (dm_db (ensure_region alias dm).1).
Proof.
  destruct (ensure_region_cases alias dm) as [(r & _ & ->)|(_ & ->)].
  - by repeat split.
  - rewrite create_region_db. by repeat split.
Qed.

Lemma ensure_region_item_state alias dm :
  dm_items (ensure_region alias dm).1 = dm_items dm
  ∧ item_alias_index (ensure_region alias dm).1 = item_alias_index dm
  ∧ slug_index (ensure_region alias dm).1 = slug_index dm.
Proof.
  destruct (ensure_region_cases alias dm) as [(r & _ & ->)|(_ & ->)]; done.
Qed.

Lemma load_items_conn dm :
  dm_conn (_load_items dm) = conn_execute id (dm_conn dm).
Proof.
  unfold _load_items.
  generalize (items_table (conn_db (dm_conn (dm_execute id dm)))).
  assert (Hstart : dm_conn (dm_execute id dm) = conn_execute id (dm_conn dm)) by done.
  revert Hstart. generalize (dm_execute id dm) as dm0.
  intros dm0 Hstart rows. revert dm0 Hstart.
  induction rows as [|row rows IH]; intros dm0 Hstart; simpl; [done|].
  apply IH.
  generalize (item_aliases row) as aliases.
  intros aliases.
  set (dm1 := _register_item_alias row (item_canonical_name row) _).
  assert (H1 : dm_conn dm1 = conn_execute id (dm_conn dm)) by done.
  clearbody dm1. revert dm1 H1.
  induction aliases as [|a aliases IHa]; intros dm1 H1; simpl; [done|].
  by apply IHa.
Qed.

Lemma load_regions_conn dm :
  dm_conn (_load_regions dm) = conn_execute id (dm_conn dm).
Proof.
  unfold _load_regions.
  generalize (regions_table (conn_db (dm_conn (dm_execute id dm)))).
  assert (Hstart : dm_conn (dm_execute id dm) = conn_execute id (dm_conn dm)) by done.
  revert Hstart. generalize (dm_execute id dm) as dm0.
  intros dm0 Hstart rows. revert dm0 Hstart.
  induction rows as [|row rows IH]; intros dm0 Hstart; simpl; [done|].
  by apply IH.
Qed.

Lemma new_DimensionManager_db conn :
  dm_db (new_DimensionManager conn) = conn_db conn.
Proof.
  unfold dm_db, new_DimensionManager.
  rewrite load_regions_conn, load_items_conn. done.
Qed.

Lemma new_DimensionManager_statements conn :
  conn_statements (dm_conn (new_DimensionManager conn)) = S (S (conn_statements conn)).
Proof.
  unfold new_DimensionManager.
  rewrite load_regions_conn, load_items_conn. done.
Qed.

End ResolverEffects.

(** ** The disambiguation loop *)

Section UniqueLoop.

Lemma append_length (s t : string) :
  String.length (s +:+ t) = (String.length s + String.length t)%nat.
Proof. induction s as [|c s IH]; simpl; [done | by rewrite IH]. Qed.

Lemma append_inj_r (s t u : string) : s +:+ t = s +:+ u → t = u.
Proof. induction s as [|c s IH]; simpl; [done | intros [= H]; auto]. Qed.

Lemma candidate_inj slug j k :
  (1 ≤ j)%nat → (1 ≤ k)%nat → candidate slug j = candidate slug k → j = k.
Proof.
  unfold candidate. intros Hj Hk.
  destruct (decide (j = 1%nat)) as [->|Hj1], (decide (k = 1%nat)) as [->|Hk1];
    try done.
  - intros H. apply (f_equal String.length) in H.
    rewrite append_length in H. simpl in H. lia.
  - intros H. apply (f_equal String.length) in H.
    rewrite append_length in H. simpl in H. lia.
  - intros H. do 2 apply append_inj_r in H.
    by apply (inj (pretty (A:=nat))) in H.
Qed.

Lemma candidates_NoDup slug n :
  NoDup (candidate slug <$> seq 1 n).
Proof.
  apply NoDup_fmap_2_strong; [|apply NoDup_seq].
  intros j k Hj%elem_of_seq Hk%elem_of_seq. apply candidate_inj; lia.
Qed.

(** Pigeonhole: an index cannot hold more candidates than it has keys. *)
Lemma candidates_bound (index : gmap string Z) slug n :
  (∀ j, (1 ≤ j ≤ n)%nat → is_Some (index !! candidate slug j)) →
  (n ≤ size index)%nat.
Proof.
  intros Hall.
  assert (Hsub : list_to_set (C:=gset string) (candidate slug <$> seq 1 n)
                 ⊆ dom index).
  { intros c Hc.
    apply elem_of_list_to_set, list_elem_of_fmap in Hc as (j & -> & Hj%elem_of_seq).
    apply elem_of_dom, Hall. lia. }
  apply subseteq_size in Hsub.
  rewrite size_list_to_set in Hsub by apply candidates_NoDup.
  by rewrite length_fmap, length_seq, size_dom in Hsub.
Qed.

Lemma unique_loop_spec fuel (index : gmap string Z) slug counter :
  (1 ≤ counter)%nat →
  (∀ j, (1 ≤ j < counter)%nat → is_Some (index !! candidate slug j)) →
  (size index ≤ fuel + (counter - 1))%nat →
  ∃ k, (counter ≤ k)%nat
       ∧ unique_loop fuel index slug (candidate slug counter) counter = candidate slug k
       ∧ index !! candidate slug k = None
       ∧ ∀ j, (counter ≤ j < k)%nat → is_Some (index !! candidate slug j).
Proof.
  revert counter.
  induction fuel as [|fuel IH]; intros counter Hc Hseen Hsize; simpl.
  - case_bool_decide as Htaken.
    + exfalso.
      assert (counter ≤ size index)%nat; [|lia].
      apply (candidates_bound index slug). intros j Hj.
      destruct (decide (j = counter)) as [->|]; [done|]. apply Hseen. lia.
    + exists counter. split_and!; [lia | done | | intros; lia].
      by apply eq_None_not_Some.
  - case_bool_decide as Htaken.
    + assert (Hnext : slug +:+ "-" +:+ pretty (S counter) = candidate slug (S counter)).
      { unfold candidate. case_decide; [lia | done]. }
      rewrite Hnext.
      destruct (IH (S counter)) as (k & Hk & Heq & Hfree & Hbetween).
      * lia.
      * intros j Hj. destruct (decide (j = counter)) as [->|]; [done|].
        apply Hseen. lia.
      * lia.
      * exists k. split_and!; [lia | done | done |].
        intros j Hj. destruct (decide (j = counter)) as [->|]; [done|].
        apply Hbetween. lia.
    + exists counter. split_and!; [lia | done | | intros; lia].
      by apply eq_None_not_Some.
Qed.

(** The loop of [_unique_item_slug] and [_unique_region_code] returns the
    first candidate that is not a key of the index. *)
Lemma unique_loop_fresh (index : gmap string Z) slug :
  ∃ k, (1 ≤ k)%nat
       ∧ unique_loop (size index) index slug slug 1 = candidate slug k
       ∧ index !! candidate slug k = None
       ∧ ∀ j, (1 ≤ j < k)%nat → is_Some (index !! candidate slug j).
Proof.
  change slug with (candidate slug 1) at 2.
  apply unique_loop_spec; [lia | intros; lia | lia].
Qed.

End UniqueLoop.

(** ** Region resolution *)

Section RegionResolution.
Context `{RT : PyRuntime}.

Lemma unique_region_code_fresh dm base :
  region_code_index dm !! _unique_region_code dm base = None.
Proof.
  unfold _unique_region_code.
  destruct (unique_loop_fresh (region_code_index dm) (Str.or_else base "region"))
    as (k & _ & -> & Hfree & _).
  exact Hfree.
Qed.

(** C5, amended: [ensure_region] is keyed by code.  On a match of the
    alias token it returns the id of the matched region and changes
    neither the resolver nor the store: the raw alias is not registered.
    On a miss it inserts a region whose code is the disambiguated slug of
    the alias, a code absent from the code index, whose name is the alias
    and whose type is the constant "unknown", and registers the tokens
    of the code and of the alias for it; the items are untouched. *)
Theorem ensure_region_behaviour (alias : string) (dm : DimensionManager) :
  match region_by_token dm (_normalize_alias alias) with
  | Some r => ensure_region alias dm = (dm, region_id r)
  | None =>
      let '(dm', id) := ensure_region alias dm in
      let code := _unique_region_code dm (slugify alias) in
      id = next_id (region_id <$> regions_table (dm_db dm))
      ∧ regions_table (dm_db dm') =
          regions_table (dm_db dm) ++
            [{| region_id := id; region_code := code;
                region_name := alias; region_type := "unknown" |}]
      ∧ region_code_index dm !! code = None
      ∧ region_code_index dm' = <[code := id]> (region_code_index dm)
      ∧ region_alias_index dm' =
          <[_normalize_alias alias := id]>
            (<[_normalize_alias code := id]> (region_alias_index dm))
      ∧ items_table (dm_db dm') = items_table (dm_db dm)
      ∧ conn_statements (dm_conn dm') = S (conn_statements (dm_conn dm))
  end.
Proof.
  unfold ensure_region.
  destruct (region_by_token dm (_normalize_alias alias)) as [r|]; [done|].
  simpl. split_and!; try done. apply unique_region_code_fresh.
Qed.

End RegionResolution.

Section RegionExamples.
Local Existing Instance example_runtime.

(** C5 as stated fails.  Resolving the new alias "Delhi (Urban)" stores a
    region of type "unknown" although the alias infers to "urban".
    Resolving "DELHI", which matches the stored region "Delhi", changes
    nothing, whereas resolving "RICE", which matches the stored item
    "Rice", records the raw alias in the alias list of the item. *)
Lemma ensure_region_not_symmetric :
  let dm1 := (ensure_region "Delhi (Urban)" seeded_manager).1 in
  let dm2 := (ensure_region "DELHI" seeded_manager).1 in
  let im2 := (ensure_item "RICE" seeded_manager).1 in
  regions_table (dm_db dm1) =
    regions_table seeded_database ++
    [{| region_id := 2; region_code := "delhi-urban";
        region_name := "Delhi (Urban)"; region_type := "unknown" |}]
  ∧ _infer_region_type "Delhi (Urban)" = "urban"
  ∧ (ensure_region "DELHI" seeded_manager).2 = 1
  ∧ dm2 = seeded_manager
  ∧ (ensure_item "RICE" seeded_manager).2 = 1
  ∧ item_aliases <$> items_table (dm_db im2) = [["RICE"]].
Proof. vm_compute. split_and!; reflexivity. Qed.

End RegionExamples.

(** ** Slug disambiguation *)

Section SlugDisambiguation.
Context `{RT : PyRuntime}.

Implicit Types (dm : DimensionManager).

Lemma unique_item_slug_spec dm base :
  ∃ k, (1 ≤ k)%nat
       ∧ _unique_item_slug dm base = candidate (Str.or_else base "item") k
       ∧ slug_index dm !! candidate (Str.or_else base "item") k = None
       ∧ ∀ j, (1 ≤ j < k)%nat →
              is_Some (slug_index dm !! candidate (Str.or_else base "item") j).
Proof. apply unique_loop_fresh. Qed.

Lemma set_item_aliases_slugs id aliases db :
  item_slug <$> items_table (set_item_aliases id aliases db) = item_slug <$> items_table db.
Proof.
  simpl. rewrite <-list_fmap_compose. apply list_fmap_ext.
  intros i r _. simpl. by case_decide.
Qed.

Lemma ensure_item_slugs alias dm :
  let dm1 := (ensure_item alias dm).1 in
  let slug := _unique_item_slug dm (slugify alias) in
  (stored_slugs dm1 = stored_slugs dm ∧ slug_index dm1 = slug_index dm)
  ∨ (stored_slugs dm1 = stored_slugs dm ++ [slug]
     ∧ slug_index dm1 = <[slug := (ensure_item alias dm).2]> (slug_index dm)).
Proof.
  unfold stored_slugs.
  destruct (ensure_item_cases alias dm) as [(r & _ & ->)|(_ & _ & ->)]; simpl.
  - left. destruct (append_cases r alias dm) as [[_ ->]|[_ ->]]; [done|].
    split; [|done]. apply set_item_aliases_slugs.
  - right. split; [|done]. unfold dm_db; simpl. by rewrite fmap_app.
Qed.

Lemma resolve_items_cons label labels dm :
  resolve_items (label :: labels) dm = resolve_items labels (ensure_item label dm).1.
Proof. reflexivity. Qed.

Lemma resolve_items_growth labels dm :
  (length (stored_slugs (resolve_items labels dm))
   ≤ length (stored_slugs dm) + length labels)%nat.
Proof.
  revert dm. induction labels as [|l ls IH]; intros dm; simpl; [lia|].
  fold (resolve_items ls (ensure_item l dm).1).
  specialize (IH (ensure_item l dm).1).
  destruct (ensure_item_slugs l dm) as [[Hs _]|[Hs _]]; rewrite Hs in IH;
    rewrite ?length_app in IH; simpl in IH; lia.
Qed.

(** The general step: when exactly the first [m] candidates of the family
    are keys of the slug index, [n] fresh resolutions of labels of the
    family take the candidates [m+1 .. m+n], in order. *)
Lemma resolve_family labels c dm :
  Forall (λ label, slugify label = c) labels →
  slugs_indexed dm →
  NoDup (stored_slugs dm) →
  length (stored_slugs (resolve_items labels dm))
    = (length (stored_slugs dm) + length labels)%nat →
  let base := Str.or_else c "item" in
  ∃ new_slugs,
    stored_slugs (resolve_items labels dm) = stored_slugs dm ++ new_slugs
    ∧ length new_slugs = length labels
    ∧ NoDup (stored_slugs (resolve_items labels dm))
    ∧ Forall (λ s, ∃ k, (1 ≤ k)%nat ∧ s = candidate base k) new_slugs
    ∧ ∀ m, (∀ k, (1 ≤ k)%nat →
                 is_Some (slug_index dm !! candidate base k) ↔ (k ≤ m)%nat) →
           new_slugs = candidate base <$> seq (S m) (length labels).
Proof.
  intros Hfam. revert dm.
  induction Hfam as [|l ls Hl Hls IH]; intros dm Hidx Hnd Hlen base.
  - exists []. simpl. rewrite app_nil_r. split_and!; try done.
  - rewrite resolve_items_cons in *.
    pose proof (resolve_items_growth ls (ensure_item l dm).1) as Hgrow.
    destruct (unique_item_slug_spec dm (slugify l)) as (k1 & Hk1 & Hs1 & Hfree1 & Hbelow1).
    rewrite Hl in Hs1, Hfree1, Hbelow1. fold base in Hs1, Hfree1, Hbelow1.
    destruct (ensure_item_slugs l dm) as [[Hs _]|[Hs Hi]].
    { rewrite Hs in Hgrow. simpl in Hlen. lia. }
    rewrite Hl in Hs, Hi. rewrite Hs1 in Hs, Hi.
    set (dm1 := (ensure_item l dm).1) in *.
    assert (Hfresh : candidate base k1 ∉ stored_slugs dm).
    { intros Hin. apply Hidx in Hin. rewrite Hfree1 in Hin. by destruct Hin. }
    destruct (IH dm1) as (new & Hnew & Hnlen & Hnd' & Hform & Hexact).
    + intros s. rewrite Hs, Hi. intros [Hin| ->%list_elem_of_singleton]%elem_of_app.
      * destruct (decide (s = candidate base k1)) as [->|Hne].
        -- rewrite lookup_insert_eq. eauto.
        -- rewrite lookup_insert_ne by done. by apply Hidx.
      * rewrite lookup_insert_eq. eauto.
    + rewrite Hs. apply NoDup_app. split_and!; [done | | apply NoDup_singleton].
      intros s Hin ->%list_elem_of_singleton. done.
    + rewrite Hs, length_app in *. simpl in *. lia.
    + exists (candidate base k1 :: new).
      rewrite Hnew, Hs, <-app_assoc. simpl.
      split_and!; [done | by rewrite Hnlen | by rewrite Hnew, Hs, <-app_assoc in Hnd'
                   | constructor; eauto |].
      intros m Hm.
      assert (k1 = S m) as ->.
      { destruct (decide (k1 ≤ m)%nat) as [Hle|Hgt].
        - apply Hm in Hle; [|done]. rewrite Hfree1 in Hle. by destruct Hle.
        - destruct (decide (k1 = S m)) as [|Hne]; [done|].
          assert (is_Some (slug_index dm !! candidate base (S m))) as Hsm
            by (apply Hbelow1; lia).
          apply Hm in Hsm; lia. }
      f_equal. apply (Hexact (S m)). intros k Hk. rewrite Hi.
      destruct (decide (k = S m)) as [->|Hne].
      * rewrite lookup_insert_eq. split; [lia | eauto].
      * rewrite lookup_insert_ne
          by (intros Heq; apply candidate_inj in Heq; lia).
        split; [intros Hsome%Hm; [lia | done] | intros Hle; apply Hm; [done | lia]].
Qed.

End SlugDisambiguation.

(** ** Alias convergence *)

Section AliasConvergence.
Context `{RT : PyRuntime}.

Implicit Types (dm : DimensionManager) (alias : string).

Lemma item_inv_ext dm dm' :
  dm_items dm' = dm_items dm → item_alias_index dm' = item_alias_index dm →
  item_inv dm → item_inv dm'.
Proof. unfold item_inv. intros -> ->. done. Qed.

Lemma item_by_token_Some dm t r :
  item_by_token dm t = Some r ↔
  ∃ id, item_alias_index dm !! t = Some id ∧ dm_items dm !! id = Some r.
Proof.
  unfold item_by_token. destruct (item_alias_index dm !! t) as [id|]; simpl.
  - split; [eauto | by intros (? & [= <-] & ?)].
  - split; [done | by intros (? & ? & ?)].
Qed.

Lemma item_by_token_indexed dm t :
  item_inv dm → is_Some (item_alias_index dm !! t) → is_Some (item_by_token dm t).
Proof.
  intros (H1 & _ & _) [id Hid]. destruct (H1 _ _ Hid) as [r Hr].
  exists r. apply item_by_token_Some. eauto.
Qed.

(** Registering the aliases of a record, as the loader does. *)
Lemma register_fold_state (record : item_row) aliases dm :
  let dm' := foldl (λ dm a, _register_item_alias record a dm) dm aliases in
  dm_items dm' = dm_items dm
  ∧ dm_regions dm' = dm_regions dm
  ∧ region_alias_index dm' = region_alias_index dm
  ∧ (∀ t, is_Some (item_alias_index dm !! t) → is_Some (item_alias_index dm' !! t))
  ∧ (∀ a, a ∈ aliases → is_Some (item_alias_index dm' !! _normalize_alias a))
  ∧ (∀ t id, item_alias_index dm' !! t = Some id →
             item_alias_index dm !! t = Some id ∨ id = item_id record).
Proof.
  revert dm. induction aliases as [|a aliases IH]; intros dm; simpl.
  - split_and!; try done; [intros a Ha; inversion Ha | eauto].
  - destruct (IH (_register_item_alias record a dm)) as (Hi & Hr & Hri & Hkeep & Hall & Hval).
    simpl in *. split_and!; try done.
    + intros t Ht. apply Hkeep.
      destruct (decide (t = _normalize_alias a)) as [->|Hne].
      * rewrite lookup_insert_eq. eauto.
      * by rewrite lookup_insert_ne.
    + intros b [->|Hb]%elem_of_cons; [|by apply Hall].
      apply Hkeep. rewrite lookup_insert_eq. eauto.
    + intros t id Hid. destruct (Hval _ _ Hid) as [Hold|Hnew]; [|by right].
      destruct (decide (t = _normalize_alias a)) as [->|Hne].
      * rewrite lookup_insert_eq in Hold. injection Hold as <-. by right.
      * rewrite lookup_insert_ne in Hold by done. by left.
Qed.

Lemma load_item_step_inv dm row :
  item_inv dm →
  item_inv (foldl (λ dm a, _register_item_alias row a dm)
              (_register_item_alias row (item_canonical_name row)
                 (_register_item_alias row (item_slug row)
                    (set_slug_index (item_slug row) row (set_dm_item row dm))))
              (item_aliases row)).
Proof.
  intros (H1 & H2 & H3).
  set (dm0 := _register_item_alias row (item_canonical_name row) _).
  destruct (register_fold_state row (item_aliases row) dm0)
    as (Hi & _ & _ & Hkeep & Hall & Hval).
  assert (Hkeep0 : ∀ t, is_Some (item_alias_index dm !! t) →
                        is_Some (item_alias_index dm0 !! t)).
  { intros t Ht. unfold dm0. simpl.
    destruct (decide (t = _normalize_alias (item_canonical_name row))) as [->|?];
      [rewrite lookup_insert_eq; eauto | rewrite lookup_insert_ne by done].
    destruct (decide (t = _normalize_alias (item_slug row))) as [->|?];
      [rewrite lookup_insert_eq; eauto | by rewrite lookup_insert_ne]. }
  assert (Hval0 : ∀ t id, item_alias_index dm0 !! t = Some id →
                          item_alias_index dm !! t = Some id ∨ id = item_id row).
  { intros t id. unfold dm0. simpl.
    destruct (decide (t = _normalize_alias (item_canonical_name row))) as [->|?];
      [rewrite lookup_insert_eq; intros [= <-]; by right
      | rewrite lookup_insert_ne by done].
    destruct (decide (t = _normalize_alias (item_slug row))) as [->|?];
      [rewrite lookup_insert_eq; intros [= <-]; by right
      | rewrite lookup_insert_ne by done; eauto]. }
  split_and!.
  - intros t id Hid. rewrite Hi. unfold dm0. simpl.
    destruct (Hval _ _ Hid) as [Hold| ->].
    + destruct (Hval0 _ _ Hold) as [Hold'| ->].
      * destruct (H1 _ _ Hold') as [r Hr].
        destruct (decide (id = item_id row)) as [->|?];
          [rewrite lookup_insert_eq | rewrite lookup_insert_ne by done]; eauto.
      * rewrite lookup_insert_eq. eauto.
    + rewrite lookup_insert_eq. eauto.
  - intros id r. rewrite Hi. unfold dm0. simpl.
    destruct (decide (id = item_id row)) as [->|?].
    + rewrite lookup_insert_eq. by intros [= <-].
    + rewrite lookup_insert_ne by done. apply H2.
  - intros id r a. rewrite Hi. unfold dm0 at 1. simpl.
    destruct (decide (id = item_id row)) as [->|?].
    + rewrite lookup_insert_eq. intros [= <-] Ha. by apply Hall.
    + rewrite lookup_insert_ne by done. intros Hr Ha.
      apply Hkeep, Hkeep0. eauto.
Qed.

Lemma load_items_inv dm : item_inv dm → item_inv (_load_items dm).
Proof.
  unfold _load_items.
  generalize (items_table (conn_db (dm_conn (dm_execute id dm)))).
  intros rows Hinv.
  assert (Hstart : item_inv (dm_execute id dm)) by (eapply item_inv_ext; [| |exact Hinv]; done).
  revert Hstart. generalize (dm_execute id dm). clear dm Hinv.
  induction rows as [|row rows IH]; intros dm Hinv; simpl; [done|].
  apply IH. by apply load_item_step_inv.
Qed.

Lemma load_regions_item_state dm :
  dm_items (_load_regions dm) = dm_items dm
  ∧ item_alias_index (_load_regions dm) = item_alias_index dm
  ∧ slug_index (_load_regions dm) = slug_index dm.
Proof.
  unfold _load_regions.
  generalize (regions_table (conn_db (dm_conn (dm_execute id dm)))).
  assert (Hs : dm_items (dm_execute id dm) = dm_items dm
               ∧ item_alias_index (dm_execute id dm) = item_alias_index dm
               ∧ slug_index (dm_execute id dm) = slug_index dm) by done.
  revert Hs. generalize (dm_execute id dm) as dm0.
  intros dm0 Hs rows. revert dm0 Hs.
  induction rows as [|row rows IH]; intros dm0 Hs; simpl; [done|].
  by apply IH.
Qed.

Lemma new_DimensionManager_inv conn : item_inv (new_DimensionManager conn).
Proof.
  unfold new_DimensionManager.
  destruct (load_regions_item_state (_load_items
    {| dm_conn := conn; dm_items := ∅; item_alias_index := ∅; slug_index := ∅;
       dm_regions := ∅; region_alias_index := ∅; region_code_index := ∅ |}))
    as (Hi & Ha & _).
  eapply item_inv_ext; [exact Hi | exact Ha |].
  apply load_items_inv. split_and!; simpl; intros *; by rewrite lookup_empty.
Qed.

Lemma append_inv r alias dm :
  item_inv dm → dm_items dm !! item_id r = Some r →
  item_inv (_append_item_alias_if_needed r alias dm).
Proof.
  intros (H1 & H2 & H3) Hr.
  destruct (append_cases r alias dm) as [[_ ->]|[_ ->]]; [done|].
  split_and!; simpl.
  - intros t id.
    destruct (decide (t = _normalize_alias alias)) as [->|?].
    + rewrite lookup_insert_eq. intros [= <-]. rewrite lookup_insert_eq. eauto.
    + rewrite lookup_insert_ne by done. intros Hid.
      destruct (H1 _ _ Hid) as [r' Hr'].
      destruct (decide (id = item_id r)) as [->|?];
        [rewrite lookup_insert_eq | rewrite lookup_insert_ne by done]; eauto.
  - intros id r'. destruct (decide (id = item_id r)) as [->|?].
    + rewrite lookup_insert_eq. by intros [= <-].
    + rewrite lookup_insert_ne by done. apply H2.
  - intros id r' a.
    assert (Hkeep : ∀ t, is_Some (item_alias_index dm !! t) →
              is_Some (<[_normalize_alias alias := item_id r]> (item_alias_index dm) !! t)).
    { intros t Ht. destruct (decide (t = _normalize_alias alias)) as [->|?];
        [rewrite lookup_insert_eq; eauto | by rewrite lookup_insert_ne]. }
    destruct (decide (id = item_id r)) as [->|?].
    + rewrite lookup_insert_eq. intros [= <-]. simpl.
      intros [Ha| ->%list_elem_of_singleton]%elem_of_app.
      * apply Hkeep. eauto.
      * rewrite lookup_insert_eq. eauto.
    + rewrite lookup_insert_ne by done. intros Hr' Ha. apply Hkeep. eauto.
Qed.

Lemma create_item_inv alias cand dm :
  item_inv dm → item_inv (create_item alias cand dm).1.
Proof.
  intros (H1 & H2 & H3). unfold create_item. simpl.
  set (new_id := next_id _). set (slug := _unique_item_slug dm cand).
  split_and!; simpl.
  - intros t id.
    destruct (decide (t = _normalize_alias alias)) as [->|?];
      [rewrite lookup_insert_eq; intros [= <-]; rewrite lookup_insert_eq; eauto
      | rewrite lookup_insert_ne by done].
    destruct (decide (t = _normalize_alias slug)) as [->|?];
      [rewrite lookup_insert_eq; intros [= <-]; rewrite lookup_insert_eq; eauto
      | rewrite lookup_insert_ne by done].
    intros Hid. destruct (H1 _ _ Hid) as [r' Hr'].
    destruct (decide (id = new_id)) as [->|?];
      [rewrite lookup_insert_eq | rewrite lookup_insert_ne by done]; eauto.
  - intros id r'. destruct (decide (id = new_id)) as [->|?].
    + rewrite lookup_insert_eq. by intros [= <-].
    + rewrite lookup_insert_ne by done. apply H2.
  - intros id r' a.
    assert (Hkeep : ∀ t, is_Some (item_alias_index dm !! t) →
              is_Some (<[_normalize_alias alias := new_id]>
                         (<[_normalize_alias slug := new_id]> (item_alias_index dm)) !! t)).
    { intros t Ht.
      destruct (decide (t = _normalize_alias alias)) as [->|?];
        [rewrite lookup_insert_eq; eauto | rewrite lookup_insert_ne by done].
      destruct (decide (t = _normalize_alias slug)) as [->|?];
        [rewrite lookup_insert_eq; eauto | by rewrite lookup_insert_ne]. }
    destruct (decide (id = new_id)) as [->|?].
    + rewrite lookup_insert_eq. intros [= <-]. simpl.
      intros ->%list_elem_of_singleton. rewrite lookup_insert_eq. eauto.
    + rewrite lookup_insert_ne by done. intros Hr' Ha. apply Hkeep. eauto.
Qed.

Lemma item_by_token_stored dm t r :
  item_inv dm → item_by_token dm t = Some r → dm_items dm !! item_id r = Some r.
Proof.
  intros (_ & H2 & _) (id & _ & Hr)%item_by_token_Some.
  by rewrite (H2 _ _ Hr).
Qed.

Lemma ensure_item_inv alias dm : item_inv dm → item_inv (ensure_item alias dm).1.
Proof.
  intros Hinv.
  destruct (ensure_item_cases alias dm) as [(r & Hfound & ->)|(_ & _ & ->)].
  - simpl. apply append_inv; [done|].
    destruct Hfound as [H|[_ H]]; by eapply item_by_token_stored.
  - by apply create_item_inv.
Qed.

Lemma run_call_inv c dm : item_inv dm → item_inv (run_call c dm).
Proof.
  destruct c as [alias|alias]; simpl; [apply ensure_item_inv|].
  destruct (ensure_region_item_state alias dm) as (Hi & Ha & _).
  by apply item_inv_ext.
Qed.

Lemma run_calls_inv calls dm : item_inv dm → item_inv (run_calls calls dm).
Proof.
  revert dm. induction calls as [|c calls IH]; intros dm Hinv; simpl; [done|].
  by apply IH, run_call_inv.
Qed.

(** After a resolution the token of the alias refers to the returned item. *)
Lemma ensure_item_resolves alias dm :
  item_inv dm →
  ∃ r, item_by_token (ensure_item alias dm).1 (_normalize_alias alias) = Some r
       ∧ item_id r = (ensure_item alias dm).2.
Proof.
  intros Hinv.
  assert (Hupd : ∀ r, dm_items dm !! item_id r = Some r →
    (_normalize_alias alias ∉ (_normalize_alias <$> item_aliases r)) →
    ∃ r', item_by_token
            (_register_item_alias (with_aliases r (item_aliases r ++ [alias])) alias
               (set_dm_item (with_aliases r (item_aliases r ++ [alias]))
                  (dm_execute (set_item_aliases (item_id r) (item_aliases r ++ [alias])) dm)))
            (_normalize_alias alias) = Some r' ∧ item_id r' = item_id r).
  { intros r Hr _. exists (with_aliases r (item_aliases r ++ [alias])).
    split; [|reflexivity].
    apply item_by_token_Some. exists (item_id r). simpl.
    by rewrite !lookup_insert_eq. }
  destruct (ensure_item_cases alias dm) as [(r & Hfound & ->)|(_ & _ & ->)]; simpl.
  - destruct Hfound as [H|[Hnone H]].
    + destruct (append_cases r alias dm) as [[_ ->]|[Hnotin ->]]; [eauto|].
      apply Hupd; [by eapply item_by_token_stored | done].
    + pose proof (item_by_token_stored _ _ _ Hinv H) as Hr.
      destruct (append_cases r alias dm) as [[Hin _]|[Hnotin ->]].
      * exfalso. apply list_elem_of_fmap in Hin as (a & Ha & Hin).
        destruct Hinv as (H1 & H2 & H3).
        pose proof (H3 _ _ _ Hr Hin) as Hidx. rewrite <-Ha in Hidx.
        destruct (item_by_token_indexed dm _ (conj H1 (conj H2 H3)) Hidx) as [r' Hr'].
        congruence.
      * by apply Hupd.
  - eexists. split; [apply item_by_token_Some; eexists; simpl;
                     by rewrite !lookup_insert_eq | reflexivity].
Qed.

(** Resolving a known token returns the indexed item and inserts no record. *)
Lemma ensure_item_known alias dm r :
  item_by_token dm (_normalize_alias alias) = Some r →
  (ensure_item alias dm).2 = item_id r
  ∧ stored_item_ids (ensure_item alias dm).1 = stored_item_ids dm.
Proof.
  intros Hr. unfold ensure_item. rewrite Hr. simpl. split; [done|].
  unfold stored_item_ids.
  destruct (append_db r alias dm) as [-> | ->]; [done|].
  simpl. rewrite <-list_fmap_compose. apply list_fmap_ext.
  intros i x _. simpl. by case_decide.
Qed.

Lemma run_call_index_keys c dm t :
  is_Some (item_alias_index dm !! t) → is_Some (item_alias_index (run_call c dm) !! t).
Proof.
  intros Ht. destruct c as [alias|alias]; simpl.
  - assert (Hins : ∀ (m : gmap string Z) k v,
              is_Some (m !! t) → is_Some (<[k := v]> m !! t)).
    { intros m k v Hm. destruct (decide (t = k)) as [->|?];
        [rewrite lookup_insert_eq; eauto | by rewrite lookup_insert_ne]. }
    destruct (ensure_item_cases alias dm) as [(r & _ & ->)|(_ & _ & ->)]; simpl.
    + destruct (append_cases r alias dm) as [[_ ->]|[_ ->]]; [done|]. simpl. by apply Hins.
    + by apply Hins, Hins.
  - by destruct (ensure_region_item_state alias dm) as (_ & -> & _).
Qed.

Lemma run_calls_index_keys calls dm t :
  is_Some (item_alias_index dm !! t) → is_Some (item_alias_index (run_calls calls dm) !! t).
Proof.
  revert dm. induction calls as [|c calls IH]; intros dm Ht; simpl; [done|].
  by apply IH, run_call_index_keys.
Qed.

(** C2, amended to the normalisation the code applies: in every state that
    the resolver reaches from a store, two aliases with the same
    [_normalize_alias] token resolve, one after the other, to the same item
    id, the second resolution inserting no item record; and once an alias
    has been resolved, resolving an alias of the same token after any
    further resolver calls inserts no item record either. *)
Theorem alias_convergence (conn : connection) (calls later : list resolver_call)
    (a1 a2 : string) :
  _normalize_alias a1 = _normalize_alias a2 →
  let dm := run_calls calls (new_DimensionManager conn) in
  let dm1 := (ensure_item a1 dm).1 in
  let dm3 := run_calls later dm1 in
  (ensure_item a2 dm1).2 = (ensure_item a1 dm).2
  ∧ stored_item_ids (ensure_item a2 dm1).1 = stored_item_ids dm1
  ∧ stored_item_ids (ensure_item a2 dm3).1 = stored_item_ids dm3.
Proof.
  intros Htok dm dm1 dm3.
  assert (Hinv : item_inv dm) by apply run_calls_inv, new_DimensionManager_inv.
  assert (Hinv1 : item_inv dm1) by by apply ensure_item_inv.
  destruct (ensure_item_resolves a1 dm Hinv) as (r & Hr & Hid).
  fold dm1 in Hr. rewrite Htok in Hr.
  destruct (ensure_item_known a2 dm1 r Hr) as [Hid2 Hids2].
  split_and!; [congruence | done |].
  assert (Hinv3 : item_inv dm3) by by apply run_calls_inv.
  assert (Hkey : is_Some (item_alias_index dm3 !! _normalize_alias a2)).
  { apply run_calls_index_keys. apply item_by_token_Some in Hr as (id & -> & _). eauto. }
  destruct (item_by_token_indexed dm3 _ Hinv3 Hkey) as [r3 Hr3].
  by destruct (ensure_item_known a2 dm3 r3 Hr3).
Qed.

End AliasConvergence.

Section AliasExamples.
Local Existing Instance example_runtime.

(** C2 as stated fails: under the rule of the specification the aliases
    "Fuel & Light" and "Fuel/Light" have the same normalised token, but
    [slugify] deletes the punctuation instead of turning it into a hyphen,
    so the resolver creates two items for them. *)
Lemma spec_rule_aliases_diverge :
  let first := ensure_item "Fuel & Light" fresh_manager in
  let second := ensure_item "Fuel/Light" first.1 in
  spec_normalize "Fuel & Light" = spec_normalize "Fuel/Light"
  ∧ first.2 = 1 ∧ second.2 = 2
  ∧ item_slug <$> items_table (dm_db second.1) = ["fuel-light"; "fuellight"].
Proof. vm_compute. split_and!; reflexivity. Qed.

Lemma alias_convergence_witness :
  _normalize_alias "Rice" = _normalize_alias " RICE "
  ∧ (ensure_item " RICE " (ensure_item "Rice" fresh_manager).1).2
    = (ensure_item "Rice" fresh_manager).2.
Proof.
  assert (Htok : _normalize_alias "Rice" = _normalize_alias " RICE ") by reflexivity.
  split; [exact Htok|].
  destruct (alias_convergence {| conn_db := empty_database; conn_statements := 0 |}
              [] [ResolveRegion "All India"; ResolveItem "Milk"] "Rice" " RICE " Htok)
    as (Hsame & _ & _).
  exact Hsame.
Defined.

End AliasExamples.

(** ** Rows that fail coercion *)

Section RowCoercion.
Context `{RT : PyRuntime}.

Lemma row_loop_skip {A B} (step : A → row_outcome B) pre row post :
  step row = Skip →
  row_loop step (pre ++ row :: post) = row_loop step (pre ++ post).
Proof.
  intros Hskip. induction pre as [|a pre IH]; simpl; [by rewrite Hskip|].
  destruct (step a); [by rewrite IH | done | done].
Qed.

Lemma row_loop_abort {A B} (step : A → row_outcome B) pre row post e :
  step row = Abort e →
  ∃ e', row_loop step (pre ++ row :: post) = Raise e'.
Proof.
  intros Habort. induction pre as [|a pre IH]; simpl; [rewrite Habort; eauto|].
  destruct IH as [e' IH]. destruct (step a); [rewrite IH| |]; eauto.
Qed.

Lemma unsupported_month_raises v :
  unsupported_month v → ∃ msg, month_to_number v = Raise (ValueError msg).
Proof. intros (s & -> & Hs). unfold month_to_number. rewrite Hs. eauto. Qed.

Lemma unusable_number_raises v :
  unusable_number v → ∃ msg, _normalize_numeric v = Raise (ValueError msg).
Proof.
  destruct v as [|z|x|s]; simpl; try done; [eauto|].
  intros [Hempty|Hnan].
  - rewrite Hempty. simpl. eauto.
  - destruct (Str.nonempty (Str.strip s)); simpl; [rewrite Hnan|]; eauto.
Qed.

Lemma parse_datagov_row_skip row :
  coercion_fails (dg_year row) (dg_month row) (dg_value row) →
  parse_datagov_row row = Skip.
Proof.
  intros [[y Hy] Hbad]. unfold parse_datagov_row. rewrite Hy. simpl.
  destruct (_year_in_scope y); simpl; [|done].
  destruct Hbad as [Hm|[[m Hm] Hv]].
  - destruct (unsupported_month_raises _ Hm) as [msg ->]. done.
  - rewrite Hm. simpl. destruct (unusable_number_raises _ Hv) as [msg ->]. done.
Qed.

Lemma parse_dpiit_row_skip row :
  coercion_fails (dp_year row) (dp_month row) (dp_value row) →
  parse_dpiit_row row = Skip.
Proof.
  intros [[y Hy] Hbad]. unfold parse_dpiit_row. rewrite Hy. simpl.
  destruct (_year_in_scope y); simpl; [|done].
  destruct Hbad as [Hm|[[m Hm] Hv]].
  - destruct (unsupported_month_raises _ Hm) as [msg ->]. done.
  - rewrite Hm. simpl. destruct (unusable_number_raises _ Hv) as [msg ->]. done.
Qed.

Lemma parse_imf_entry_skip entry :
  truthy (imf_year entry) = true → truthy (imf_month entry) = true →
  coercion_fails (imf_year entry) (imf_month entry)
    (py_or (imf_value entry) (imf_obs_value entry)) →
  parse_imf_entry entry = Skip.
Proof.
  intros Hty Htm [[y Hy] Hbad]. unfold parse_imf_entry.
  rewrite Hty, Htm. simpl. rewrite andb_false_r.
  unfold parse_imf_entry_dated.
  assert (is_none (imf_year entry) = false) as -> by (by destruct (imf_year entry)).
  assert (is_none (imf_month entry) = false) as -> by (by destruct (imf_month entry)).
  simpl. rewrite Hy. simpl.
  destruct (_year_in_scope y); simpl; [|done].
  destruct Hbad as [Hm|[[m Hm] Hv]].
  - destruct (unsupported_month_raises _ Hm) as [msg ->]. done.
  - rewrite Hm. simpl. destruct (unusable_number_raises _ Hv) as [msg ->]. done.
Qed.

Lemma parse_annex_row_abort row :
  (∃ y, py_int (ac_year row) = Ok y) →
  unsupported_month (ac_month row)
  ∨ ((∃ m, month_to_number (ac_month row) = Ok m) ∧ non_numeric (ac_index_value row)) →
  parse_annex_row row = Abort (ValueError "Invalid record encountered").
Proof.
  intros [y Hy] Hbad. unfold parse_annex_row. rewrite Hy. simpl.
  destruct Hbad as [Hm|[[m Hm] (s & Hs & Hnan)]].
  - destruct (unsupported_month_raises _ Hm) as [msg ->]. done.
  - rewrite Hm, Hs. simpl. rewrite Hnan. done.
Qed.

Lemma parse_datagov_row_float row y m x :
  py_int (dg_year row) = Ok y → _year_in_scope y = true →
  month_to_number (dg_month row) = Ok m → dg_value row = PFloat x →
  ∃ r, parse_datagov_row row = Emit r ∧ nr_index_value r = x.
Proof.
  intros Hy Hs Hm Hv. unfold parse_datagov_row. rewrite Hy. cbn [mbind result_bind].
  rewrite Hs. cbn [negb]. rewrite Hm, Hv. cbn [mbind result_bind _normalize_numeric].
  destruct (_resolve_item_override _ _) as [[slug name] extra].
  unfold _normalized_row. rewrite Hs. cbn [negb mbind result_bind continue_on_value_error].
  eexists. split; reflexivity.
Qed.

Lemma parse_dpiit_row_float row y m x :
  py_int (dp_year row) = Ok y → _year_in_scope y = true →
  month_to_number (dp_month row) = Ok m → dp_value row = PFloat x →
  ∃ r, parse_dpiit_row row = Emit r ∧ nr_index_value r = x.
Proof.
  intros Hy Hs Hm Hv. unfold parse_dpiit_row. rewrite Hy. cbn [mbind result_bind].
  rewrite Hs. cbn [negb]. rewrite Hm, Hv. cbn [mbind result_bind _normalize_numeric].
  destruct (_resolve_item_override _ _) as [[slug name] extra].
  unfold _normalized_row. rewrite Hs. cbn [negb mbind result_bind continue_on_value_error].
  eexists. split; reflexivity.
Qed.


End RowCoercion.

Section CoercionExamples.
Local Existing Instance example_runtime.



End CoercionExamples.

(** ** Effects of the ingestion engine *)

Section EngineEffects.
Context `{RT : PyRuntime}.

Lemma run_transaction_cases f db body :
  (tx_error (run_transaction f db body).2 = None
   ∧ (body (fresh_conn db)).2 = None
   ∧ (run_transaction f db body).1 = conn_db (body (fresh_conn db)).1
   ∧ tx_entered (run_transaction f db body).2 = true
   ∧ tx_body_done (run_transaction f db body).2 = true)
  ∨ (is_Some (tx_error (run_transaction f db body).2)
     ∧ (run_transaction f db body).1 = db).
Proof.
  unfold run_transaction, fresh_conn.
  destruct f as [[e|n e|e]|]; simpl; eauto;
    destruct (body {| conn_db := db; conn_statements := 0 |}) as [conn [err|]];
    simpl; try case_bool_decide; simpl; eauto 10.
Qed.

Lemma next_fault_world w :
  w_db (next_fault w).2 = w_db w
  ∧ w_uuids (next_fault w).2 = w_uuids w
  ∧ w_clock (next_fault w).2 = w_clock w
  ∧ w_logger (next_fault w).2 = w_logger w
  ∧ w_sleeps (next_fault w).2 = w_sleeps w
  ∧ w_faults (next_fault w).2 = tail (w_faults w)
  ∧ (next_fault w).1 = fault_at w 0.
Proof.
  unfold next_fault, fault_at.
  destruct (w_faults w) as [|f rest] eqn:E; simpl; rewrite ?E; split_and!; reflexivity.
Qed.

Lemma fault_at_tail w w' i :
  w_faults w' = tail (w_faults w) → fault_at w' i = fault_at w (S i).
Proof.
  unfold fault_at. intros ->. destruct (w_faults w) as [|f rest]; simpl; [|done].
  by destruct i.
Qed.

(** Tables the engine's transaction does not touch, and the raw rows. *)
Lemma ensure_item_audit alias dm :
  raw_series_table (dm_db (ensure_item alias dm).1) = raw_series_table (dm_db dm)
  ∧ etl_runs_table (dm_db (ensure_item alias dm).1) = etl_runs_table (dm_db dm)
  ∧ series_table (dm_db (ensure_item alias dm).1) = series_table (dm_db dm).
Proof. destruct (ensure_item_frame alias dm) as (_ & ? & ? & ?). done. Qed.

Lemma ensure_region_audit alias dm :
  raw_series_table (dm_db (ensure_region alias dm).1) = raw_series_table (dm_db dm)
  ∧ etl_runs_table (dm_db (ensure_region alias dm).1) = etl_runs_table (dm_db dm)
  ∧ series_table (dm_db (ensure_region alias dm).1) = series_table (dm_db dm).
Proof. destruct (ensure_region_frame alias dm) as (_ & ? & ? & ?). done. Qed.

Lemma ingest_row_audit row dm :
  raw_series_table (dm_db (ingest_row row dm).1) = raw_series_table (dm_db dm)
  ∧ etl_runs_table (dm_db (ingest_row row dm).1) = etl_runs_table (dm_db dm).
Proof.
  unfold ingest_row.
  destruct (ensure_item (row_item_alias row) dm) as [dm1 iid] eqn:E1.
  destruct (ensure_region (row_region_alias row) dm1) as [dm2 rid] eqn:E2.
  destruct (ensure_item_audit (row_item_alias row) dm) as (Hr1 & He1 & _).
  destruct (ensure_region_audit (row_region_alias row) dm1) as (Hr2 & He2 & _).
  rewrite E1 in Hr1, He1. rewrite E2 in Hr2, He2. unfold dm_db in *. simpl in *.
  destruct (first_of_month _ _); simpl; split; congruence.
Qed.

Lemma ingest_rows_audit rows dm :
  raw_series_table (dm_db (ingest_rows rows dm).1) = raw_series_table (dm_db dm)
  ∧ etl_runs_table (dm_db (ingest_rows rows dm).1) = etl_runs_table (dm_db dm).
Proof.
  revert dm. induction rows as [|row rows IH]; intros dm; simpl; [done|].
  pose proof (ingest_row_audit row dm) as [Hr He].
  destruct (ingest_row row dm) as [dm1 [e|]]; simpl in *; [done|].
  destruct (IH dm1) as [Hr' He']. split; congruence.
Qed.

Lemma transaction_body_audit file_path rows db :
  raw_series_table (conn_db (transaction_body file_path rows (fresh_conn db)).1)
    = raw_series_table db ++ raw_payload file_path rows
  ∧ etl_runs_table (conn_db (transaction_body file_path rows (fresh_conn db)).1)
    = etl_runs_table db.
Proof.
  unfold transaction_body.
  set (conn := conn_execute _ _).
  pose proof (ingest_rows_audit rows (new_DimensionManager conn)) as [Hr He].
  destruct (ingest_rows rows (new_DimensionManager conn)) as [dm err].
  simpl in *. unfold dm_db in *. rewrite Hr, He.
  fold (dm_db (new_DimensionManager conn)). by rewrite new_DimensionManager_db.
Qed.

Lemma append_log_world level message (st : frame) :
  w_db (append_log level message st).1 = w_db st.1
  ∧ w_faults (append_log level message st).1 = w_faults st.1
  ∧ w_uuids (append_log level message st).1 = w_uuids st.1
  ∧ w_sleeps (append_log level message st).1 = w_sleeps st.1.
Proof. destruct st as [w log]. done. Qed.

Lemma after_attempt_log level message (st : frame) w db sleeps :
  after_attempt w st.1 db sleeps →
  after_attempt w (append_log level message st).1 db sleeps.
Proof.
  destruct (append_log_world level message st) as (H1 & H2 & H3 & H4).
  unfold after_attempt. rewrite H1, H2, H3, H4. done.
Qed.

Lemma retry_step attempt rest file_path rows w log :
  match attempt_error (fault_at w 0) file_path rows (w_db w) with
  | None =>
      (transaction_body file_path rows (fresh_conn (w_db w))).2 = None
      ∧ ∃ st', retry_loop (attempt :: rest) file_path rows (w, log) = (st', None)
               ∧ after_attempt w st'.1 (committed_db file_path rows (w_db w)) []
  | Some e =>
      if is_dbapi_error e && negb (bool_decide (attempt = MAX_RETRIES)) then
        ∃ st', retry_loop (attempt :: rest) file_path rows (w, log)
               = retry_loop rest file_path rows st'
               ∧ after_attempt w st'.1 (w_db w) [wait_time_after attempt]
      else
        ∃ st', retry_loop (attempt :: rest) file_path rows (w, log) = (st', Some e)
               ∧ after_attempt w st'.1 (w_db w) []
  end.
Proof.
  unfold attempt_error. simpl retry_loop.
  destruct (next_fault_world w) as (Hdb & Hu & _ & _ & Hs & Hf & Hhead).
  destruct (next_fault w) as [f w1]. simpl in *. subst f. rewrite Hdb.
  pose proof (run_transaction_cases (fault_at w 0) (w_db w)
                (transaction_body file_path rows)) as Hcases.
  destruct (run_transaction (fault_at w 0) (w_db w) (transaction_body file_path rows))
    as [db report]. simpl in *.
  assert (Hbase : ∀ level1 m1 level2 m2,
    after_attempt w
      (if tx_body_done report
       then append_log level2 m2
              (if tx_entered report then append_log level1 m1 (set_w_db db w1, log)
               else (set_w_db db w1, log))
       else if tx_entered report then append_log level1 m1 (set_w_db db w1, log)
            else (set_w_db db w1, log)).1 db []).
  { intros. assert (H0 : after_attempt w (set_w_db db w1, log).1 db [])
      by (unfold after_attempt; simpl; by rewrite app_nil_r).
    destruct (tx_body_done report), (tx_entered report);
      repeat apply after_attempt_log; exact H0. }
  destruct Hcases as [(Herr & Hbody & Hcommit & _ & _)|[[e He] Hsame]].
  - rewrite Herr. split; [done|]. eexists. split; [reflexivity|].
    unfold committed_db. rewrite <-Hcommit. apply Hbase.
  - rewrite He. subst db. destruct (is_dbapi_error e); simpl.
    + case_bool_decide; simpl.
      * eexists. split; [reflexivity|]. apply after_attempt_log, Hbase.
      * match goal with
        | |- context [append_log "warning" ?m ?st] =>
            pose proof (after_attempt_log "warning" m st w (w_db w) [] (Hbase _ _ _ _)) as Hw;
            destruct (append_log "warning" m st) as [w2 log2]
        end.
        eexists. split; [reflexivity|].
        destruct Hw as (H1 & H2 & H3 & H4). simpl in *.
        unfold after_attempt, wait_time_after. simpl.
        rewrite H1, H2, H3, H4, app_nil_r. done.
    + eexists. split; [reflexivity|]. apply Hbase.
Qed.

Lemma last_cons_ne {A} (a : A) rest x :
  a ≠ x → last rest ≠ Some x → last (a :: rest) ≠ Some x.
Proof. destruct rest as [|b rest]; simpl; [congruence | done]. Qed.

(** The store after the retry loop: unchanged when an exception leaves the
    loop, committed when the loop is left by [break]. *)
Lemma retry_loop_store attempts file_path rows (st : frame) :
  let r := retry_loop attempts file_path rows st in
  w_uuids r.1.1 = w_uuids st.1
  ∧ (is_Some r.2 → w_db r.1.1 = w_db st.1)
  ∧ (r.2 = None →
     (w_db r.1.1 = w_db st.1 ∧ last attempts ≠ Some MAX_RETRIES)
     ∨ ((transaction_body file_path rows (fresh_conn (w_db st.1))).2 = None
        ∧ w_db r.1.1 = committed_db file_path rows (w_db st.1))).
Proof.
  revert st. induction attempts as [|attempt rest IH]; intros [w log].
  - simpl. split_and!; [done | done | intros _; by left].
  - pose proof (retry_step attempt rest file_path rows w log) as Hstep.
    destruct (attempt_error (fault_at w 0) file_path rows (w_db w)) as [e|].
    + destruct (is_dbapi_error e && negb (bool_decide (attempt = MAX_RETRIES))) eqn:Hretry.
      * destruct Hstep as (st' & -> & Hdb & _ & Hu & _).
        destruct (IH st') as (IHu & IHerr & IHok). simpl in *.
        rewrite Hdb, Hu in *. split_and!; [done | done |].
        intros Hnone. destruct (IHok Hnone) as [[Hsame Hlast]|Hcommit]; [left|by right].
        split; [done|]. apply last_cons_ne; [|done].
        apply andb_true_iff in Hretry as [_ Hne]. by case_bool_decide.
      * destruct Hstep as (st' & -> & Hdb & _ & Hu & _). simpl.
        split_and!; [done | done | done].
    + destruct Hstep as (Hbody & st' & -> & Hdb & _ & Hu & _). simpl.
      split_and!; [done | by intros [] | intros _; by right].
Qed.

Lemma ingest_try_store file_path rows (st : frame) :
  let r := ingest_try file_path rows st in
  w_uuids r.1.1 = w_uuids st.1
  ∧ (is_Some r.2 → w_db r.1.1 = w_db st.1)
  ∧ (r.2 = None →
     (transaction_body file_path rows (fresh_conn (w_db st.1))).2 = None
     ∧ w_db r.1.1 = committed_db file_path rows (w_db st.1)).
Proof.
  unfold ingest_try.
  set (st0 := append_log "info" _ st).
  destruct (append_log_world "info"
    ("Starting database ingestion for " +:+ pretty (length rows) +:+ " rows") st)
    as (Hdb0 & _ & Hu0 & _). fold st0 in Hdb0, Hu0.
  destruct (retry_loop_store (seq 1 MAX_RETRIES) file_path rows st0) as (Hu & Herr & Hok).
  destruct (retry_loop (seq 1 MAX_RETRIES) file_path rows st0) as [st1 [e|]]; simpl in *.
  - rewrite Hu, Hu0, <-Hdb0. split_and!; [done | done | done].
  - destruct (append_log_world "info" "Database ingestion complete" st1)
      as (Hdb2 & _ & Hu2 & _).
    rewrite Hu2, Hdb2, Hu, Hu0, <-Hdb0. split_and!; [done | by intros [] |].
    intros _. destruct (Hok eq_refl) as [[_ Hlast]|Hcommit]; [|done].
    by destruct Hlast.
Qed.

Lemma ingest_try_runs file_path rows (st : frame) :
  etl_runs_table (w_db (ingest_try file_path rows st).1.1) = etl_runs_table (w_db st.1).
Proof.
  destruct (ingest_try_store file_path rows st) as (_ & Herr & Hok).
  destruct ((ingest_try file_path rows st).2) as [e|].
  - by rewrite Herr.
  - destruct (Hok eq_refl) as [_ ->].
    apply transaction_body_audit.
Qed.

Lemma take_length n s : (String.length (Str.take n s) ≤ n)%nat.
Proof.
  revert s. induction n as [|n IH]; intros [|c s]; simpl; try lia.
  specialize (IH s). lia.
Qed.

Lemma truncated_log_length s :
  Z.of_nat (String.length (Str.take (Z.to_nat MAX_LOG_CHARS) s)) ≤ MAX_LOG_CHARS.
Proof.
  pose proof (take_length (Z.to_nat MAX_LOG_CHARS) s) as H.
  assert (0 ≤ MAX_LOG_CHARS) by done.
  lia.
Qed.

Lemma etl_runs_insert_run r db :
  etl_runs_table (insert_run r db) = etl_runs_table db ++ [r].
Proof. reflexivity. Qed.

Lemma record_run_effect run_id started_at checksum final_status (st : frame) :
  let w' := record_run run_id started_at checksum final_status st in
  w_faults w' = tail (w_faults st.1)
  ∧ w_sleeps w' = w_sleeps st.1
  ∧ match single_statement_fault (fault_at st.1 0) with
    | None =>
        w_db w' = insert_run (run_record run_id started_at checksum final_status st)
                    (w_db st.1)
        ∧ w_logger w' = w_logger st.1
    | Some e =>
        w_db w' = w_db st.1
        ∧ w_logger w' = w_logger st.1
                        ++ [("error", "Failed to record ETL run metadata: " +:+ exn_str e)]
    end.
Proof.
  destruct st as [w log]. unfold record_run, run_record. cbn [fst snd].
  generalize (Str.take (Z.to_nat MAX_LOG_CHARS) (String.concat newline log)).
  intros truncated.
  destruct w as [db faults clock uuids logger sleeps disposed].
  destruct faults as [|[[e|[|n] e|e]|] rest];
    (split; [reflexivity | split; [reflexivity|]]); cbn; split_and!; reflexivity.
Qed.

(** C4: every call of [ingest_with_engine] enters the [finally] clause
    once, whatever left the [try] block.  The clause runs one transaction
    (one schedule entry is consumed).  When that transaction is not hit by a
    fault, the run table grows by exactly one record, which carries the
    drawn run id, the first clock reading of the call as start, the reading
    taken on entering the clause as end, "success" or "failed" according
    to whether the call returns or raises, the supplied checksum and the
    joined log entries cut to [MAX_LOG_CHARS] characters.  When it is hit,
    the store is left as it was, the error is sent to the logger and nothing
    is retried.  In both cases the call returns or raises what the [try]
    block produced. *)
Theorem run_record_postcondition (file_path : string) (rows : list base_row)
    (checksum : string) (w : world) :
  let run_id := uuid4 (w_uuids w) in
  let started_at := now (w_clock w) in
  let tried := ingest_try file_path rows (tick_clock (draw_uuid w), []) in
  let final_status := match tried.2 with None => "success" | Some _ => "failed" end in
  let record := run_record run_id started_at checksum final_status tried.1 in
  let r := ingest_with_engine file_path rows checksum w in
  r.2 = match tried.2 with
        | None => Ok {| summary_run_id := run_id; summary_status := "success";
                        summary_rows_processed := length rows |}
        | Some e => Raise e
        end
  ∧ Z.of_nat (String.length (run_log record)) ≤ MAX_LOG_CHARS
  ∧ w_faults r.1 = tail (w_faults tried.1.1)
  ∧ match single_statement_fault (fault_at tried.1.1 0) with
    | None =>
        etl_runs_table (w_db r.1) = etl_runs_table (w_db w) ++ [record]
        ∧ w_logger r.1 = w_logger tried.1.1
    | Some e =>
        etl_runs_table (w_db r.1) = etl_runs_table (w_db w)
        ∧ w_db r.1 = w_db tried.1.1
        ∧ w_logger r.1 = w_logger tried.1.1
                         ++ [("error", "Failed to record ETL run metadata: " +:+ exn_str e)]
    end.
Proof.
  intros run_id started_at tried final_status record r.
  pose proof (ingest_try_runs file_path rows (tick_clock (draw_uuid w), [])) as Hruns.
  fold tried in Hruns. simpl in Hruns.
  pose proof (record_run_effect run_id started_at checksum final_status tried.1)
    as (Hfaults & _ & Hrec).
  assert (Hr : r = (record_run run_id started_at checksum final_status tried.1,
                    match tried.2 with
                    | None => Ok {| summary_run_id := run_id; summary_status := "success";
                                    summary_rows_processed := length rows |}
                    | Some e => Raise e
                    end)).
  { unfold r, ingest_with_engine, final_status, tried, run_id, started_at.
    destruct (ingest_try file_path rows (tick_clock (draw_uuid w), [])) as [st [e|]]; done. }
  rewrite Hr. cbn [fst snd].
  split_and!; [done | apply truncated_log_length | done |].
  destruct (single_statement_fault (fault_at tried.1.1 0)) as [e|].
  - destruct Hrec as [Hdb Hlog]. rewrite Hdb, Hruns. done.
  - destruct Hrec as [Hdb Hlog]. rewrite Hdb, etl_runs_insert_run, Hruns. done.
Qed.

Lemma fault_at_drop w w' k i :
  w_faults w' = drop k (w_faults w) → fault_at w' i = fault_at w (k + i).
Proof. unfold fault_at. intros ->. by rewrite lookup_drop. Qed.

Lemma retry_loop_transient K file_path rows :
  ∀ a n w log,
    (K < n)%nat → (a + n = S MAX_RETRIES)%nat →
    (∀ i, (i < K)%nat →
          ∃ msg, attempt_error (fault_at w i) file_path rows (w_db w)
                 = Some (DBAPIError msg)) →
    attempt_error (fault_at w K) file_path rows (w_db w) = None →
    ∃ st', retry_loop (seq a n) file_path rows (w, log) = (st', None)
           ∧ w_db st'.1 = committed_db file_path rows (w_db w)
           ∧ w_faults st'.1 = drop (S K) (w_faults w)
           ∧ w_sleeps st'.1 = w_sleeps w ++ (wait_time_after <$> seq a K).
Proof.
  induction K as [|K IH]; intros a n w log HK Han Hfail Hok.
  - destruct n as [|n]; [lia|]. change (seq a (S n)) with (a :: seq (S a) n).
    pose proof (retry_step a (seq (S a) n) file_path rows w log) as Hstep.
    rewrite Hok in Hstep. destruct Hstep as (_ & st' & -> & Hdb & Hf & _ & Hs).
    exists st'. split_and!; [done | done | by rewrite Hf; destruct (w_faults w)
                            | by rewrite Hs].
  - destruct n as [|n]; [lia|]. change (seq a (S n)) with (a :: seq (S a) n).
    pose proof (retry_step a (seq (S a) n) file_path rows w log) as Hstep.
    destruct (Hfail 0%nat ltac:(lia)) as [msg Hmsg]. rewrite Hmsg in Hstep.
    change (is_dbapi_error (DBAPIError msg)) with true in Hstep.
    rewrite bool_decide_eq_false_2 in Hstep by lia.
    cbn [andb negb] in Hstep.
    destruct Hstep as ([w1 log1] & -> & Hdb & Hf & _ & Hs).
    simpl in *.
    destruct (IH (S a) n w1 log1) as (st' & Hloop & Hdb' & Hf' & Hs').
    + lia.
    + lia.
    + intros i Hi. rewrite (fault_at_tail w w1 i Hf), Hdb. apply Hfail. lia.
    + by rewrite (fault_at_tail w w1 K Hf), Hdb.
    + exists st'. rewrite Hdb in Hdb'. split_and!; [done | done | |].
      * rewrite Hf', Hf. by destruct (w_faults w).
      * rewrite Hs', Hs, <-app_assoc. done.
Qed.

Lemma retry_loop_exhausted n file_path rows :
  ∀ a w log,
    (a + n = MAX_RETRIES)%nat →
    (∀ i, (i ≤ n)%nat →
          ∃ msg, attempt_error (fault_at w i) file_path rows (w_db w)
                 = Some (DBAPIError msg)) →
    ∃ st' msg, retry_loop (seq a (S n)) file_path rows (w, log)
               = (st', Some (DBAPIError msg))
           ∧ attempt_error (fault_at w n) file_path rows (w_db w) = Some (DBAPIError msg)
           ∧ w_db st'.1 = w_db w
           ∧ w_faults st'.1 = drop (S n) (w_faults w)
           ∧ w_sleeps st'.1 = w_sleeps w ++ (wait_time_after <$> seq a n).
Proof.
  induction n as [|n IH]; intros a w log Han Hfail.
  - change (seq a 1) with [a].
    pose proof (retry_step a [] file_path rows w log) as Hstep.
    destruct (Hfail 0%nat ltac:(lia)) as [msg Hmsg]. rewrite Hmsg in Hstep.
    change (is_dbapi_error (DBAPIError msg)) with true in Hstep.
    rewrite bool_decide_eq_true_2 in Hstep by lia.
    cbn [andb negb] in Hstep.
    destruct Hstep as (st' & -> & Hdb & Hf & _ & Hs).
    exists st', msg. split_and!; [done | done | done
                                 | by rewrite Hf; destruct (w_faults w)
                                 | by rewrite Hs].
  - change (seq a (S (S n))) with (a :: seq (S a) (S n)).
    pose proof (retry_step a (seq (S a) (S n)) file_path rows w log) as Hstep.
    destruct (Hfail 0%nat ltac:(lia)) as [msg Hmsg]. rewrite Hmsg in Hstep.
    change (is_dbapi_error (DBAPIError msg)) with true in Hstep.
    rewrite bool_decide_eq_false_2 in Hstep by lia.
    cbn [andb negb] in Hstep.
    destruct Hstep as ([w1 log1] & -> & Hdb & Hf & _ & Hs).
    simpl in *.
    destruct (IH (S a) w1 log1) as (st' & msg' & Hloop & Hlast & Hdb' & Hf' & Hs').
    + lia.
    + intros i Hi. rewrite (fault_at_tail w w1 i Hf), Hdb. apply Hfail. lia.
    + exists st', msg'. rewrite (fault_at_tail w w1 n Hf), Hdb in Hlast.
      rewrite Hdb in Hdb'. split_and!; [done | done | done | |].
      * rewrite Hf', Hf. by destruct (w_faults w).
      * rewrite Hs', Hs, <-app_assoc. done.
Qed.

Lemma ingest_with_engine_eq file_path rows checksum w :
  let tried := ingest_try file_path rows (tick_clock (draw_uuid w), []) in
  ingest_with_engine file_path rows checksum w
  = (record_run (uuid4 (w_uuids w)) (now (w_clock w)) checksum
       (match tried.2 with None => "success" | Some _ => "failed" end) tried.1,
     match tried.2 with
     | None => Ok {| summary_run_id := uuid4 (w_uuids w); summary_status := "success";
                     summary_rows_processed := length rows |}
     | Some e => Raise e
     end).
Proof.
  unfold ingest_with_engine.
  destruct (ingest_try file_path rows (tick_clock (draw_uuid w), [])) as [st [e|]]; done.
Qed.

Lemma ingest_try_transient K file_path rows (st : frame) :
  (K < MAX_RETRIES)%nat →
  (∀ i, (i < K)%nat →
        ∃ msg, attempt_error (fault_at st.1 i) file_path rows (w_db st.1)
               = Some (DBAPIError msg)) →
  attempt_error (fault_at st.1 K) file_path rows (w_db st.1) = None →
  let tried := ingest_try file_path rows st in
  tried.2 = None
  ∧ w_db tried.1.1 = committed_db file_path rows (w_db st.1)
  ∧ w_faults tried.1.1 = drop (S K) (w_faults st.1)
  ∧ w_sleeps tried.1.1 = w_sleeps st.1 ++ (wait_time_after <$> seq 1 K).
Proof.
  intros HK Hfail Hok. unfold ingest_try.
  destruct (append_log_world "info"
    ("Starting database ingestion for " +:+ pretty (length rows) +:+ " rows") st)
    as (Hdb0 & Hf0 & _ & Hs0).
  destruct (append_log "info" _ st) as [w0 log0]. cbn [fst snd] in *.
  destruct (retry_loop_transient K file_path rows 1 MAX_RETRIES w0 log0)
    as (st' & -> & Hdb & Hf & Hs).
  - done.
  - done.
  - intros i Hi. unfold fault_at. rewrite Hf0, Hdb0. by apply Hfail.
  - unfold fault_at. by rewrite Hf0, Hdb0.
  - destruct (append_log_world "info" "Database ingestion complete" st')
      as (Hdb1 & Hf1 & _ & Hs1).
    cbn [fst snd]. rewrite Hdb1, Hf1, Hs1, Hdb, Hf, Hs, Hdb0, Hf0, Hs0. done.
Qed.

Lemma ingest_try_exhausted file_path rows (st : frame) :
  (∀ i, (i < MAX_RETRIES)%nat →
        ∃ msg, attempt_error (fault_at st.1 i) file_path rows (w_db st.1)
               = Some (DBAPIError msg)) →
  let tried := ingest_try file_path rows st in
  ∃ msg,
    attempt_error (fault_at st.1 (MAX_RETRIES - 1)) file_path rows (w_db st.1)
      = Some (DBAPIError msg)
    ∧ tried.2 = Some (DBAPIError msg)
    ∧ w_db tried.1.1 = w_db st.1
    ∧ w_faults tried.1.1 = drop MAX_RETRIES (w_faults st.1)
    ∧ w_sleeps tried.1.1
      = w_sleeps st.1 ++ (wait_time_after <$> seq 1 (MAX_RETRIES - 1)).
Proof.
  intros Hfail. unfold ingest_try.
  destruct (append_log_world "info"
    ("Starting database ingestion for " +:+ pretty (length rows) +:+ " rows") st)
    as (Hdb0 & Hf0 & _ & Hs0).
  destruct (append_log "info" _ st) as [w0 log0]. cbn [fst snd] in *.
  destruct (retry_loop_exhausted 2 file_path rows 1 w0 log0)
    as (st' & msg & Hloop & Hlast & Hdb & Hf & Hs).
  - done.
  - intros i Hi. unfold fault_at. rewrite Hf0, Hdb0. apply Hfail.
    unfold MAX_RETRIES. lia.
  - change (seq 1 MAX_RETRIES) with (seq 1 3). rewrite Hloop. cbn [fst snd].
    exists msg. unfold fault_at in Hlast. rewrite Hf0, Hdb0 in Hlast.
    rewrite Hdb, Hf, Hs, Hdb0, Hf0, Hs0. done.
Qed.

(** C3, amended: when the first K < [MAX_RETRIES] attempts of a call fail
    with a storage error and the next attempt commits, the call returns
    normally and sleeps min(2 * attempt, 10) seconds after each failed
    attempt.  When all [MAX_RETRIES] attempts fail with a storage error,
    the call raises the error of the last attempt, having slept after each
    attempt but the last.  In both cases the run record is written in a
    transaction of its own, the next one: when that transaction is not hit
    by a fault the call adds exactly one run record, of status "success"
    in the first case and "failed" in the second; when it is hit, as it is
    when the storage is still failing, no run record is added, and the
    call returns or raises as before. *)
Theorem retry_bound (file_path : string) (rows : list base_row) (checksum : string)
    (w : world) :
  (∀ K, (K < MAX_RETRIES)%nat →
        (∀ i, (i < K)%nat →
              ∃ msg, attempt_error (fault_at w i) file_path rows (w_db w)
                     = Some (DBAPIError msg)) →
        attempt_error (fault_at w K) file_path rows (w_db w) = None →
        let r := ingest_with_engine file_path rows checksum w in
        (∃ s, r.2 = Ok s ∧ summary_status s = "success")
        ∧ match single_statement_fault (fault_at w (S K)) with
          | None =>
              ∃ record, etl_runs_table (w_db r.1) = etl_runs_table (w_db w) ++ [record]
                        ∧ run_status record = "success"
          | Some _ => etl_runs_table (w_db r.1) = etl_runs_table (w_db w)
          end
        ∧ w_sleeps r.1 = w_sleeps w ++ (wait_time_after <$> seq 1 K))
  ∧ ((∀ i, (i < MAX_RETRIES)%nat →
           ∃ msg, attempt_error (fault_at w i) file_path rows (w_db w)
                  = Some (DBAPIError msg)) →
     let r := ingest_with_engine file_path rows checksum w in
     (∃ msg, attempt_error (fault_at w (MAX_RETRIES - 1)) file_path rows (w_db w)
             = Some (DBAPIError msg)
             ∧ r.2 = Raise (DBAPIError msg))
     ∧ match single_statement_fault (fault_at w MAX_RETRIES) with
       | None =>
           ∃ record, etl_runs_table (w_db r.1) = etl_runs_table (w_db w) ++ [record]
                     ∧ run_status record = "failed"
       | Some _ => etl_runs_table (w_db r.1) = etl_runs_table (w_db w)
       end
     ∧ w_sleeps r.1 = w_sleeps w ++ (wait_time_after <$> seq 1 (MAX_RETRIES - 1))).
Proof.
  split.
  - intros K HK Hfail Hok r. unfold r. rewrite ingest_with_engine_eq. cbn [fst snd].
    destruct (ingest_try_transient K file_path rows (tick_clock (draw_uuid w), []) HK)
      as (Herr & Hdb & Hf & Hs); [done | done |].
    set (tried := ingest_try file_path rows (tick_clock (draw_uuid w), [])) in *.
    rewrite Herr.
    pose proof (record_run_effect (uuid4 (w_uuids w)) (now (w_clock w)) checksum
                  "success" tried.1) as (_ & Hs' & Heff).
    rewrite (fault_at_drop (tick_clock (draw_uuid w)) tried.1.1 (S K) 0%nat Hf) in Heff.
    replace (S K + 0)%nat with (S K) in Heff by lia.
    change (fault_at (tick_clock (draw_uuid w)) (S K)) with (fault_at w (S K)) in Heff.
    assert (Hruns : etl_runs_table (w_db tried.1.1) = etl_runs_table (w_db w)).
    { rewrite Hdb. apply transaction_body_audit. }
    split_and!.
    + eexists. split; [reflexivity | done].
    + destruct (single_statement_fault (fault_at w (S K))); destruct Heff as [Hdb' _].
      * by rewrite Hdb'.
      * exists (run_record (uuid4 (w_uuids w)) (now (w_clock w)) checksum "success"
                  tried.1).
        rewrite Hdb', etl_runs_insert_run, Hruns. split; reflexivity.
    + by rewrite Hs', Hs.
  - intros Hfail r. unfold r. rewrite ingest_with_engine_eq. cbn [fst snd].
    destruct (ingest_try_exhausted file_path rows (tick_clock (draw_uuid w), []) Hfail)
      as (msg & Hlast & Herr & Hdb & Hf & Hs).
    set (tried := ingest_try file_path rows (tick_clock (draw_uuid w), [])) in *.
    rewrite Herr.
    pose proof (record_run_effect (uuid4 (w_uuids w)) (now (w_clock w)) checksum
                  "failed" tried.1) as (_ & Hs' & Heff).
    rewrite (fault_at_drop (tick_clock (draw_uuid w)) tried.1.1 MAX_RETRIES 0%nat Hf)
      in Heff.
    replace (MAX_RETRIES + 0)%nat with MAX_RETRIES in Heff by lia.
    change (fault_at (tick_clock (draw_uuid w)) MAX_RETRIES)
      with (fault_at w MAX_RETRIES) in Heff.
    split_and!.
    + exists msg. split; [exact Hlast | done].
    + destruct (single_statement_fault (fault_at w MAX_RETRIES)); destruct Heff as [Hdb' _].
      * by rewrite Hdb', Hdb.
      * exists (run_record (uuid4 (w_uuids w)) (now (w_clock w)) checksum "failed"
                  tried.1).
        rewrite Hdb', etl_runs_insert_run, Hdb. split; reflexivity.
    + by rewrite Hs', Hs.
Qed.

End EngineEffects.

Section EngineExamples.
Local Existing Instance example_runtime.

Lemma flaky_world_attempts :
  attempt_error (fault_at flaky_world 0) "annex.xlsx" two_rows (w_db flaky_world)
    = Some (DBAPIError "connection lost")
  ∧ attempt_error (fault_at flaky_world 1) "annex.xlsx" two_rows (w_db flaky_world)
    = Some (DBAPIError "serialization failure")
  ∧ attempt_error (fault_at flaky_world 2) "annex.xlsx" two_rows (w_db flaky_world)
    = None.
Proof. vm_compute. split_and!; reflexivity. Qed.

Lemma retry_bound_witness :
  (∃ s, (ingest_with_engine "annex.xlsx" two_rows "c0ffee" flaky_world).2 = Ok s
        ∧ summary_status s = "success")
  ∧ w_sleeps (ingest_with_engine "annex.xlsx" two_rows "c0ffee" flaky_world).1 = [2; 4].
Proof.
  destruct flaky_world_attempts as (H0 & H1 & H2).
  destruct (retry_bound "annex.xlsx" two_rows "c0ffee" flaky_world) as [Hretry _].
  destruct (Hretry 2%nat) as (Hok & _ & Hsleeps).
  - unfold MAX_RETRIES. lia.
  - intros [|[|i]] Hi; [eauto | eauto | lia].
  - exact H2.
  - split; [exact Hok | exact Hsleeps].
Defined.

(** C3 as stated fails when the storage is still failing after the third
    attempt: the transaction of the run record fails too, its error is
    only logged, and the call raises without any run record, "failed" or
    other, having been written. *)
Lemma run_record_lost_when_storage_stays_down :
  raised outage_call.2 = Some (DBAPIError "connection lost")
  ∧ etl_runs_table (w_db outage_call.1) = []
  ∧ w_sleeps outage_call.1 = [2; 4]
  ∧ last (w_logger outage_call.1)
    = Some ("error", "Failed to record ETL run metadata: connection lost").
Proof. vm_compute. split_and!; reflexivity. Qed.

End EngineExamples.

(** ** Scope enforcement along the pipeline *)

Section ScopeEnforcement.
Context `{RT : PyRuntime}.

Lemma touched_years_same P db db' :
  series_table db' = series_table db → touched_years P db db'.
Proof. intros Heq k Hk. by rewrite Heq in Hk. Qed.

Lemma touched_years_trans P db1 db2 db3 :
  touched_years P db1 db2 → touched_years P db2 db3 → touched_years P db1 db3.
Proof.
  intros H12 H23 k Hk.
  destruct (decide (series_table db3 !! k = series_table db2 !! k)) as [Heq|Hne].
  - apply H12. by rewrite <-Heq.
  - by apply H23.
Qed.

Lemma touched_years_weaken (P Q : Z → Prop) db db' :
  (∀ y, P y → Q y) → touched_years P db db' → touched_years Q db db'.
Proof. intros HPQ H k Hk. by apply HPQ, H. Qed.

Lemma first_of_month_date year month d :
  first_of_month year month = Ok d → d = (year, month, 1).
Proof.
  unfold first_of_month. repeat case_match; try discriminate. by intros [= <-].
Qed.

Lemma ingest_row_touched row dm :
  touched_years (λ y, y = row_year row) (dm_db dm) (dm_db (ingest_row row dm).1).
Proof.
  unfold ingest_row.
  destruct (ensure_item (row_item_alias row) dm) as [dm1 iid] eqn:E1.
  destruct (ensure_region (row_region_alias row) dm1) as [dm2 rid] eqn:E2.
  destruct (ensure_item_audit (row_item_alias row) dm) as (_ & _ & Hs1).
  destruct (ensure_region_audit (row_region_alias row) dm1) as (_ & _ & Hs2).
  rewrite E1 in Hs1. rewrite E2 in Hs2. cbn [fst] in *.
  destruct (first_of_month (row_year row) (row_month row)) as [d|e] eqn:Ed; cbn [fst].
  - apply first_of_month_date in Ed as ->.
    intros k. unfold dm_db in *. cbn. rewrite Hs2, Hs1.
    destruct (decide (k = (iid, rid, (row_year row, row_month row, 1)))) as [->|Hne].
    + done.
    + by rewrite lookup_insert_ne.
  - apply touched_years_same. congruence.
Qed.

Lemma ingest_rows_touched rows dm :
  touched_years (row_years rows) (dm_db dm) (dm_db (ingest_rows rows dm).1).
Proof.
  revert dm. induction rows as [|row rows IH]; intros dm; simpl.
  - by apply touched_years_same.
  - pose proof (ingest_row_touched row dm) as Hrow.
    destruct (ingest_row row dm) as [dm1 [e|]]; cbn [fst] in *.
    + eapply touched_years_weaken; [|exact Hrow].
      intros y ->. exists row. split; [left | done].
    + eapply touched_years_trans.
      * eapply touched_years_weaken; [|exact Hrow].
        intros y ->. exists row. split; [left | done].
      * eapply touched_years_weaken; [|apply IH].
        intros y (r & Hr & ->). exists r. split; [by right | done].
Qed.

Lemma committed_db_touched file_path rows db :
  touched_years (row_years rows) db (committed_db file_path rows db).
Proof.
  unfold committed_db, transaction_body.
  set (conn := conn_execute _ _).
  pose proof (ingest_rows_touched rows (new_DimensionManager conn)) as H.
  rewrite new_DimensionManager_db in H.
  destruct (ingest_rows rows (new_DimensionManager conn)) as [dm err].
  exact H.
Qed.

Lemma record_run_series run_id started_at checksum final_status (st : frame) :
  series_table (w_db (record_run run_id started_at checksum final_status st))
  = series_table (w_db st.1).
Proof.
  destruct (record_run_effect run_id started_at checksum final_status st) as (_ & _ & H).
  destruct (single_statement_fault (fault_at st.1 0)); destruct H as [-> _]; done.
Qed.

Lemma ingest_with_engine_touched file_path rows checksum w :
  touched_years (row_years rows) (w_db w)
    (w_db (ingest_with_engine file_path rows checksum w).1).
Proof.
  rewrite ingest_with_engine_eq. cbn [fst].
  intros k. rewrite record_run_series.
  destruct (ingest_try_store file_path rows (tick_clock (draw_uuid w), []))
    as (_ & Herr & Hok).
  destruct ((ingest_try file_path rows (tick_clock (draw_uuid w), [])).2) as [e|].
  - rewrite Herr by eauto. done.
  - destruct (Hok eq_refl) as [_ ->]. apply committed_db_touched.
Qed.

Lemma base_rows_accepted rows y :
  Forall in_scope rows → row_years (_base_row <$> rows) y → accepted y.
Proof.
  intros Hall (row & Hin & ->).
  apply list_elem_of_fmap in Hin as (r & -> & Hr).
  rewrite Forall_forall in Hall. apply year_in_scope_bounds, Hall, Hr.
Qed.

Lemma process_batches_touched preview_only batches summaries (pw : pipeline_world) :
  Forall batch_in_scope batches →
  touched_years accepted (w_db pw.1)
    (w_db (process_batches preview_only batches summaries pw).1.1).
Proof.
  intros Hall. revert summaries pw.
  induction Hall as [|batch batches Hb Hall IH]; intros summaries [w previews];
    simpl; [by apply touched_years_same|].
  destruct preview_only.
  - apply (IH _ (w, _)).
  - pose proof (ingest_with_engine_touched (batch_file_path batch)
                  (_base_row <$> batch_rows batch) (batch_checksum batch) w) as Ht.
    eapply touched_years_weaken in Ht; [|intros y; by apply base_rows_accepted].
    destruct (ingest_with_engine _ _ _ w) as [w1 [s|e]]; cbn [fst] in *.
    + eapply touched_years_trans; [exact Ht|]. apply (IH _ (w1, _)).
    + exact Ht.
Qed.

Lemma load_batches_in_scope {A} name (adapter : list A → result (list norm_row))
    sources batches :
  (∀ frame_rows out, adapter frame_rows = Ok out → Forall in_scope out) →
  load_batches name adapter sources = Ok batches →
  Forall batch_in_scope batches.
Proof.
  intros Hadapter. revert batches.
  induction sources as [|src sources IH]; intros batches; simpl.
  - intros [= <-]. constructor.
  - destruct (src_content src) as [e|frame_rows]; [done|].
    destruct (adapter frame_rows) as [rows|e] eqn:Hrows; cbn; [|done].
    destruct (load_batches name adapter sources) as [rest|e]; cbn; [|done].
    intros [= <-]. constructor; [|by apply IH].
    unfold batch_in_scope. cbn. by eapply Hadapter.
Qed.

Lemma build_batches_in_scope m d i p batches :
  build_batches m d i p = Ok batches → Forall batch_in_scope batches.
Proof.
  unfold build_batches.
  destruct (load_batches "mospi" parse_mospi_annex m) as [b1|] eqn:H1; cbn; [|done].
  destruct (load_batches "data_gov" parse_datagov_resource d) as [b2|] eqn:H2; cbn; [|done].
  destruct (load_batches "imf" parse_imf_series i) as [b3|] eqn:H3; cbn; [|done].
  destruct (load_batches "dpiit" parse_dpiit_resource p) as [b4|] eqn:H4; cbn; [|done].
  intros [= <-]. rewrite !Forall_app. split_and!.
  - eapply load_batches_in_scope; [apply parse_mospi_annex_scope | exact H1].
  - eapply load_batches_in_scope; [apply parse_datagov_resource_scope | exact H2].
  - eapply load_batches_in_scope; [apply parse_imf_series_scope | exact H3].
  - eapply load_batches_in_scope; [apply parse_dpiit_resource_scope | exact H4].
Qed.

Lemma collect_validation_snapshot_db w :
  w_db (collect_validation_snapshot w).1 = w_db w.
Proof.
  unfold collect_validation_snapshot.
  destruct (next_fault_world w) as (Hdb & _).
  destruct (next_fault w) as [f w1]. cbn [snd] in Hdb.
  destruct (run_transaction f (w_db w1) _) as [db report].
  destruct (tx_error report); done.
Qed.

Lemma run_phase3_pipeline_touched m d i p has_engine dry_run (pw : pipeline_world) :
  touched_years accepted (w_db pw.1)
    (w_db (run_phase3_pipeline m d i p has_engine dry_run pw).1.1).
Proof.
  unfold run_phase3_pipeline.
  destruct (build_batches m d i p) as [batches|e] eqn:Hb; [|by apply touched_years_same].
  pose proof (process_batches_touched (dry_run || negb has_engine) batches [] pw
                (build_batches_in_scope _ _ _ _ _ Hb)) as Ht.
  destruct (process_batches _ batches [] pw) as [[w previews] [summaries|e]];
    cbn [fst] in *; [|exact Ht].
  destruct (negb dry_run && has_engine); [|exact Ht].
  pose proof (collect_validation_snapshot_db w) as Hdb.
  destruct (collect_validation_snapshot w) as [w1 [snapshot|e]]; cbn [fst] in *;
    intros k; rewrite Hdb; apply Ht.
Qed.

(** C9, amended: a row emitted by any of the four adapters of the pipeline
    ([parse_mospi_annex], [parse_datagov_resource], [parse_imf_series],
    [parse_dpiit_resource]) has its year inside the accepted window
    1958..2025, and a run of [run_phase3_pipeline] creates or changes no
    fact whose date lies outside that window, whatever the sources, the
    storage faults and the mode of the run.  The window belongs to the
    pipeline: [parse_annex] and the annex workflow [run_etl] built on it
    apply none. *)
Theorem scope_enforcement :
  (∀ frame_rows out,
     parse_mospi_annex frame_rows = Ok out → Forall (λ r, accepted (nr_year r)) out)
  ∧ (∀ frame_rows out,
       parse_datagov_resource frame_rows = Ok out → Forall (λ r, accepted (nr_year r)) out)
  ∧ (∀ series out,
       parse_imf_series series = Ok out → Forall (λ r, accepted (nr_year r)) out)
  ∧ (∀ frame_rows out,
       parse_dpiit_resource frame_rows = Ok out → Forall (λ r, accepted (nr_year r)) out)
  ∧ (∀ m d i p has_engine dry_run (pw : pipeline_world) k,
       series_table (w_db (run_phase3_pipeline m d i p has_engine dry_run pw).1.1) !! k
         ≠ series_table (w_db pw.1) !! k →
       accepted (fact_year k)).
Proof.
  assert (Hacc : ∀ out, Forall in_scope out → Forall (λ r, accepted (nr_year r)) out).
  { intros out Hin. eapply Forall_impl; [exact Hin|].
    intros r. apply year_in_scope_bounds. }
  split_and!.
  - intros ?? H. apply Hacc. by eapply parse_mospi_annex_scope.
  - intros ?? H. apply Hacc. by eapply parse_datagov_resource_scope.
  - intros ?? H. apply Hacc. by eapply parse_imf_series_scope.
  - intros ?? H. apply Hacc. by eapply parse_dpiit_resource_scope.
  - intros m d i p has_engine dry_run pw k.
    apply run_phase3_pipeline_touched.
Qed.

End ScopeEnforcement.

(** ** The orchestrator on a failing batch *)

Section OrchestratorExamples.
Local Existing Instance example_runtime.

(** C7 on a concrete run: three batches, the second exhausts its retries.
    The third batch is not processed (one item, one fact, two run records),
    and the call raises the storage error: it returns no summary, so the
    caller receives nothing about the first, completed batch. *)
Theorem pipeline_failure_returns_no_summary :
  raised outage_run.2 = Some (DBAPIError "connection lost")
  ∧ ps_batches <$> returned outage_run.2 = None
  ∧ item_canonical_name <$> items_table (w_db outage_run.1.1) = ["Rice"]
  ∧ size (series_table (w_db outage_run.1.1)) = 1%nat
  ∧ run_status <$> etl_runs_table (w_db outage_run.1.1) = ["success"; "failed"].
Proof. vm_compute. split_and!; reflexivity. Qed.

End OrchestratorExamples.

(** ** Idempotence of ingestion *)

Section Idempotence.
Context `{RT : PyRuntime}.

Implicit Types (dm : DimensionManager) (db : database).

Lemma apply_upserts_lookup upserts facts k :
  apply_upserts facts upserts !! k
  = match list_find (λ kv, kv.1 = k) (reverse upserts) with
    | Some (_, kv) => Some kv.2
    | None => facts !! k
    end.
Proof.
  revert facts. induction upserts as [|[k0 v0] upserts IH]; intros facts; [done|].
  cbn [apply_upserts foldl]. fold (apply_upserts (<[k0:=v0]> facts) upserts).
  rewrite IH, reverse_cons.
  destruct (list_find (λ kv, kv.1 = k) (reverse upserts)) as [[i kv]|] eqn:Hfind.
  - erewrite list_find_app_l by exact Hfind. done.
  - rewrite list_find_app_r by exact Hfind. cbn.
    case_decide as Hk; cbn in *.
    + subst. by rewrite lookup_insert_eq.
    + by rewrite lookup_insert_ne.
Qed.

(** Applying the same upserts a second time changes nothing. *)
Lemma apply_upserts_idemp upserts facts :
  apply_upserts (apply_upserts facts upserts) upserts = apply_upserts facts upserts.
Proof.
  apply map_eq. intros k. rewrite !apply_upserts_lookup.
  by destruct (list_find (λ kv, kv.1 = k) (reverse upserts)) as [[i kv]|].
Qed.

Lemma next_id_fresh (ids : list Z) : next_id ids ∉ ids.
Proof.
  assert (Hmax : ∀ x, x ∈ ids → x ≤ foldr Z.max 0 ids).
  { induction ids as [|y ids IH]; intros x Hx; [inversion Hx|].
    apply elem_of_cons in Hx as [->|Hx]; simpl; [lia|]. specialize (IH x Hx). lia. }
  intros Hin. apply Hmax in Hin. unfold next_id in Hin. lia.
Qed.

Lemma NoDup_fmap_same {A B} (f : A → B) (l : list A) x y :
  NoDup (f <$> l) → x ∈ l → y ∈ l → f x = f y → x = y.
Proof.
  induction l as [|a l IH]; intros Hnd Hx Hy Heq; [inversion Hx|].
  rewrite fmap_cons in Hnd. apply NoDup_cons in Hnd as [Hnotin Hnd].
  apply elem_of_cons in Hx as [->|Hx]; apply elem_of_cons in Hy as [->|Hy].
  - done.
  - exfalso. apply Hnotin. rewrite Heq. by apply list_elem_of_fmap_2.
  - exfalso. apply Hnotin. rewrite <-Heq. by apply list_elem_of_fmap_2.
  - by apply IH.
Qed.

(** *** What the loader builds *)

Lemma insert_keeps_key (m : gmap string Z) k v t :
  is_Some (m !! t) → is_Some (<[k := v]> m !! t).
Proof.
  intros Hm. destruct (decide (t = k)) as [->|?];
    [rewrite lookup_insert_eq; eauto | by rewrite lookup_insert_ne].
Qed.

Lemma insert_lookup_cases (m : gmap string Z) k v t id :
  <[k := v]> m !! t = Some id → (t = k ∧ id = v) ∨ m !! t = Some id.
Proof.
  destruct (decide (t = k)) as [->|?].
  - rewrite lookup_insert_eq. intros [= <-]. by left.
  - rewrite lookup_insert_ne by done. by right.
Qed.

Lemma register_fold_lookup (record : item_row) aliases dm t id :
  item_alias_index (foldl (λ dm a, _register_item_alias record a dm) dm aliases) !! t
    = Some id →
  item_alias_index dm !! t = Some id
  ∨ (id = item_id record ∧ t ∈ (_normalize_alias <$> aliases)).
Proof.
  revert dm. induction aliases as [|a aliases IH]; intros dm; simpl; [by left|].
  intros H. destruct (IH _ H) as [Hold|[-> Hin]].
  - simpl in Hold. apply insert_lookup_cases in Hold as [[-> ->]|Hold]; [|by left].
    right. split; [done | left].
  - right. split; [done | by right].
Qed.

Lemma load_item_step_loaded dm pre row :
  items_loaded dm pre → item_id row ∉ (item_id <$> pre) →
  items_loaded (load_item_step dm row) (pre ++ [row]).
Proof.
  intros (Hi & Hii & Hiii & Hiv) Hfresh. unfold load_item_step.
  set (dm0 := _register_item_alias row (item_canonical_name row) _).
  destruct (register_fold_state row (item_aliases row) dm0)
    as (Hitems & _ & _ & Hkeep & Hall & _).
  split_and!.
  - intros r t [Hr| ->%list_elem_of_singleton]%elem_of_app Ht.
    + apply Hkeep. unfold dm0. simpl. do 2 apply insert_keeps_key. by eapply Hi.
    + unfold item_tokens in Ht.
      apply elem_of_cons in Ht as [->|Ht]; [|apply elem_of_cons in Ht as [->|Ht]].
      * apply Hkeep. unfold dm0. simpl. apply insert_keeps_key.
        rewrite lookup_insert_eq. eauto.
      * apply Hkeep. unfold dm0. simpl. rewrite lookup_insert_eq. eauto.
      * apply list_elem_of_fmap in Ht as (a & -> & Ha). by apply Hall.
  - intros t id Hid.
    apply register_fold_lookup in Hid as [Hid|[-> Hin]].
    + unfold dm0 in Hid. simpl in Hid.
      apply insert_lookup_cases in Hid as [[-> ->]|Hid].
      { exists row. split_and!; [apply elem_of_app; right; left | done |].
        unfold item_tokens. right. left. }
      apply insert_lookup_cases in Hid as [[-> ->]|Hid].
      { exists row. split_and!; [apply elem_of_app; right; left | done |].
        unfold item_tokens. left. }
      destruct (Hii _ _ Hid) as (r & Hr & Hrid & Ht).
      exists r. split_and!; [apply elem_of_app; by left | done | done].
    + exists row. split_and!; [apply elem_of_app; right; left | done |].
      unfold item_tokens. by do 2 right.
  - intros r [Hr| ->%list_elem_of_singleton]%elem_of_app; rewrite Hitems; unfold dm0; simpl.
    + rewrite lookup_insert_ne; [by apply Hiii|].
      intros Heq. apply Hfresh. rewrite Heq. by apply list_elem_of_fmap_2.
    + by rewrite lookup_insert_eq.
  - intros id r. rewrite Hitems. unfold dm0. simpl.
    destruct (decide (id = item_id row)) as [->|?].
    + rewrite lookup_insert_eq. intros [= <-]. apply elem_of_app. right. left.
    + rewrite lookup_insert_ne by done. intros Hr. apply elem_of_app. left. by eapply Hiv.
Qed.

Lemma load_items_fold rest pre dm :
  items_loaded dm pre → NoDup (item_id <$> (pre ++ rest)) →
  items_loaded (foldl load_item_step dm rest) (pre ++ rest).
Proof.
  revert pre dm. induction rest as [|row rest IH]; intros pre dm Hl Hnd; simpl.
  - by rewrite app_nil_r.
  - replace (pre ++ row :: rest) with ((pre ++ [row]) ++ rest) in *
      by (by rewrite <-app_assoc).
    apply IH; [|done]. apply load_item_step_loaded; [done|].
    rewrite !fmap_app in Hnd. apply NoDup_app in Hnd as [Hnd _].
    apply NoDup_app in Hnd as (_ & Hdisj & _).
    intros Hin. apply (Hdisj _ Hin). left.
Qed.

Lemma load_region_step_loaded dm pre row :
  regions_loaded dm pre → region_id row ∉ (region_id <$> pre) →
  regions_loaded (load_region_step dm row) (pre ++ [row]).
Proof.
  intros (Hi & Hii & Hiii & Hiv) Hfresh. unfold load_region_step.
  split_and!; simpl.
  - intros r t [Hr| ->%list_elem_of_singleton]%elem_of_app Ht.
    + do 2 apply insert_keeps_key. by eapply Hi.
    + unfold region_tokens in Ht.
      apply elem_of_cons in Ht as [->|Ht];
        [|apply elem_of_cons in Ht as [->|Ht]; [|inversion Ht]].
      * apply insert_keeps_key. rewrite lookup_insert_eq. eauto.
      * rewrite lookup_insert_eq. eauto.
  - intros t id Hid.
    apply insert_lookup_cases in Hid as [[-> ->]|Hid].
    { exists row. split_and!; [apply elem_of_app; right; left | done |].
      unfold region_tokens. right. left. }
    apply insert_lookup_cases in Hid as [[-> ->]|Hid].
    { exists row. split_and!; [apply elem_of_app; right; left | done |].
      unfold region_tokens. left. }
    destruct (Hii _ _ Hid) as (r & Hr & Hrid & Ht).
    exists r. split_and!; [apply elem_of_app; by left | done | done].
  - intros r [Hr| ->%list_elem_of_singleton]%elem_of_app.
    + rewrite lookup_insert_ne; [by apply Hiii|].
      intros Heq. apply Hfresh. rewrite Heq. by apply list_elem_of_fmap_2.
    + by rewrite lookup_insert_eq.
  - intros id r.
    destruct (decide (id = region_id row)) as [->|?].
    + rewrite lookup_insert_eq. intros [= <-]. apply elem_of_app. right. left.
    + rewrite lookup_insert_ne by done. intros Hr. apply elem_of_app. left. by eapply Hiv.
Qed.

Lemma load_regions_fold rest pre dm :
  regions_loaded dm pre → NoDup (region_id <$> (pre ++ rest)) →
  regions_loaded (foldl load_region_step dm rest) (pre ++ rest).
Proof.
  revert pre dm. induction rest as [|row rest IH]; intros pre dm Hl Hnd; simpl.
  - by rewrite app_nil_r.
  - replace (pre ++ row :: rest) with ((pre ++ [row]) ++ rest) in *
      by (by rewrite <-app_assoc).
    apply IH; [|done]. apply load_region_step_loaded; [done|].
    rewrite !fmap_app in Hnd. apply NoDup_app in Hnd as [Hnd _].
    apply NoDup_app in Hnd as (_ & Hdisj & _).
    intros Hin. apply (Hdisj _ Hin). left.
Qed.

Lemma load_items_region_state dm :
  dm_regions (_load_items dm) = dm_regions dm
  ∧ region_alias_index (_load_items dm) = region_alias_index dm.
Proof.
  unfold _load_items.
  generalize (items_table (conn_db (dm_conn (dm_execute id dm)))).
  assert (Hs : dm_regions (dm_execute id dm) = dm_regions dm
               ∧ region_alias_index (dm_execute id dm) = region_alias_index dm) by done.
  revert Hs. generalize (dm_execute id dm) as dm0.
  intros dm0 Hs rows. revert dm0 Hs.
  induction rows as [|row rows IH]; intros dm0 Hs; simpl; [done|].
  apply IH.
  match goal with
  | |- context [foldl ?f ?d (item_aliases row)] =>
      destruct (register_fold_state row (item_aliases row) d) as (_ & Hr & Hri & _)
  end.
  rewrite Hr, Hri. done.
Qed.

Lemma items_loaded_empty dm :
  dm_items dm = ∅ → item_alias_index dm = ∅ → items_loaded dm [].
Proof.
  intros Hi Ha. unfold items_loaded. rewrite Hi, Ha. split_and!.
  - intros r t Hr. inversion Hr.
  - intros t id. by rewrite lookup_empty.
  - intros r Hr. inversion Hr.
  - intros id r. by rewrite lookup_empty.
Qed.

Lemma regions_loaded_empty dm :
  dm_regions dm = ∅ → region_alias_index dm = ∅ → regions_loaded dm [].
Proof.
  intros Hi Ha. unfold regions_loaded. rewrite Hi, Ha. split_and!.
  - intros r t Hr. inversion Hr.
  - intros t id. by rewrite lookup_empty.
  - intros r Hr. inversion Hr.
  - intros id r. by rewrite lookup_empty.
Qed.

(** The resolver built from a store whose primary keys are unique indexes
    exactly its records. *)
Lemma new_DimensionManager_loaded conn :
  primary_keys_unique (conn_db conn) →
  items_loaded (new_DimensionManager conn) (items_table (conn_db conn))
  ∧ regions_loaded (new_DimensionManager conn) (regions_table (conn_db conn)).
Proof.
  intros [Hni Hnr]. unfold new_DimensionManager.
  set (dm0 := {| dm_conn := conn; dm_items := ∅; item_alias_index := ∅;
                 slug_index := ∅; dm_regions := ∅; region_alias_index := ∅;
                 region_code_index := ∅ |}).
  assert (Hitems : items_loaded (_load_items dm0) (items_table (conn_db conn))).
  { apply (load_items_fold (items_table (conn_db conn)) [] (dm_execute id dm0));
      [|done].
    by apply items_loaded_empty. }
  split.
  - destruct (load_regions_item_state (_load_items dm0)) as (Hi & Ha & _).
    unfold items_loaded. rewrite Hi, Ha. exact Hitems.
  - assert (Hdb : regions_table (conn_db (dm_conn (dm_execute id (_load_items dm0))))
                  = regions_table (conn_db conn)).
    { simpl. by rewrite load_items_conn. }
    unfold _load_regions. rewrite Hdb.
    apply (load_regions_fold (regions_table (conn_db conn)) []
             (dm_execute id (_load_items dm0))); [|done].
    destruct (load_items_region_state dm0) as (Hr & Hri).
    apply regions_loaded_empty; simpl; by rewrite ?Hr, ?Hri.
Qed.

(** *** The first run: what each resolution records in the store *)

Lemma run_inv_new conn :
  primary_keys_unique (conn_db conn) → run_inv (new_DimensionManager conn).
Proof.
  intros Hpk.
  destruct (new_DimensionManager_loaded conn Hpk)
    as [(_ & _ & _ & Hiv) (_ & Hrii & Hriii & _)].
  split_and!.
  - apply new_DimensionManager_inv.
  - by rewrite new_DimensionManager_db.
  - intros id r Hr. rewrite new_DimensionManager_db. by eapply Hiv.
  - intros t id Hid. destruct (Hrii _ _ Hid) as (r & Hr & Hrid & Ht).
    exists r. rewrite new_DimensionManager_db, <-Hrid. split_and!; auto.
Qed.

Lemma set_item_aliases_member r0 id upd db :
  r0 ∈ items_table db →
  (if decide (item_id r0 = id) then with_aliases r0 upd else r0)
    ∈ items_table (set_item_aliases id upd db).
Proof.
  intros Hin. simpl.
  apply (list_elem_of_fmap_2
           (λ r, if decide (item_id r = id)
                 then {| item_id := item_id r; item_slug := item_slug r;
                         item_canonical_name := item_canonical_name r;
                         item_aliases := upd |}
                 else r)) in Hin.
  exact Hin.
Qed.

Lemma set_item_aliases_ids id upd db :
  item_id <$> items_table (set_item_aliases id upd db) = item_id <$> items_table db.
Proof.
  simpl. rewrite <-list_fmap_compose. apply list_fmap_ext.
  intros i x _. simpl. by case_decide.
Qed.

Lemma ensure_item_region_state alias dm :
  dm_regions (ensure_item alias dm).1 = dm_regions dm
  ∧ region_alias_index (ensure_item alias dm).1 = region_alias_index dm.
Proof.
  destruct (ensure_item_cases alias dm) as [(r & _ & ->)|(_ & _ & ->)]; [|done].
  cbn [fst]. by destruct (append_cases r alias dm) as [[_ ->]|[_ ->]].
Qed.

Lemma region_sound_ext dm dm' :
  dm_regions dm' = dm_regions dm → region_alias_index dm' = region_alias_index dm →
  regions_table (dm_db dm') = regions_table (dm_db dm) →
  region_sound dm → region_sound dm'.
Proof. unfold region_sound. intros -> -> ->. done. Qed.

Lemma run_inv_item_update r alias dm :
  run_inv dm → dm_items dm !! item_id r = Some r →
  item_inv (_register_item_alias (with_aliases r (item_aliases r ++ [alias])) alias
              (set_dm_item (with_aliases r (item_aliases r ++ [alias]))
                 (dm_execute (set_item_aliases (item_id r) (item_aliases r ++ [alias])) dm))) →
  let dm' := _register_item_alias (with_aliases r (item_aliases r ++ [alias])) alias
               (set_dm_item (with_aliases r (item_aliases r ++ [alias]))
                  (dm_execute (set_item_aliases (item_id r) (item_aliases r ++ [alias])) dm)) in
  run_inv dm'
  ∧ item_claims (dm_db dm') (item_id r) (_normalize_alias alias)
  ∧ (∀ id0 t0, item_claims (dm_db dm) id0 t0 → item_claims (dm_db dm') id0 t0).
Proof.
  intros (Hinv & [Hni Hnr] & Hsync & Hreg) Hr Hinv' dm'.
  pose proof (Hsync _ _ Hr) as Hrin.
  assert (Hdb : dm_db dm' = set_item_aliases (item_id r) (item_aliases r ++ [alias]) (dm_db dm))
    by reflexivity.
  assert (Hmem : with_aliases r (item_aliases r ++ [alias]) ∈ items_table (dm_db dm')).
  { rewrite Hdb.
    pose proof (set_item_aliases_member r (item_id r) (item_aliases r ++ [alias])
                  (dm_db dm) Hrin) as Hm.
    by rewrite decide_True in Hm. }
  split_and!.
  - split_and!; [exact Hinv' | split | |].
    + rewrite Hdb. by rewrite set_item_aliases_ids.
    + rewrite Hdb. exact Hnr.
    + intros id0 r0. change (dm_items dm') with
        (<[item_id r := with_aliases r (item_aliases r ++ [alias])]> (dm_items dm)).
      destruct (decide (id0 = item_id r)) as [->|Hne].
      * rewrite lookup_insert_eq. by intros [= <-].
      * rewrite lookup_insert_ne by done. intros Hr0. rewrite Hdb.
        pose proof (set_item_aliases_member r0 (item_id r) (item_aliases r ++ [alias])
                      (dm_db dm) (Hsync _ _ Hr0)) as Hm.
        destruct Hinv as (_ & H2 & _). rewrite (H2 _ _ Hr0) in Hm.
        by rewrite decide_False in Hm.
    + eapply region_sound_ext; [| | |exact Hreg]; reflexivity.
  - exists (with_aliases r (item_aliases r ++ [alias])). split_and!; [done | done |].
    cbn. rewrite fmap_app. apply elem_of_app. right. left.
  - intros id0 t0 (r0 & Hr0 & <- & Ht0). rewrite Hdb.
    pose proof (set_item_aliases_member r0 (item_id r) (item_aliases r ++ [alias])
                  (dm_db dm) Hr0) as Hm.
    case_decide as Hid.
    + assert (r0 = r) as -> by (by eapply (NoDup_fmap_same item_id)).
      eexists. split_and!; [exact Hm | done |].
      cbn. rewrite fmap_app. apply elem_of_app. by left.
    + exists r0. split_and!; done.
Qed.

Lemma run_inv_item_create alias cand dm :
  run_inv dm → item_inv (create_item alias cand dm).1 →
  run_inv (create_item alias cand dm).1
  ∧ item_claims (dm_db (create_item alias cand dm).1) (create_item alias cand dm).2
      (_normalize_alias alias)
  ∧ (∀ id0 t0, item_claims (dm_db dm) id0 t0 →
               item_claims (dm_db (create_item alias cand dm).1) id0 t0).
Proof.
  intros (Hinv & [Hni Hnr] & Hsync & Hreg) Hinv'.
  pose proof (create_item_db alias cand dm) as Hdb.
  set (row := {| item_id := next_id (item_id <$> items_table (dm_db dm));
                 item_slug := _unique_item_slug dm cand;
                 item_canonical_name := alias; item_aliases := [alias] |}) in *.
  split_and!.
  - split_and!; [exact Hinv' | split | |].
    + rewrite Hdb. cbn. rewrite fmap_app. apply NoDup_app.
      split_and!; [done | | apply NoDup_singleton].
      intros x Hx ->%list_elem_of_singleton. by apply next_id_fresh in Hx.
    + rewrite Hdb. exact Hnr.
    + intros id0 r0. rewrite Hdb.
      change (dm_items (create_item alias cand dm).1)
        with (<[item_id row := row]> (dm_items dm)).
      destruct (decide (id0 = item_id row)) as [->|Hne].
      * rewrite lookup_insert_eq. intros [= <-]. apply elem_of_app. right. left.
      * rewrite lookup_insert_ne by done. intros Hr0.
        apply elem_of_app. left. by eapply Hsync.
    + eapply region_sound_ext; [| | |exact Hreg]; reflexivity.
  - exists row. rewrite Hdb. split_and!; [apply elem_of_app; right; left | done | left].
  - intros id0 t0 (r0 & Hr0 & <- & Ht0). rewrite Hdb.
    exists r0. split_and!; [apply elem_of_app; by left | done | done].
Qed.

Lemma ensure_item_run alias dm :
  run_inv dm →
  run_inv (ensure_item alias dm).1
  ∧ item_claims (dm_db (ensure_item alias dm).1) (ensure_item alias dm).2
      (_normalize_alias alias)
  ∧ (∀ id0 t0, item_claims (dm_db dm) id0 t0 →
               item_claims (dm_db (ensure_item alias dm).1) id0 t0)
  ∧ regions_table (dm_db (ensure_item alias dm).1) = regions_table (dm_db dm).
Proof.
  intros Hrun.
  pose proof Hrun as (Hinv & _ & Hsync & _).
  pose proof (ensure_item_inv alias dm Hinv) as Hinv'.
  destruct (ensure_item_frame alias dm) as (Hregions & _).
  assert (Hgoal : run_inv (ensure_item alias dm).1
    ∧ item_claims (dm_db (ensure_item alias dm).1) (ensure_item alias dm).2
        (_normalize_alias alias)
    ∧ (∀ id0 t0, item_claims (dm_db dm) id0 t0 →
                 item_claims (dm_db (ensure_item alias dm).1) id0 t0));
    [|destruct Hgoal as (? & ? & ?); done].
  clear Hregions. revert Hinv'.
  destruct (ensure_item_cases alias dm) as [(r & Hfound & ->)|(_ & _ & ->)];
    cbn [fst snd]; intros Hinv'.
  - assert (Hr : dm_items dm !! item_id r = Some r)
      by (destruct Hfound as [H|[_ H]]; by eapply item_by_token_stored).
    revert Hinv'.
    destruct (append_cases r alias dm) as [[Hin ->]|[Hnotin ->]]; intros Hinv'.
    + split_and!; [done | | done].
      exists r. split_and!; [by eapply Hsync | done | done].
    + by apply run_inv_item_update.
  - by apply run_inv_item_create.
Qed.

Lemma region_by_token_Some dm t r :
  region_by_token dm t = Some r ↔
  ∃ id, region_alias_index dm !! t = Some id ∧ dm_regions dm !! id = Some r.
Proof.
  unfold region_by_token. destruct (region_alias_index dm !! t) as [id|]; simpl.
  - split; [eauto | by intros (? & [= <-] & ?)].
  - split; [done | by intros (? & ? & ?)].
Qed.

Lemma ensure_region_run alias dm :
  run_inv dm →
  run_inv (ensure_region alias dm).1
  ∧ region_claims (dm_db (ensure_region alias dm).1) (ensure_region alias dm).2
      (_normalize_alias alias)
  ∧ (∀ id0 t0, region_claims (dm_db dm) id0 t0 →
               region_claims (dm_db (ensure_region alias dm).1) id0 t0)
  ∧ items_table (dm_db (ensure_region alias dm).1) = items_table (dm_db dm).
Proof.
  intros (Hinv & [Hni Hnr] & Hsync & Hreg).
  destruct (ensure_region_cases alias dm) as [(r & Hfound & ->)|(Hnone & ->)];
    cbn [fst snd].
  - split_and!; [done | | done | done].
    apply region_by_token_Some in Hfound as (id & Hid & Hr).
    destruct (Hreg _ _ Hid) as (r' & Hr' & Hrid & Hin & Ht).
    assert (r' = r) as -> by congruence.
    exists r. split_and!; done.
  - pose proof (create_region_db alias dm) as Hdb.
    set (row := {| region_id := next_id (region_id <$> regions_table (dm_db dm));
                   region_code := _unique_region_code dm (slugify alias);
                   region_name := alias; region_type := "unknown" |}) in *.
    assert (Hfresh : ∀ r, r ∈ regions_table (dm_db dm) → region_id r ≠ region_id row).
    { intros r Hr Heq.
      apply (next_id_fresh (region_id <$> regions_table (dm_db dm))).
      change (next_id (region_id <$> regions_table (dm_db dm))) with (region_id row).
      rewrite <-Heq. by apply list_elem_of_fmap_2. }
    split_and!.
    + split_and!; [| split | |].
      * eapply item_inv_ext; [| |exact Hinv]; reflexivity.
      * rewrite Hdb. exact Hni.
      * rewrite Hdb. cbn. rewrite fmap_app. apply NoDup_app.
        split_and!; [done | | apply NoDup_singleton].
        intros x Hx ->%list_elem_of_singleton. by apply next_id_fresh in Hx.
      * intros id0 r0 Hr0. rewrite Hdb. by eapply Hsync.
      * intros t id.
        change (region_alias_index (create_region alias dm).1)
          with (<[_normalize_alias alias := region_id row]>
                  (<[_normalize_alias (region_code row) := region_id row]>
                     (region_alias_index dm))).
        change (dm_regions (create_region alias dm).1)
          with (<[region_id row := row]> (dm_regions dm)).
        rewrite Hdb. intros Hid.
        apply insert_lookup_cases in Hid as [[-> ->]|Hid].
        { exists row. rewrite lookup_insert_eq.
          split_and!; [done | done | apply elem_of_app; right; left | right; left]. }
        apply insert_lookup_cases in Hid as [[-> ->]|Hid].
        { exists row. rewrite lookup_insert_eq.
          split_and!; [done | done | apply elem_of_app; right; left | left]. }
        destruct (Hreg _ _ Hid) as (r & Hr & Hrid & Hin & Ht).
        exists r. rewrite lookup_insert_ne by (rewrite <-Hrid; intros Heq;
                                               by apply (Hfresh r Hin)).
        split_and!; [done | done | apply elem_of_app; by left | done].
    + exists row. rewrite Hdb.
      split_and!; [apply elem_of_app; right; left | done | right; left].
    + intros id0 t0 (r0 & Hr0 & <- & Ht0). rewrite Hdb.
      exists r0. split_and!; [apply elem_of_app; by left | done | done].
    + by rewrite Hdb.
Qed.

Lemma item_claims_ext db db' id t :
  items_table db' = items_table db → item_claims db id t → item_claims db' id t.
Proof. unfold item_claims. by intros ->. Qed.

Lemma region_claims_ext db db' id t :
  regions_table db' = regions_table db → region_claims db id t → region_claims db' id t.
Proof. unfold region_claims. by intros ->. Qed.

(** *** The trace of a run *)

Lemma resolved_ext db db' rows upserts :
  items_table db' = items_table db → regions_table db' = regions_table db →
  resolved db rows upserts → resolved db' rows upserts.
Proof.
  intros Hi Hr Hres. eapply Forall2_impl; [exact Hres|].
  intros row kv (iid & rid & d & H1 & H2 & H3 & H4).
  exists iid, rid, d. split_and!; [by eapply item_claims_ext | by eapply region_claims_ext | done | done].
Qed.

Lemma ingest_row_run row dm dm' :
  run_inv dm → ingest_row row dm = (dm', None) →
  ∃ iid rid d,
    first_of_month (row_year row) (row_month row) = Ok d
    ∧ item_claims (dm_db dm') iid (_normalize_alias (row_item_alias row))
    ∧ region_claims (dm_db dm') rid (_normalize_alias (row_region_alias row))
    ∧ series_table (dm_db dm')
      = <[(iid, rid, d) := decimal_of (row_index_value row)]> (series_table (dm_db dm))
    ∧ run_inv dm'
    ∧ (∀ id0 t0, item_claims (dm_db dm) id0 t0 → item_claims (dm_db dm') id0 t0)
    ∧ (∀ id0 t0, region_claims (dm_db dm) id0 t0 → region_claims (dm_db dm') id0 t0).
Proof.
  intros Hrun. unfold ingest_row.
  destruct (ensure_item_run (row_item_alias row) dm Hrun) as (Hrun1 & Hc1 & Hm1 & Hreg1).
  destruct (ensure_item_audit (row_item_alias row) dm) as (_ & _ & Hs1).
  destruct (ensure_item (row_item_alias row) dm) as [dm1 iid]. cbn [fst snd] in *.
  destruct (ensure_region_run (row_region_alias row) dm1 Hrun1)
    as (Hrun2 & Hc2 & Hm2 & Hit2).
  destruct (ensure_region_audit (row_region_alias row) dm1) as (_ & _ & Hs2).
  destruct (ensure_region (row_region_alias row) dm1) as [dm2 rid]. cbn [fst snd] in *.
  destruct (first_of_month (row_year row) (row_month row)) as [d|e]; [|done].
  intros [= <-]. exists iid, rid, d. split_and!.
  - done.
  - eapply item_claims_ext; [|exact Hc1]. exact Hit2.
  - exact Hc2.
  - change (series_table (dm_db (dm_execute
              (upsert_series (iid, rid, d) (decimal_of (row_index_value row))) dm2)))
      with (<[(iid, rid, d) := decimal_of (row_index_value row)]>
              (series_table (dm_db dm2))).
    by rewrite Hs2, Hs1.
  - exact Hrun2.
  - intros id0 t0 H0. eapply item_claims_ext; [|exact (Hm1 _ _ H0)]. exact Hit2.
  - intros id0 t0 H0. apply Hm2. eapply region_claims_ext; [|exact H0]. exact Hreg1.
Qed.

Lemma ingest_rows_run rows dm dm' :
  run_inv dm → ingest_rows rows dm = (dm', None) →
  ∃ upserts,
    resolved (dm_db dm') rows upserts
    ∧ series_table (dm_db dm') = apply_upserts (series_table (dm_db dm)) upserts
    ∧ run_inv dm'
    ∧ (∀ id0 t0, item_claims (dm_db dm) id0 t0 → item_claims (dm_db dm') id0 t0)
    ∧ (∀ id0 t0, region_claims (dm_db dm) id0 t0 → region_claims (dm_db dm') id0 t0).
Proof.
  revert dm. induction rows as [|row rows IH]; intros dm Hrun; simpl.
  - intros [= <-]. exists []. split_and!; [constructor | done | done | done | done].
  - destruct (ingest_row row dm) as [dm1 [e|]] eqn:Hrow; [done|].
    intros Hrest.
    destruct (ingest_row_run row dm dm1 Hrun Hrow)
      as (iid & rid & d & Hd & Hci & Hcr & Hs & Hrun1 & Hmi & Hmr).
    destruct (IH dm1 Hrun1 Hrest) as (upserts & Hres & Hs' & Hrun' & Hmi' & Hmr').
    exists (((iid, rid, d), decimal_of (row_index_value row)) :: upserts).
    split_and!.
    + constructor; [|done]. exists iid, rid, d. split_and!; auto.
    + rewrite Hs', Hs. done.
    + done.
    + auto.
    + auto.
Qed.

(** *** The second run: every alias is found, nothing is created *)

Lemma ensure_item_stable db alias id dm :
  items_loaded dm (items_table db) → primary_keys_unique db → alias_unique db →
  item_claims db id (_normalize_alias alias) →
  ensure_item alias dm = (dm, id).
Proof.
  intros (Hi & Hii & Hiii & _) [Hni _] [Hau _] (r & Hr & <- & Ht).
  assert (Htok : _normalize_alias alias ∈ item_tokens r) by (by do 2 right).
  destruct (Hi r _ Hr Htok) as [id' Hid'].
  destruct (Hii _ _ Hid') as (r' & Hr' & <- & Ht').
  assert (r' = r) as ->.
  { eapply (NoDup_fmap_same item_id); [exact Hni | done | done |].
    by eapply Hau. }
  unfold ensure_item, item_by_token. rewrite Hid'. cbn.
  rewrite (Hiii r Hr). unfold _append_item_alias_if_needed.
  by rewrite bool_decide_eq_true_2.
Qed.

Lemma ensure_region_stable db alias id dm :
  regions_loaded dm (regions_table db) → primary_keys_unique db → alias_unique db →
  region_claims db id (_normalize_alias alias) →
  ensure_region alias dm = (dm, id).
Proof.
  intros (Hi & Hii & Hiii & _) [_ Hnr] [_ Hau] (r & Hr & <- & Ht).
  destruct (Hi r _ Hr Ht) as [id' Hid'].
  destruct (Hii _ _ Hid') as (r' & Hr' & <- & Ht').
  assert (r' = r) as ->.
  { eapply (NoDup_fmap_same region_id); [exact Hnr | done | done |].
    by eapply Hau. }
  unfold ensure_region, region_by_token. rewrite Hid'. cbn.
  by rewrite (Hiii r Hr).
Qed.

Lemma ingest_rows_rerun db rows upserts dm :
  items_loaded dm (items_table db) → regions_loaded dm (regions_table db) →
  primary_keys_unique db → alias_unique db → resolved db rows upserts →
  ∃ dm', ingest_rows rows dm = (dm', None)
         ∧ series_table (dm_db dm') = apply_upserts (series_table (dm_db dm)) upserts
         ∧ items_table (dm_db dm') = items_table (dm_db dm)
         ∧ regions_table (dm_db dm') = regions_table (dm_db dm).
Proof.
  intros Hli Hlr Hpk Hau Hres. revert dm Hli Hlr.
  induction Hres as [|row kv rows upserts (iid & rid & d & Hci & Hcr & Hd & ->) _ IH];
    intros dm Hli Hlr.
  - exists dm. done.
  - cbn [ingest_rows]. unfold ingest_row.
    rewrite (ensure_item_stable db _ iid dm Hli Hpk Hau Hci).
    rewrite (ensure_region_stable db _ rid dm Hlr Hpk Hau Hcr).
    rewrite Hd.
    destruct (IH (dm_execute (upsert_series (iid, rid, d)
                                (decimal_of (row_index_value row))) dm) Hli Hlr)
      as (dm' & Hrun & Hs & Hit & Hrt).
    exists dm'. split_and!; [done | | done | done].
    rewrite Hs. done.
Qed.

(** *** The engine: what a call leaves in the store *)

Lemma record_run_tables run_id started_at checksum final_status (st : frame) :
  same_but_runs (w_db st.1) (w_db (record_run run_id started_at checksum final_status st)).
Proof.
  destruct (record_run_effect run_id started_at checksum final_status st) as (_ & _ & H).
  destruct (single_statement_fault (fault_at st.1 0)); destruct H as [-> _];
    by repeat split.
Qed.

Lemma ingest_with_engine_store file_path rows checksum w :
  match (ingest_with_engine file_path rows checksum w).2 with
  | Ok _ =>
      (transaction_body file_path rows (fresh_conn (w_db w))).2 = None
      ∧ same_but_runs (committed_db file_path rows (w_db w))
          (w_db (ingest_with_engine file_path rows checksum w).1)
  | Raise _ =>
      same_but_runs (w_db w) (w_db (ingest_with_engine file_path rows checksum w).1)
  end.
Proof.
  rewrite ingest_with_engine_eq. cbn [fst snd].
  destruct (ingest_try_store file_path rows (tick_clock (draw_uuid w), []))
    as (_ & Herr & Hok).
  cbn [fst snd] in Herr, Hok.
  change (w_db (tick_clock (draw_uuid w))) with (w_db w) in Herr, Hok.
  destruct ((ingest_try file_path rows (tick_clock (draw_uuid w), [])).2) as [e|].
  - rewrite <-Herr by eauto. apply record_run_tables.
  - destruct (Hok eq_refl) as [Hbody Hdb]. split; [done|].
    rewrite <-Hdb. apply record_run_tables.
Qed.

Lemma transaction_body_run file_path rows db :
  primary_keys_unique db →
  (transaction_body file_path rows (fresh_conn db)).2 = None →
  ∃ upserts,
    resolved (committed_db file_path rows db) rows upserts
    ∧ series_table (committed_db file_path rows db)
      = apply_upserts (series_table db) upserts
    ∧ primary_keys_unique (committed_db file_path rows db).
Proof.
  intros Hpk. unfold committed_db, transaction_body.
  set (conn := conn_execute _ _).
  assert (Hpk' : primary_keys_unique (conn_db conn)) by exact Hpk.
  pose proof (run_inv_new conn Hpk') as Hrun.
  destruct (ingest_rows rows (new_DimensionManager conn)) as [dm' err] eqn:E.
  cbn [fst snd]. intros ->.
  destruct (ingest_rows_run _ _ _ Hrun E) as (upserts & Hres & Hs & (_ & Hpk2 & _) & _).
  exists upserts. split_and!; [exact Hres | | exact Hpk2].
  change (conn_db (dm_conn dm')) with (dm_db dm').
  rewrite Hs, new_DimensionManager_db. done.
Qed.

Lemma transaction_body_rerun file_path rows upserts db :
  primary_keys_unique db → alias_unique db → resolved db rows upserts →
  (transaction_body file_path rows (fresh_conn db)).2 = None
  ∧ series_table (committed_db file_path rows db)
    = apply_upserts (series_table db) upserts.
Proof.
  intros Hpk Hau Hres. unfold committed_db, transaction_body.
  set (conn := conn_execute _ _).
  assert (Hpk' : primary_keys_unique (conn_db conn)) by exact Hpk.
  destruct (new_DimensionManager_loaded conn Hpk') as [Hli Hlr].
  destruct (ingest_rows_rerun db rows upserts (new_DimensionManager conn)
              Hli Hlr Hpk Hau Hres) as (dm' & -> & Hs & _).
  cbn [fst snd]. split; [done|].
  change (conn_db (dm_conn dm')) with (dm_db dm').
  rewrite Hs, new_DimensionManager_db. done.
Qed.

(** C1, amended.  Take a store whose dimension tables have unique primary
    keys and a call of [ingest_with_engine] on a batch that returns
    normally.  The series table is then the table before the call with one
    upsert per row applied in order, last write winning, each under a key
    (item id, region id, first of the month) whose item and region carry the
    row's alias tokens in the store; the raw table has grown by the size of
    the batch.  If, after that call, no alias token belongs to two items or
    to two regions, a second call on the same batch leaves the series table
    as the first call left it, whether it returns or raises, and when it
    returns the raw table has grown by the size of the batch again. *)
Theorem idempotent_ingestion (file_path : string) (rows : list base_row)
    (checksum : string) (w : world) (s1 : run_summary) :
  let r1 := ingest_with_engine file_path rows checksum w in
  let r2 := ingest_with_engine file_path rows checksum r1.1 in
  primary_keys_unique (w_db w) →
  r1.2 = Ok s1 →
  alias_unique (w_db r1.1) →
  series_table (w_db r2.1) = series_table (w_db r1.1)
  ∧ length (raw_series_table (w_db r1.1))
    = (length (raw_series_table (w_db w)) + length rows)%nat
  ∧ (∀ s2, r2.2 = Ok s2 →
           length (raw_series_table (w_db r2.1))
           = (length (raw_series_table (w_db r1.1)) + length rows)%nat)
  ∧ ∃ upserts, resolved (w_db r1.1) rows upserts
               ∧ series_table (w_db r1.1)
                 = apply_upserts (series_table (w_db w)) upserts.
Proof.
  intros r1 r2 Hpk H1 Hau.
  pose proof (ingest_with_engine_store file_path rows checksum w) as E1.
  change (ingest_with_engine file_path rows checksum w) with r1 in E1.
  rewrite H1 in E1. destruct E1 as [Hb1 (Hi1 & Hr1 & Hraw1 & Hs1)].
  destruct (transaction_body_run file_path rows (w_db w) Hpk Hb1)
    as (upserts & Hres & Hser & Hpk1).
  assert (Hres1 : resolved (w_db r1.1) rows upserts)
    by (eapply resolved_ext; [exact Hi1 | exact Hr1 | exact Hres]).
  assert (Hpk1' : primary_keys_unique (w_db r1.1)).
  { destruct Hpk1 as [Ha Hb]. split; [by rewrite Hi1 | by rewrite Hr1]. }
  destruct (transaction_body_rerun file_path rows upserts (w_db r1.1) Hpk1' Hau Hres1)
    as [Hb2 Hser2].
  pose proof (ingest_with_engine_store file_path rows checksum r1.1) as E2.
  change (ingest_with_engine file_path rows checksum r1.1) with r2 in E2.
  destruct (transaction_body_audit file_path rows (w_db w)) as [Hraw _].
  destruct (transaction_body_audit file_path rows (w_db r1.1)) as [Hraw2 _].
  split_and!.
  - destruct (r2.2) as [s2|e].
    + destruct E2 as [_ (_ & _ & _ & ->)].
      rewrite Hser2, Hs1, Hser. apply apply_upserts_idemp.
    + by destruct E2 as (_ & _ & _ & ->).
  - rewrite Hraw1. unfold committed_db. rewrite Hraw, length_app.
    unfold raw_payload. by rewrite length_fmap.
  - intros s2 H2. rewrite H2 in E2. destruct E2 as [_ (_ & _ & -> & _)].
    unfold committed_db. rewrite Hraw2, length_app.
    unfold raw_payload. by rewrite length_fmap.
  - exists upserts. split; [done|]. by rewrite Hs1.
Qed.

End Idempotence.

Section IdempotenceExamples.
Local Existing Instance example_runtime.

(** C1 as stated fails for a batch on which the call raises.  The date of
    the row cannot be built, the transaction is rolled back, and the raw
    table stays empty after the first and after the second call, although
    the batch has one row; each call records a failed run. *)
Lemma failed_run_adds_no_raw_rows :
  raised month_13_run.2 = Some (ValueError "month must be in 1..12")
  ∧ raised month_13_rerun.2 = Some (ValueError "month must be in 1..12")
  ∧ length month_13_rows = 1%nat
  ∧ length (raw_series_table (w_db month_13_run.1)) = 0%nat
  ∧ length (raw_series_table (w_db month_13_rerun.1)) = 0%nat
  ∧ run_status <$> etl_runs_table (w_db month_13_rerun.1) = ["failed"; "failed"].
Proof. vm_compute. split_and!; reflexivity. Qed.

(** Why the invariant on alias tokens is needed.  With rows read in table
    order, the first call creates the item of "???" under the fallback slug
    "item", whose token is the one of the name "Item" of the first item.
    The second call then resolves "Item" to the new item and writes a fact
    that the first call did not write; both calls return. *)
Lemma shared_token_breaks_idempotence :
  item_slug <$> items_table (w_db stray_run.1) = ["foo"; "item"]
  ∧ summary_status <$> returned stray_run.2 = Some "success"
  ∧ summary_status <$> returned stray_rerun.2 = Some "success"
  ∧ series_table (w_db stray_run.1) !! (2, 1, (2023, 1, 1)) = None
  ∧ series_table (w_db stray_rerun.1) !! (2, 1, (2023, 1, 1)) = Some "140.0".
Proof. vm_compute. split_and!; reflexivity. Qed.

Lemma first_run_tables :
  let r1 := ingest_with_engine "annex.xlsx" two_rows "c0ffee" empty_world in
  items_table (w_db r1.1)
  = [{| item_id := 1; item_slug := "rice"; item_canonical_name := "Rice";
        item_aliases := ["Rice"] |};
     {| item_id := 2; item_slug := "milk"; item_canonical_name := "Milk";
        item_aliases := ["Milk"] |}]
  ∧ regions_table (w_db r1.1)
    = [{| region_id := 1; region_code := "all-india"; region_name := "All India";
          region_type := "unknown" |}].
Proof. vm_compute. split; reflexivity. Qed.

Lemma first_run_alias_unique :
  alias_unique (w_db (ingest_with_engine "annex.xlsx" two_rows "c0ffee" empty_world).1).
Proof.
  destruct first_run_tables as [Hi Hr].
  split; intros r1 r2 t; rewrite ?Hi, ?Hr; intros Hr1 Hr2 Ht1 Ht2.
  - apply elem_of_cons in Hr1 as [->|Hr1];
      [|apply elem_of_cons in Hr1 as [->|Hr1]; [|by inversion Hr1]];
      (apply elem_of_cons in Hr2 as [->|Hr2];
       [|apply elem_of_cons in Hr2 as [->|Hr2]; [|by inversion Hr2]]);
      try reflexivity; exfalso; vm_compute in Ht1, Ht2;
      repeat (apply elem_of_cons in Ht1 as [->|Ht1]);
      try (by inversion Ht1);
      repeat (apply elem_of_cons in Ht2 as [Ht2|Ht2]; [discriminate Ht2|]);
      by inversion Ht2.
  - apply elem_of_cons in Hr1 as [->|Hr1]; [|by inversion Hr1].
    apply elem_of_cons in Hr2 as [->|Hr2]; [|by inversion Hr2].
    reflexivity.
Qed.

Lemma first_run_returns :
  let r1 := ingest_with_engine "annex.xlsx" two_rows "c0ffee" empty_world in
  let r2 := ingest_with_engine "annex.xlsx" two_rows "c0ffee" r1.1 in
  r1.2 = Ok {| summary_run_id := 0; summary_status := "success";
               summary_rows_processed := 2 |}
  ∧ r2.2 = Ok {| summary_run_id := 1; summary_status := "success";
                 summary_rows_processed := 2 |}.
Proof. vm_compute. split; reflexivity. Qed.

Lemma idempotent_ingestion_witness :
  let r1 := ingest_with_engine "annex.xlsx" two_rows "c0ffee" empty_world in
  let r2 := ingest_with_engine "annex.xlsx" two_rows "c0ffee" r1.1 in
  series_table (w_db r2.1) = series_table (w_db r1.1)
  ∧ length (raw_series_table (w_db r1.1)) = 2%nat
  ∧ length (raw_series_table (w_db r2.1)) = 4%nat.
Proof.
  cbv zeta. destruct first_run_returns as [H1 H2].
  destruct (idempotent_ingestion "annex.xlsx" two_rows "c0ffee" empty_world _
              (conj (NoDup_nil_2 (A := Z)) (NoDup_nil_2 (A := Z))) H1 first_run_alias_unique)
    as (Hs & Hr1 & Hr2 & _).
  split_and!; [exact Hs | exact Hr1 |].
  rewrite (Hr2 _ H2), Hr1. reflexivity.
Defined.

End IdempotenceExamples.

(** ** Text operations *)

Section Text.

Lemma all_chars_impl (p q : ascii → bool) s :
  (∀ c, p c = true → q c = true) → all_chars p s = true → all_chars q s = true.
Proof.
  intros Hpq. induction s as [|c r IH]; simpl; [done|].
  intros [Hc Hr]%andb_true_iff. rewrite (Hpq c Hc). simpl. by apply IH.
Qed.

Lemma all_chars_filter p s : all_chars p (Str.filter p s) = true.
Proof.
  induction s as [|c r IH]; simpl; [done|].
  destruct (p c) eqn:Hc; simpl; [by rewrite Hc|done].
Qed.

Lemma all_chars_map (p q : ascii → bool) f s :
  (∀ c, p c = true → q (f c) = true) →
  all_chars p s = true → all_chars q (Str.map f s) = true.
Proof.
  intros Hf. induction s as [|c r IH]; simpl; [done|].
  intros [Hc Hr]%andb_true_iff. rewrite (Hf c Hc). simpl. by apply IH.
Qed.

Lemma all_chars_lstrip p s : all_chars p s = true → all_chars p (Str.lstrip s) = true.
Proof.
  induction s as [|c r IH]; simpl; [done|].
  intros H. destruct (Str.is_space c); [|done].
  apply andb_true_iff in H as [_ H]. by apply IH.
Qed.

Lemma all_chars_rstrip p s : all_chars p s = true → all_chars p (Str.rstrip s) = true.
Proof.
  induction s as [|c r IH]; simpl; [done|].
  intros [Hc Hr]%andb_true_iff. specialize (IH Hr).
  destruct (Str.rstrip r) as [|c' r'].
  - destruct (Str.is_space c); simpl; [done | by rewrite Hc].
  - simpl in *. by rewrite Hc.
Qed.

Lemma all_chars_strip p s : all_chars p s = true → all_chars p (Str.strip s) = true.
Proof. intros H. by apply all_chars_rstrip, all_chars_lstrip. Qed.

Lemma all_chars_app p s t :
  all_chars p (s +:+ t) = all_chars p s && all_chars p t.
Proof. induction s as [|c r IH]; simpl; [done|]. by rewrite IH, andb_assoc. Qed.

(** Stripping: what is left does not start with white space, and stripping
    again changes nothing. *)
Lemma lstrip_head s : head_space (Str.lstrip s) = false.
Proof.
  induction s as [|c r IH]; simpl; [done|].
  destruct (Str.is_space c) eqn:Hc; [done | simpl; by rewrite Hc].
Qed.

Lemma lstrip_fixed s : head_space s = false → Str.lstrip s = s.
Proof. destruct s as [|c r]; simpl; [done|]. by intros ->. Qed.

Lemma rstrip_head s : head_space s = false → head_space (Str.rstrip s) = false.
Proof.
  destruct s as [|c r]; simpl; [done|]. intros Hc.
  destruct (Str.rstrip r); simpl; by rewrite Hc.
Qed.

Lemma rstrip_idem s : Str.rstrip (Str.rstrip s) = Str.rstrip s.
Proof.
  induction s as [|c r IH]; simpl; [done|].
  destruct (Str.rstrip r) as [|c' r'] eqn:Hr.
  - destruct (Str.is_space c) eqn:Hc; simpl; [done | by rewrite Hc].
  - change (Str.rstrip (String c (String c' r')))
      with (match Str.rstrip (String c' r') with
            | EmptyString => if Str.is_space c then EmptyString else String c EmptyString
            | r0 => String c r0
            end).
    by rewrite IH.
Qed.

Lemma strip_idem s : Str.strip (Str.strip s) = Str.strip s.
Proof.
  unfold Str.strip.
  rewrite (lstrip_fixed (Str.rstrip (Str.lstrip s)))
    by apply rstrip_head, lstrip_head.
  apply rstrip_idem.
Qed.

Lemma rstrip_no_space s :
  all_chars (λ c, negb (Str.is_space c)) s = true → Str.rstrip s = s.
Proof.
  induction s as [|c r IH]; simpl; [done|].
  intros [Hc Hr]%andb_true_iff. rewrite (IH Hr).
  apply negb_true_iff in Hc. destruct r; [by rewrite Hc | done].
Qed.

Lemma strip_no_space s :
  all_chars (λ c, negb (Str.is_space c)) s = true → Str.strip s = s.
Proof.
  intros H. unfold Str.strip. rewrite lstrip_fixed.
  - by apply rstrip_no_space.
  - destruct s as [|c r]; simpl in *; [done|].
    apply andb_true_iff in H as [Hc _]. by apply negb_true_iff in Hc.
Qed.

Lemma map_fixed f p s :
  (∀ c, p c = true → f c = c) → all_chars p s = true → Str.map f s = s.
Proof.
  intros Hf. induction s as [|c r IH]; simpl; [done|].
  intros [Hc Hr]%andb_true_iff. by rewrite (Hf c Hc), (IH Hr).
Qed.

Lemma filter_fixed p s : all_chars p s = true → Str.filter p s = s.
Proof.
  induction s as [|c r IH]; simpl; [done|].
  intros [Hc Hr]%andb_true_iff. by rewrite Hc, (IH Hr).
Qed.

(** Facts about single characters, by enumeration. *)
Lemma slug_keep_lower c :
  slug_keep c = true →
  slug_char (Str.lower_char c) || slug_sep (Str.lower_char c) = true.
Proof. destruct c as [[] [] [] [] [] [] [] []]; vm_compute; congruence. Qed.

Lemma slug_char_facts c :
  slug_char c = true →
  slug_keep c = true ∧ Str.is_space c = false ∧ Str.lower_char c = c
  ∧ slug_sep c = Ascii.eqb c "-".
Proof.
  destruct c as [[] [] [] [] [] [] [] []]; vm_compute; intros H;
    (discriminate H || (split_and!; reflexivity)).
Qed.

Lemma not_sep_slug_char c :
  slug_char c || slug_sep c = true → slug_sep c = false → slug_char c = true.
Proof. destruct (slug_char c); simpl; congruence. Qed.

(** The substitution of runs. *)
Lemma collapse_chars (cls p q : ascii → bool) rep b s :
  q rep = true → (∀ c, p c = true → cls c = false → q c = true) →
  all_chars p s = true → all_chars q (Str.collapse cls rep b s) = true.
Proof.
  intros Hrep Hq. revert b. induction s as [|c r IH]; intros b; simpl; [done|].
  intros [Hc Hr]%andb_true_iff.
  destruct (cls c) eqn:Hcls.
  - destruct b; simpl; [by apply IH | rewrite Hrep; by apply IH].
  - simpl. rewrite (Hq c Hc Hcls). by apply IH.
Qed.

Lemma collapse_no_double (cls : ascii → bool) rep b s :
  cls rep = true →
  let o := Str.collapse cls rep b s in
  Str.contains (String rep (String rep EmptyString)) o = false
  ∧ (b = true → Str.starts_with (String rep EmptyString) o = false).
Proof.
  intros Hrep. revert b. induction s as [|c r IH]; intros b; [by destruct b|].
  cbn [Str.collapse].
  destruct (cls c) eqn:Hcls.
  - destruct b.
    + apply IH.
    + destruct (IH true) as [Hin Hhead]. split; [|done].
      cbn [Str.contains Str.starts_with]. rewrite Ascii.eqb_refl.
      fold (Str.starts_with (String rep EmptyString) (Str.collapse cls rep true r)).
      rewrite (Hhead eq_refl). simpl. exact Hin.
  - destruct (IH false) as [Hin _].
    assert (Hne : Ascii.eqb rep c = false).
    { apply Ascii.eqb_neq. intros ->. congruence. }
    split.
    + cbn [Str.contains Str.starts_with]. rewrite Hne. simpl. exact Hin.
    + intros _. cbn [Str.starts_with]. by rewrite Hne.
Qed.

Lemma collapse_fixed b s :
  all_chars slug_char s = true →
  Str.contains "--" s = false →
  (b = true → Str.starts_with "-" s = false) →
  Str.collapse slug_sep "-" b s = s.
Proof.
  revert b. induction s as [|c r IH]; intros b; [done|].
  intros [Hc Hr]%andb_true_iff Hno Hhead.
  destruct (slug_char_facts c Hc) as (_ & _ & _ & Hsep).
  cbn [Str.collapse]. rewrite Hsep.
  cbn [Str.contains Str.starts_with] in Hno.
  apply orb_false_iff in Hno as [Hno1 Hno2].
  destruct (Ascii.eqb c "-") eqn:Hd.
  - apply Ascii.eqb_eq in Hd as ->.
    destruct b.
    + specialize (Hhead eq_refl). cbn in Hhead. discriminate.
    + f_equal. apply IH; [done | done |]. intros _.
      cbn in Hno1. exact Hno1.
  - f_equal. apply IH; [done | done | discriminate].
Qed.

End Text.

(** ** Slugs and alias tokens ([etl/utils.py: slugify],
       [etl/fetch_mospi.py: _normalize_alias]) *)

Section Slugs.
Context `{RT : PyRuntime}.

Lemma slugify_chars value : all_chars slug_char (slugify value) = true.
Proof.
  unfold slugify.
  apply (collapse_chars slug_sep (λ c, slug_char c || slug_sep c)); [done | |].
  - intros c. apply not_sep_slug_char.
  - apply (all_chars_map slug_keep); [apply slug_keep_lower|].
    apply all_chars_strip, all_chars_filter.
Qed.

Lemma slugify_no_double value : Str.contains "--" (slugify value) = false.
Proof. unfold slugify. by apply (collapse_no_double slug_sep "-" false). Qed.

(** X1: whatever the input and whatever the Unicode decomposition returns,
    a slug consists of lower-case ASCII letters, digits and hyphens only,
    and never holds two hyphens in a row. *)
Theorem slugify_alphabet (value : string) :
  all_chars slug_char (slugify value) = true
  ∧ Str.contains "--" (slugify value) = false.
Proof.
  split; [apply slugify_chars | apply slugify_no_double].
Qed.

Lemma slugify_fixed s :
  nfkd_fixes_slugs →
  all_chars slug_char s = true → Str.contains "--" s = false → slugify s = s.
Proof.
  intros Hn Hs Hno. unfold slugify. rewrite (Hn s Hs).
  rewrite filter_fixed by (eapply all_chars_impl; [|exact Hs]; intros c; apply slug_char_facts).
  rewrite strip_no_space
    by (eapply all_chars_impl; [|exact Hs]; intros c [_ [-> _]]%slug_char_facts; done).
  unfold Str.lower.
  rewrite (map_fixed Str.lower_char slug_char)
    by (done || intros c; apply slug_char_facts).
  apply collapse_fixed; [done | done | discriminate].
Qed.

(** X2: on a runtime whose decomposition leaves slug strings alone,
    [slugify] is idempotent. *)
Theorem slugify_idempotent (value : string) :
  nfkd_fixes_slugs → slugify (slugify value) = slugify value.
Proof.
  intros Hn.
  apply slugify_fixed; [done | apply slugify_chars | apply slugify_no_double].
Qed.

(** X3: for an alias whose slug is not empty the token is the slug, and
    the token of the slug candidate is the same token, so the second
    lookup of [ensure_item] repeats the first: an alias of unknown token is
    created as a new item without any lookup by slug. *)
Theorem ensure_item_slug_lookup_redundant (alias : string) (dm : DimensionManager) :
  nfkd_fixes_slugs →
  slugify alias ≠ "" →
  _normalize_alias alias = slugify alias
  ∧ _normalize_alias (slugify alias) = _normalize_alias alias
  ∧ (item_by_token dm (_normalize_alias alias) = None →
     ensure_item alias dm = create_item alias (slugify alias) dm).
Proof.
  intros Hn Hne.
  assert (Htok : _normalize_alias alias = slugify alias).
  { unfold _normalize_alias, Str.or_else. by destruct (slugify alias). }
  assert (Hslug : _normalize_alias (slugify alias) = _normalize_alias alias).
  { rewrite Htok. unfold _normalize_alias.
    rewrite (slugify_fixed (slugify alias) Hn (slugify_chars alias)
               (slugify_no_double alias)).
    unfold Str.or_else. by destruct (slugify alias). }
  split_and!; [done | done |].
  intros Hnone. unfold ensure_item. by rewrite Hslug, Hnone.
Qed.

End Slugs.

Section SlugExamples2.
Local Existing Instance example_runtime.

Lemma example_nfkd_fixes_slugs : nfkd_fixes_slugs.
Proof.
  intros s Hs. apply filter_fixed.
  eapply all_chars_impl; [|exact Hs].
  intros c. destruct c as [[] [] [] [] [] [] [] []]; vm_compute; congruence.
Qed.

Lemma slugify_idempotent_witness :
  slugify (slugify "Fuel & Light") = slugify "Fuel & Light".
Proof. apply (slugify_idempotent "Fuel & Light"), example_nfkd_fixes_slugs. Defined.

Lemma ensure_item_slug_lookup_redundant_witness :
  ensure_item "Rice" fresh_manager = create_item "Rice" (slugify "Rice") fresh_manager.
Proof.
  destruct (ensure_item_slug_lookup_redundant "Rice" fresh_manager
              example_nfkd_fixes_slugs) as (_ & _ & H).
  - vm_compute. discriminate.
  - apply H. vm_compute. reflexivity.
Defined.

End SlugExamples2.

(** ** Month tokens ([etl/fetch_mospi.py: month_to_number]) *)

Section MonthTokens.
Context `{RT : PyRuntime}.

Lemma lower_char_facts c :
  Str.is_space (Str.lower_char c) = Str.is_space c
  ∧ Str.lower_char (Str.lower_char c) = Str.lower_char c.
Proof. destruct c as [[] [] [] [] [] [] [] []]; vm_compute; split; reflexivity. Qed.

Lemma lower_idem s : Str.lower (Str.lower s) = Str.lower s.
Proof.
  unfold Str.lower. induction s as [|c r IH]; simpl; [done|].
  destruct (lower_char_facts c) as [_ ->]. by rewrite IH.
Qed.

Lemma lstrip_lower s : Str.lstrip (Str.lower s) = Str.lower (Str.lstrip s).
Proof.
  unfold Str.lower. induction s as [|c r IH]; simpl; [done|].
  destruct (lower_char_facts c) as [-> _]. by destruct (Str.is_space c).
Qed.

Lemma rstrip_lower s : Str.rstrip (Str.lower s) = Str.lower (Str.rstrip s).
Proof.
  unfold Str.lower. induction s as [|c r IH]; simpl; [done|].
  rewrite IH. destruct (lower_char_facts c) as [-> _].
  destruct (Str.rstrip r); simpl; [by destruct (Str.is_space c) | done].
Qed.

Lemma strip_lower s : Str.strip (Str.lower s) = Str.lower (Str.strip s).
Proof. unfold Str.strip. by rewrite lstrip_lower, rstrip_lower. Qed.

Lemma month_lookup_range key m : assoc key month_lookup = Some m → 1 ≤ m ≤ 12.
Proof.
  unfold month_lookup. cbn [assoc].
  repeat (destruct (String.eqb _ key); [intros H; injection H as <-; lia|]).
  discriminate.
Qed.

(** X4: given a string, [month_to_number] either returns a month number
    between 1 and 12 or raises [ValueError] naming the string, nothing
    else; and what it returns does not change when the string is trimmed
    and lower-cased beforehand. *)
Theorem month_to_number_of_string (s : string) :
  match month_to_number (PStr s) with
  | Ok m => 1 ≤ m ≤ 12
  | Raise e => e = ValueError ("Unsupported month value: " +:+ s)
  end
  ∧ returned (month_to_number (PStr (Str.lower (Str.strip s))))
    = returned (month_to_number (PStr s)).
Proof.
  split.
  - unfold month_to_number.
    destruct (assoc _ month_lookup) as [m|] eqn:Hm; [|done].
    by eapply month_lookup_range.
  - unfold month_to_number.
    rewrite strip_lower, strip_idem, lower_idem.
    by destruct (assoc _ month_lookup).
Qed.

End MonthTokens.

(** ** The spreadsheet adapter and its wrapper ([parse_annex],
       [parse_mospi_annex]) *)

Section Annex.
Context `{RT : PyRuntime}.

Lemma parse_annex_row_stripped cells row :
  parse_annex_row cells = Emit row → stripped_aliases row.
Proof.
  unfold parse_annex_row.
  destruct (py_int (ac_year cells)) as [y|[]]; simpl; try discriminate.
  destruct (month_to_number (ac_month cells)) as [m|[]]; simpl; try discriminate.
  destruct (py_float (ac_index_value cells)) as [v|[]]; simpl; try discriminate.
  intros [= <-]. split; apply strip_idem.
Qed.

Lemma row_loop_length {A B} (step : A → row_outcome B) rows out :
  (∀ a, step a ≠ Skip) → row_loop step rows = Ok out → length out = length rows.
Proof.
  intros Hstep. revert out. induction rows as [|a rows IH]; intros out; simpl.
  - by intros [= <-].
  - destruct (step a) as [b| |e] eqn:Ha; [| by destruct (Hstep a) | done].
    destruct (row_loop step rows) as [rest|e]; simpl; [|done].
    intros [= <-]. simpl. f_equal. by apply IH.
Qed.

Lemma parse_annex_row_no_skip cells : parse_annex_row cells ≠ Skip.
Proof.
  unfold parse_annex_row.
  destruct (py_int (ac_year cells)) as [y|[]]; simpl; try discriminate.
  destruct (month_to_number (ac_month cells)) as [m|[]]; simpl; try discriminate.
  destruct (py_float (ac_index_value cells)) as [v|[]]; simpl; discriminate.
Qed.

(** X5: [parse_annex] drops a row with a missing cell without reading its
    other cells, wherever the row stands; and when it returns, it returns
    exactly one row per complete row of the sheet, with both aliases
    trimmed. *)
Theorem parse_annex_complete_rows :
  (∀ pre cells post,
     annex_has_na cells = true →
     parse_annex (pre ++ cells :: post) = parse_annex (pre ++ post))
  ∧ (∀ frame_rows rows,
       parse_annex frame_rows = Ok rows →
       length rows = length (List.filter (λ c, negb (annex_has_na c)) frame_rows)
       ∧ Forall stripped_aliases rows).
Proof.
  split.
  - intros pre cells post Hna. unfold parse_annex.
    rewrite !List.filter_app. simpl. by rewrite Hna.
  - intros frame_rows rows H. unfold parse_annex in H. split.
    + eapply row_loop_length; [apply parse_annex_row_no_skip | exact H].
    + eapply row_loop_Forall; [|exact H]. apply parse_annex_row_stripped.
Qed.

Lemma parse_mospi_annex_row_cases entry :
  if _year_in_scope (row_year entry)
  then ∃ r, parse_mospi_annex_row entry = Emit r
            ∧ _base_row r = {| row_item_alias := Str.strip (row_item_alias entry);
                               row_region_alias := Str.strip (row_region_alias entry);
                               row_year := row_year entry;
                               row_month := row_month entry;
                               row_index_value := row_index_value entry |}
            ∧ nr_source r = "mospi"
  else parse_mospi_annex_row entry = Skip.
Proof.
  unfold parse_mospi_annex_row, continue_on_value_error.
  destruct (_year_in_scope (row_year entry)) eqn:Hy; simpl; [|done].
  destruct (_resolve_item_override _ _) as [[slug name] extra].
  unfold _normalized_row. rewrite Hy. simpl.
  eexists. split; [reflexivity|]. done.
Qed.

Lemma parse_mospi_annex_rows rows :
  Forall stripped_aliases rows →
  ∃ out, row_loop parse_mospi_annex_row rows = Ok out
         ∧ _base_row <$> out = List.filter (λ r, _year_in_scope (row_year r)) rows
         ∧ Forall (λ r, nr_source r = "mospi") out.
Proof.
  induction 1 as [|entry rows [Hi Hr] _ (out & Hout & Hbase & Hsrc)]; simpl.
  - by exists [].
  - pose proof (parse_mospi_annex_row_cases entry) as Hrow.
    destruct (_year_in_scope (row_year entry)).
    + destruct Hrow as (r & -> & Hr1 & Hr2). rewrite Hout. simpl.
      exists (r :: out). split_and!; [done | | by constructor].
      rewrite fmap_cons, Hbase, Hr1, Hi, Hr. by destruct entry.
    + rewrite Hrow. by exists out.
Qed.

(** X6: [parse_mospi_annex] raises exactly when [parse_annex] does, with
    the same exception; otherwise it returns one row for each parsed row
    whose year is inside the accepted window, in order, carrying the five
    base fields of that row unchanged and the source name "mospi". *)
Theorem parse_mospi_annex_of_parse_annex (frame_rows : list annex_cells) :
  match parse_annex frame_rows with
  | Raise e => parse_mospi_annex frame_rows = Raise e
  | Ok rows =>
      ∃ out, parse_mospi_annex frame_rows = Ok out
             ∧ _base_row <$> out = List.filter (λ r, _year_in_scope (row_year r)) rows
             ∧ Forall (λ r, nr_source r = "mospi") out
  end.
Proof.
  unfold parse_mospi_annex.
  destruct (parse_annex frame_rows) as [rows|e] eqn:Hparse; simpl; [|done].
  apply parse_mospi_annex_rows.
  eapply row_loop_Forall; [apply parse_annex_row_stripped | exact Hparse].
Qed.

End Annex.

(** ** What the adapters emit and what can leave them *)

Section AdapterRows.
Context `{RT : PyRuntime}.

Ltac row_cases H :=
  repeat match type of H with
    | context [mbind _ ?r] => destruct r eqn:?; simpl in H
    | context [if ?b then _ else _] => destruct b eqn:?; simpl in H
    | context [let '(_, _) := ?p in _] => destruct p eqn:?; simpl in H
    | context [match ?r with Ok _ => _ | Raise _ => _ end] =>
        destruct r eqn:?; simpl in H
    | context [match ?r with Some _ => _ | None => _ end] =>
        destruct r eqn:?; simpl in H
    | Ok _ = Ok _ => injection H as H
    | Emit _ = Emit _ => injection H as H
    | Abort _ = Abort _ => injection H as H
    | _ => discriminate H
    end.

Lemma opt_or_same (s : string) : opt_or (Some s) s = s.
Proof. unfold opt_or, Str.or_else. by destruct (Str.nonempty s). Qed.

Lemma normalized_row_fields ia ra y m v src slug name code type ea era r :
  _normalized_row ia ra y m v src slug name code type ea era = Ok r →
  nr_source r = src ∧ nr_region_alias r = ra
  ∧ nr_region_code r = opt_or code (slugify ra)
  ∧ nr_region_type r = opt_or type (_infer_region_type ra)
  ∧ _year_in_scope (nr_year r) = true.
Proof.
  unfold _normalized_row. destruct (_year_in_scope y) eqn:Hy; simpl; [|done].
  by intros [= <-].
Qed.

Lemma normalized_row_in_window ia ra y m v src slug name code type ea era :
  _year_in_scope y = true →
  ∃ r, _normalized_row ia ra y m v src slug name code type ea era = Ok r.
Proof. intros Hy. unfold _normalized_row. rewrite Hy. simpl. eauto. Qed.

Lemma infer_region_type_known alias : known_region_type (_infer_region_type alias).
Proof.
  unfold _infer_region_type, known_region_type.
  repeat (match goal with |- context [if ?b then _ else _] => destruct b end); auto.
Qed.

Lemma parse_mospi_annex_row_shape entry r :
  parse_mospi_annex_row entry = Emit r →
  row_shape "mospi" r ∧ known_region_type (nr_region_type r).
Proof.
  unfold parse_mospi_annex_row, continue_on_value_error. intros H. row_cases H.
  subst.
  match goal with
  | Hn : _normalized_row _ _ _ _ _ _ _ _ _ _ _ _ = Ok _ |- _ =>
      apply normalized_row_fields in Hn as (Hs & Ha & Hc & Ht & Hy)
  end.
  split; [split_and!; [done | by rewrite Ha, Hc | done]|].
  rewrite Ht. apply infer_region_type_known.
Qed.

Lemma parse_datagov_row_shape row r :
  parse_datagov_row row = Emit r →
  row_shape "data_gov" r ∧ known_region_type (nr_region_type r).
Proof.
  unfold parse_datagov_row, continue_on_value_error. intros H. row_cases H;
    subst;
    match goal with
    | Hn : _normalized_row _ _ _ _ _ _ _ _ _ _ _ _ = Ok _ |- _ =>
        apply normalized_row_fields in Hn as (Hs & Ha & Hc & Ht & Hy)
    end;
    (split; [split_and!; [done | rewrite Ha, Hc; apply opt_or_same | done]|]);
    rewrite Ht; unfold known_region_type;
    repeat match goal with
      | Hb : (_ || _) = true |- _ => apply orb_true_iff in Hb as [Hb|Hb]
      | Hb : String.eqb _ _ = true |- _ => apply String.eqb_eq in Hb; rewrite Hb
      end; cbn; auto.
Qed.

Lemma parse_dpiit_row_shape row r :
  parse_dpiit_row row = Emit r →
  row_shape "dpiit" r ∧ known_region_type (nr_region_type r).
Proof.
  unfold parse_dpiit_row, continue_on_value_error. intros H. row_cases H;
    subst;
    match goal with
    | Hn : _normalized_row _ _ _ _ _ _ _ _ _ _ _ _ = Ok _ |- _ =>
        apply normalized_row_fields in Hn as (Hs & Ha & Hc & Ht & Hy)
    end;
    (split; [split_and!; [done | by rewrite Ha, Hc | done]|]);
    rewrite Ht; unfold known_region_type; cbn; auto.
Qed.

Lemma parse_imf_entry_dated_shape entry yv mv r :
  parse_imf_entry_dated entry yv mv = Emit r → row_shape "imf" r.
Proof.
  unfold parse_imf_entry_dated. intros H. row_cases H.
  subst.
  match goal with
  | Hn : _normalized_row _ _ _ _ _ _ _ _ _ _ _ _ = Ok _ |- _ =>
      apply normalized_row_fields in Hn as (Hs & Ha & Hc & Ht & Hy)
  end.
  split_and!; [done | by rewrite Ha, Hc | done].
Qed.

Lemma parse_imf_entry_shape entry r :
  parse_imf_entry entry = Emit r → row_shape "imf" r.
Proof.
  unfold parse_imf_entry. intros H.
  destruct (truthy _ && negb _).
  - destruct (fromisoformat _) as [[y m]|]; [|done].
    by eapply parse_imf_entry_dated_shape.
  - by eapply parse_imf_entry_dated_shape.
Qed.

(** X7: every row that one of the four adapters emits carries the name of
    its source, a year inside the accepted window and, as region code, the
    slug of its region alias.  The spreadsheet, delimited and archive
    adapters give it one of the region types urban, rural, nation and
    state. *)
Theorem adapter_row_shape :
  (∀ frame_rows out,
     parse_mospi_annex frame_rows = Ok out →
     Forall (λ r, row_shape "mospi" r ∧ known_region_type (nr_region_type r)) out)
  ∧ (∀ frame_rows out,
       parse_datagov_resource frame_rows = Ok out →
       Forall (λ r, row_shape "data_gov" r ∧ known_region_type (nr_region_type r)) out)
  ∧ (∀ frame_rows out,
       parse_dpiit_resource frame_rows = Ok out →
       Forall (λ r, row_shape "dpiit" r ∧ known_region_type (nr_region_type r)) out)
  ∧ (∀ series out,
       parse_imf_series series = Ok out → Forall (row_shape "imf") out).
Proof.
  split_and!.
  - intros frame_rows out H. unfold parse_mospi_annex in H.
    destruct (parse_annex frame_rows) as [rows|e]; simpl in H; [|done].
    eapply row_loop_Forall; [|exact H]. apply parse_mospi_annex_row_shape.
  - intros frame_rows out H.
    eapply row_loop_Forall; [|exact H]. apply parse_datagov_row_shape.
  - intros frame_rows out H.
    eapply row_loop_Forall; [|exact H]. apply parse_dpiit_row_shape.
  - intros series out H.
    eapply row_loop_Forall; [|exact H]. apply parse_imf_entry_shape.
Qed.

(** *** Exceptions that leave the row-tolerant adapters *)

Lemma row_loop_raise {A B} (step : A → row_outcome B) rows e :
  row_loop step rows = Raise e → ∃ a, a ∈ rows ∧ step a = Abort e.
Proof.
  induction rows as [|a rows IH]; simpl; [done|].
  destruct (step a) as [b| |e'] eqn:Ha.
  - destruct (row_loop step rows) as [rest|e']; simpl; [done|].
    intros [= <-]. destruct (IH eq_refl) as (a' & Hin & Ha').
    exists a'. split; [by right | done].
  - intros H. destruct (IH H) as (a' & Hin & Ha').
    exists a'. split; [by right | done].
  - intros [= <-]. exists a. split; [left | done].
Qed.

Lemma row_loop_returns {A B} (step : A → row_outcome B) rows :
  (∀ a e, a ∈ rows → step a ≠ Abort e) → ∃ out, row_loop step rows = Ok out.
Proof.
  intros Hno. destruct (row_loop step rows) as [out|e] eqn:H; [eauto|].
  apply row_loop_raise in H as (a & Hin & Ha). by destruct (Hno a e Hin).
Qed.

Lemma py_int_text_or_int v e :
  text_or_int v → py_int v = Raise e → is_value_error e = true.
Proof.
  destruct v as [|z|x|s]; simpl; try done.
  destruct (int_of_str s); [done|]. by intros _ [= <-].
Qed.

Lemma month_to_number_text_or_int v e :
  text_or_int v → month_to_number v = Raise e → is_value_error e = true.
Proof.
  destruct v as [|z|x|s]; try done; unfold month_to_number.
  destruct (assoc _ month_lookup); [done|]. by intros _ [= <-].
Qed.

Lemma float_of_pyint_cases z :
  (Z.abs z < FLOAT_INT_LIMIT ∧ float_of_pyint z = Ok (float_of_int z))
  ∨ (FLOAT_INT_LIMIT ≤ Z.abs z
     ∧ float_of_pyint z = Raise (OverflowError "int too large to convert to float")).
Proof.
  unfold float_of_pyint.
  destruct (Z.ltb_spec (Z.abs z) FLOAT_INT_LIMIT); [by left | by right].
Qed.

Lemma normalize_numeric_error v e :
  in_float_range v → _normalize_numeric v = Raise e → is_value_error e = true.
Proof.
  destruct v as [|z|x|s]; cbn [_normalize_numeric in_float_range]; try done.
  - by intros _ [= <-].
  - intros Hz. destruct (float_of_pyint_cases z) as [[_ ->]|[? _]]; [done | lia].
  - intros _. destruct (negb (Str.nonempty (Str.strip s))); [by intros [= <-]|].
    cbn [py_float]. destruct (float_of_str (Str.strip s)); [done|]. by intros [= <-].
Qed.

Lemma normalize_numeric_overflow z :
  FLOAT_INT_LIMIT ≤ Z.abs z →
  _normalize_numeric (PInt z)
  = Raise (OverflowError "int too large to convert to float").
Proof.
  intros Hz. cbn [_normalize_numeric].
  destruct (float_of_pyint_cases z) as [[? _]|[_ ->]]; [lia | done].
Qed.

Lemma in_float_range_or a b :
  in_float_range a → in_float_range b → in_float_range (py_or a b).
Proof. intros Ha Hb. unfold py_or. by destruct (truthy a). Qed.

Lemma normalized_row_error ia ra y m v src slug name code type ea era e :
  _normalized_row ia ra y m v src slug name code type ea era = Raise e →
  is_value_error e = true.
Proof.
  unfold _normalized_row. destruct (negb (_year_in_scope y)); [|done].
  by intros [= <-].
Qed.

Ltac settle_error :=
  subst;
  match goal with
  | He : is_value_error ?e = false |- is_value_error ?e = false => exact He
  | He : is_value_error ?e = false, H : py_int ?v = Raise ?e, Ht : text_or_int ?v |- False =>
      by rewrite (py_int_text_or_int v e Ht H) in He
  | He : is_value_error ?e = false, H : month_to_number ?v = Raise ?e,
    Ht : text_or_int ?v |- False =>
      by rewrite (month_to_number_text_or_int v e Ht H) in He
  | He : is_value_error ?e = false, H : _normalize_numeric ?v = Raise ?e,
    Hv : in_float_range ?v |- False =>
      by rewrite (normalize_numeric_error v e Hv H) in He
  | He : is_value_error ?e = false,
    H : _normalized_row _ _ _ _ _ _ _ _ _ _ _ _ = Raise ?e |- _ =>
      by rewrite (normalized_row_error _ _ _ _ _ _ _ _ _ _ _ _ _ H) in He
  end.

Lemma parse_datagov_row_abort row e :
  parse_datagov_row row = Abort e →
  is_value_error e = false
  ∧ (text_or_int (dg_year row) → text_or_int (dg_month row) →
     in_float_range (dg_value row) → False).
Proof.
  unfold parse_datagov_row, continue_on_value_error. intros H.
  split; [|intros Hy Hm Hv]; row_cases H; settle_error.
Qed.

Lemma parse_dpiit_row_abort row e :
  parse_dpiit_row row = Abort e →
  is_value_error e = false
  ∧ (text_or_int (dp_year row) → text_or_int (dp_month row) →
     in_float_range (dp_value row) → False).
Proof.
  unfold parse_dpiit_row, continue_on_value_error. intros H.
  split; [|intros Hy Hm Hv]; row_cases H; settle_error.
Qed.

Lemma py_int_not_float v e :
  not_float v → is_none v = false → py_int v = Raise e → is_value_error e = true.
Proof.
  destruct v as [|z|x|s]; simpl; try done.
  destruct (int_of_str s); [done|]. by intros _ _ [= <-].
Qed.

Lemma month_to_number_not_float v e :
  not_float v → is_none v = false → month_to_number v = Raise e →
  is_value_error e = true.
Proof.
  destruct v as [|z|x|s]; try done; unfold month_to_number.
  destruct (assoc _ month_lookup); [done|]. by intros _ _ [= <-].
Qed.

Lemma parse_imf_entry_dated_abort entry yv mv e :
  parse_imf_entry_dated entry yv mv = Abort e →
  is_value_error e = false
  ∧ (not_float yv → not_float mv →
     in_float_range (py_or (imf_value entry) (imf_obs_value entry)) → False).
Proof.
  unfold parse_imf_entry_dated. intros H.
  destruct (is_none yv || is_none mv) eqn:Hnone; [done|].
  apply orb_false_iff in Hnone as [Hny Hnm].
  split; [|intros Hy Hm Hv]; row_cases H; subst;
    try match goal with
      | He : is_value_error ?e = false |- is_value_error ?e = false => exact He
      | Hn : _normalized_row _ _ ?y _ _ _ _ _ _ _ _ _ = Raise _,
        Hs : negb (_year_in_scope ?y) = false |- _ =>
          unfold _normalized_row in Hn; rewrite Hs in Hn; discriminate Hn
      | He : is_value_error ?e = false, H : py_int _ = Raise ?e |- False =>
          by rewrite (py_int_not_float _ _ Hy Hny H) in He
      | He : is_value_error ?e = false, H : month_to_number _ = Raise ?e |- False =>
          by rewrite (month_to_number_not_float _ _ Hm Hnm H) in He
      | He : is_value_error ?e = false, H : _normalize_numeric ?v = Raise ?e,
        Hv : in_float_range ?v |- False =>
          by rewrite (normalize_numeric_error v e Hv H) in He
      end.
Qed.

Lemma parse_imf_entry_abort entry e :
  parse_imf_entry entry = Abort e →
  is_value_error e = false
  ∧ (not_float (imf_year entry) → not_float (imf_month entry) →
     in_float_range (imf_value entry) → in_float_range (imf_obs_value entry) → False).
Proof.
  unfold parse_imf_entry. intros H.
  destruct (truthy _ && negb _).
  - destruct (fromisoformat _) as [[y m]|]; [|done].
    apply parse_imf_entry_dated_abort in H as [He Hno]. split; [done|].
    intros _ _ Ha Hb. apply Hno; [done | done | by apply in_float_range_or].
  - apply parse_imf_entry_dated_abort in H as [He Hno]. split; [done|].
    intros Hy Hm Ha Hb. apply Hno; [done | done | by apply in_float_range_or].
Qed.

(** X8: an exception that leaves the delimited, archive or series-document
    adapter is never a [ValueError].  For cells that are [None], integers,
    floats or text: when the year and month cells of every row hold text or
    integers (in the series document also [None]) and no value cell holds
    an integer beyond the range of the doubles, the adapter returns,
    whatever else the rows hold; and a value cell that holds such an
    integer makes [_normalize_numeric] raise [OverflowError], which no
    adapter catches. *)
Theorem adapter_exceptions :
  (∀ frame_rows e,
     parse_datagov_resource frame_rows = Raise e → is_value_error e = false)
  ∧ (∀ frame_rows e,
       parse_dpiit_resource frame_rows = Raise e → is_value_error e = false)
  ∧ (∀ series e, parse_imf_series series = Raise e → is_value_error e = false)
  ∧ (∀ frame_rows,
       Forall (λ row, text_or_int (dg_year row) ∧ text_or_int (dg_month row)
                      ∧ in_float_range (dg_value row)) frame_rows →
       ∃ out, parse_datagov_resource frame_rows = Ok out)
  ∧ (∀ frame_rows,
       Forall (λ row, text_or_int (dp_year row) ∧ text_or_int (dp_month row)
                      ∧ in_float_range (dp_value row)) frame_rows →
       ∃ out, parse_dpiit_resource frame_rows = Ok out)
  ∧ (∀ series,
       Forall (λ entry, not_float (imf_year entry) ∧ not_float (imf_month entry)
                        ∧ in_float_range (imf_value entry)
                        ∧ in_float_range (imf_obs_value entry)) series →
       ∃ out, parse_imf_series series = Ok out)
  ∧ (∀ z, FLOAT_INT_LIMIT ≤ Z.abs z →
          _normalize_numeric (PInt z)
          = Raise (OverflowError "int too large to convert to float")).
Proof.
  split_and!.
  - intros frame_rows e (row & _ & H)%row_loop_raise.
    by apply parse_datagov_row_abort in H as [? _].
  - intros frame_rows e (row & _ & H)%row_loop_raise.
    by apply parse_dpiit_row_abort in H as [? _].
  - intros series e (entry & _ & H)%row_loop_raise.
    by apply parse_imf_entry_abort in H as [? _].
  - intros frame_rows Hall. apply row_loop_returns. intros row e Hin H.
    rewrite Forall_forall in Hall. destruct (Hall row Hin) as (Hy & Hm & Hv).
    apply parse_datagov_row_abort in H as [_ Hno]. by apply Hno.
  - intros frame_rows Hall. apply row_loop_returns. intros row e Hin H.
    rewrite Forall_forall in Hall. destruct (Hall row Hin) as (Hy & Hm & Hv).
    apply parse_dpiit_row_abort in H as [_ Hno]. by apply Hno.
  - intros series Hall. apply row_loop_returns. intros entry e Hin H.
    rewrite Forall_forall in Hall. destruct (Hall entry Hin) as (Hy & Hm & Ha & Hb).
    apply parse_imf_entry_abort in H as [_ Hno]. by apply Hno.
  - apply normalize_numeric_overflow.
Qed.

End AdapterRows.

(** ** Override keys ([etl/phase3_pipeline.py: _normalize_item_key],
       [_resolve_item_override]) *)

Section OverrideKeys.
Context `{RT : PyRuntime}.

Lemma map_app f (s t : string) : Str.map f (s +:+ t) = Str.map f s +:+ Str.map f t.
Proof. induction s as [|c r IH]; simpl; [done | by rewrite IH]. Qed.

Lemma replace_ampersand_app (s t : string) :
  replace_ampersand (s +:+ t) = replace_ampersand s +:+ replace_ampersand t.
Proof.
  induction s as [|c r IH]; simpl; [done|].
  rewrite IH. by destruct (Ascii.eqb c "&").
Qed.

Lemma before_app_sep c (s t : string) :
  Str.before c (s +:+ String c t) = Str.before c s.
Proof.
  induction s as [|a r IH]; simpl.
  - by rewrite Ascii.eqb_refl.
  - destruct (Ascii.eqb a c); [done | by rewrite IH].
Qed.

Lemma before_before_app (s t : string) :
  Str.before "/" (Str.before "(" (s +:+ String "/" t))
  = Str.before "/" (Str.before "(" s).
Proof.
  induction s as [|a r IH]; simpl; [done|].
  destruct (Ascii.eqb a "("); [done|]. simpl.
  destruct (Ascii.eqb a "/"); [done | by rewrite IH].
Qed.

Lemma key_prefix_paren (a b : string) :
  Str.before "(" (replace_ampersand (Str.lower (a +:+ "(" +:+ b)))
  = Str.before "(" (replace_ampersand (Str.lower a)).
Proof.
  unfold Str.lower. rewrite map_app, replace_ampersand_app.
  change (replace_ampersand (Str.map Str.lower_char ("(" +:+ b)))
    with (String "(" (replace_ampersand (Str.map Str.lower_char b))).
  apply before_app_sep.
Qed.

Lemma key_prefix_slash (a b : string) :
  Str.before "/" (Str.before "(" (replace_ampersand (Str.lower (a +:+ "/" +:+ b))))
  = Str.before "/" (Str.before "(" (replace_ampersand (Str.lower a))).
Proof.
  unfold Str.lower. rewrite map_app, replace_ampersand_app.
  change (replace_ampersand (Str.map Str.lower_char ("/" +:+ b)))
    with (String "/" (replace_ampersand (Str.map Str.lower_char b))).
  apply before_before_app.
Qed.

(** X9: the key under which an item label is looked up in the override
    tables ignores the case of the label and everything from its first
    opening parenthesis or slash on; so does the override found. *)
Theorem item_key_ignores_suffix (a b source : string) :
  _normalize_item_key (a +:+ "(" +:+ b) = _normalize_item_key a
  ∧ _normalize_item_key (a +:+ "/" +:+ b) = _normalize_item_key a
  ∧ _normalize_item_key (Str.lower a) = _normalize_item_key a
  ∧ _resolve_item_override (a +:+ "(" +:+ b) source = _resolve_item_override a source
  ∧ _resolve_item_override (a +:+ "/" +:+ b) source = _resolve_item_override a source.
Proof.
  assert (H1 : _normalize_item_key (a +:+ "(" +:+ b) = _normalize_item_key a).
  { unfold _normalize_item_key. by rewrite key_prefix_paren. }
  assert (H2 : _normalize_item_key (a +:+ "/" +:+ b) = _normalize_item_key a).
  { unfold _normalize_item_key. by rewrite key_prefix_slash. }
  split_and!; [done | done | | |].
  - unfold _normalize_item_key. by rewrite lower_idem.
  - unfold _resolve_item_override. by rewrite H1.
  - unfold _resolve_item_override. by rewrite H2.
Qed.

End OverrideKeys.

(** ** What a run keeps of the store *)

Section StoreGrowth.
Context `{RT : PyRuntime}.
Implicit Types (dm : DimensionManager) (db : database).

Lemma item_extends_refl r : item_extends r r.
Proof. by split_and!. Qed.

Lemma item_extends_trans r1 r2 r3 :
  item_extends r1 r2 → item_extends r2 r3 → item_extends r1 r3.
Proof.
  intros (H1 & H2 & H3 & H4) (H1' & H2' & H3' & H4').
  split_and!; [congruence | congruence | congruence | by etrans].
Qed.

Lemma grows_refl db : grows db db.
Proof.
  split_and!; try done.
  intros r Hr. exists r. split; [done | apply item_extends_refl].
Qed.

Lemma grows_trans db1 db2 db3 : grows db1 db2 → grows db2 db3 → grows db1 db3.
Proof.
  intros (Hi & Hr & Hraw & Hrun & Hs) (Hi' & Hr' & Hraw' & Hrun' & Hs').
  split_and!; [| by etrans | by etrans | by etrans | by auto].
  intros r Hin. destruct (Hi r Hin) as (r2 & Hin2 & He).
  destruct (Hi' r2 Hin2) as (r3 & Hin3 & He').
  exists r3. split; [done | by eapply item_extends_trans].
Qed.

Lemma grows_same_but_runs db db' :
  same_but_runs db db' → etl_runs_table db `prefix_of` etl_runs_table db' →
  grows db db'.
Proof.
  intros (Hi & Hr & Hraw & Hs) Hrun. split_and!.
  - intros r Hin. exists r. rewrite Hi. split; [done | apply item_extends_refl].
  - by rewrite Hr.
  - by rewrite Hraw.
  - done.
  - by rewrite Hs.
Qed.

Lemma grows_set_item_aliases r alias db :
  NoDup (item_id <$> items_table db) → r ∈ items_table db →
  grows db (set_item_aliases (item_id r) (item_aliases r ++ [alias]) db).
Proof.
  intros Hnd Hr. split_and!; try done.
  intros r0 Hr0.
  pose proof (set_item_aliases_member r0 (item_id r) (item_aliases r ++ [alias]) db Hr0)
    as Hm.
  eexists. split; [exact Hm|].
  case_decide as Hid; [|apply item_extends_refl].
  assert (r0 = r) as -> by (by eapply (NoDup_fmap_same item_id)).
  split_and!; try done. simpl. by apply prefix_app_r.
Qed.

Lemma grows_insert_item r db : grows db (insert_item r db).
Proof.
  split_and!; try done.
  intros r0 Hr0. exists r0. split; [|apply item_extends_refl].
  apply elem_of_app. by left.
Qed.

Lemma grows_insert_region r db : grows db (insert_region r db).
Proof.
  split_and!; try done; [|by apply prefix_app_r].
  intros r0 Hr0. exists r0. split; [done | apply item_extends_refl].
Qed.

Lemma grows_insert_raw payload db : grows db (insert_raw payload db).
Proof.
  split_and!; try done; [|by apply prefix_app_r].
  intros r0 Hr0. exists r0. split; [done | apply item_extends_refl].
Qed.

Lemma grows_upsert_series k v db : grows db (upsert_series k v db).
Proof.
  split_and!; try done.
  - intros r0 Hr0. exists r0. split; [done | apply item_extends_refl].
  - intros k0 Hk0. simpl.
    destruct (decide (k0 = k)) as [->|?];
      [rewrite lookup_insert_eq; eauto | by rewrite lookup_insert_ne].
Qed.

Lemma ensure_item_grows alias dm :
  run_inv dm → grows (dm_db dm) (dm_db (ensure_item alias dm).1).
Proof.
  intros (Hinv & [Hni _] & Hsync & _).
  destruct (ensure_item_cases alias dm) as [(r & Hfound & ->)|(_ & _ & ->)].
  - cbn [fst].
    assert (Hr : dm_items dm !! item_id r = Some r)
      by (destruct Hfound as [H|[_ H]]; by eapply item_by_token_stored).
    destruct (append_db r alias dm) as [-> | ->]; [apply grows_refl|].
    apply grows_set_item_aliases; [done | by eapply Hsync].
  - rewrite create_item_db. apply grows_insert_item.
Qed.

Lemma ensure_region_grows alias dm :
  grows (dm_db dm) (dm_db (ensure_region alias dm).1).
Proof.
  destruct (ensure_region_cases alias dm) as [(r & _ & ->)|(_ & ->)].
  - apply grows_refl.
  - rewrite create_region_db. apply grows_insert_region.
Qed.

(** *** The resolver after the loader, and the unique constraints *)

Lemma register_fold_slug_index (record : item_row) aliases dm :
  slug_index (foldl (λ dm a, _register_item_alias record a dm) dm aliases)
  = slug_index dm.
Proof. revert dm. induction aliases as [|a aliases IH]; intros dm; simpl; [done|]. by rewrite IH. Qed.

Lemma load_item_step_slug_index dm row :
  slug_index (load_item_step dm row) = <[item_slug row := item_id row]> (slug_index dm).
Proof. unfold load_item_step. by rewrite register_fold_slug_index. Qed.

Lemma load_items_slug_index rows dm r :
  r ∈ rows ∨ is_Some (slug_index dm !! item_slug r) →
  is_Some (slug_index (foldl load_item_step dm rows) !! item_slug r).
Proof.
  revert dm. induction rows as [|row rows IH]; intros dm; simpl.
  - intros [Hin|H]; [inversion Hin | done].
  - intros H. apply IH. rewrite load_item_step_slug_index.
    destruct H as [[->|Hin]%elem_of_cons|H].
    + right. rewrite lookup_insert_eq. eauto.
    + by left.
    + right. by apply insert_keeps_key.
Qed.

Lemma load_regions_code_index rows dm r :
  r ∈ rows ∨ is_Some (region_code_index dm !! region_code r) →
  is_Some (region_code_index (foldl load_region_step dm rows) !! region_code r).
Proof.
  revert dm. induction rows as [|row rows IH]; intros dm; simpl.
  - intros [Hin|H]; [inversion Hin | done].
  - intros H. apply IH. simpl.
    destruct H as [[->|Hin]%elem_of_cons|H].
    + right. rewrite lookup_insert_eq. eauto.
    + by left.
    + right. by apply insert_keeps_key.
Qed.

Lemma new_DimensionManager_indexed conn :
  slugs_indexed (new_DimensionManager conn) ∧ codes_indexed (new_DimensionManager conn).
Proof.
  unfold slugs_indexed, codes_indexed, stored_slugs, stored_codes.
  rewrite new_DimensionManager_db. unfold new_DimensionManager.
  set (dm0 := {| dm_conn := conn; dm_items := ∅; item_alias_index := ∅;
                 slug_index := ∅; dm_regions := ∅; region_alias_index := ∅;
                 region_code_index := ∅ |}).
  split.
  - intros s (r & -> & Hr)%list_elem_of_fmap.
    destruct (load_regions_item_state (_load_items dm0)) as (_ & _ & ->).
    apply (load_items_slug_index (items_table (conn_db conn)) (dm_execute id dm0)).
    by left.
  - intros c (r & -> & Hr)%list_elem_of_fmap.
    assert (Hdb : regions_table (conn_db (dm_conn (dm_execute id (_load_items dm0))))
                  = regions_table (conn_db conn)).
    { simpl. by rewrite load_items_conn. }
    unfold _load_regions. rewrite Hdb.
    apply (load_regions_code_index (regions_table (conn_db conn))
             (dm_execute id (_load_items dm0))).
    by left.
Qed.

Lemma dim_inv_new conn :
  primary_keys_unique (conn_db conn) → unique_keys (conn_db conn) →
  dim_inv (new_DimensionManager conn).
Proof.
  intros Hpk Huk. destruct (new_DimensionManager_indexed conn) as [Hs Hc].
  split_and!; [by apply run_inv_new | done | done |].
  by rewrite new_DimensionManager_db.
Qed.

Lemma ensure_item_code_index alias dm :
  region_code_index (ensure_item alias dm).1 = region_code_index dm.
Proof.
  destruct (ensure_item_cases alias dm) as [(r & _ & ->)|(_ & _ & ->)]; [|done].
  cbn [fst]. by destruct (append_cases r alias dm) as [[_ ->]|[_ ->]].
Qed.

Lemma ensure_item_dim_inv alias dm : dim_inv dm → dim_inv (ensure_item alias dm).1.
Proof.
  intros (Hrun & Hsi & Hci & [Hns Hnc]).
  destruct (ensure_item_run alias dm Hrun) as (Hrun' & _ & _ & Hreg).
  pose proof (ensure_item_slugs alias dm) as Hslugs. cbv zeta in Hslugs.
  unfold stored_slugs in *.
  split_and!; [done | | |].
  - unfold slugs_indexed, stored_slugs.
    destruct Hslugs as [[-> ->]|[-> ->]]; [done|].
    intros s [Hs| ->%list_elem_of_singleton]%elem_of_app.
    + apply insert_keeps_key. by apply Hsi.
    + rewrite lookup_insert_eq. eauto.
  - unfold codes_indexed, stored_codes.
    rewrite ensure_item_code_index, Hreg. exact Hci.
  - split; [|by rewrite Hreg].
    destruct Hslugs as [[-> _]|[-> _]]; [done|].
    apply NoDup_app. split_and!; [done | | apply NoDup_singleton].
    intros s Hs ->%list_elem_of_singleton.
    destruct (unique_item_slug_spec dm (slugify alias)) as (k & _ & Heq & Hfree & _).
    destruct (Hsi _ Hs) as [id Hid]. rewrite Heq in Hid. congruence.
Qed.

Lemma ensure_region_dim_inv alias dm : dim_inv dm → dim_inv (ensure_region alias dm).1.
Proof.
  intros (Hrun & Hsi & Hci & [Hns Hnc]).
  destruct (ensure_region_run alias dm Hrun) as (Hrun' & _ & _ & Hitems).
  destruct (ensure_region_item_state alias dm) as (_ & _ & Hslug).
  split_and!; [done | | |].
  - unfold slugs_indexed, stored_slugs. rewrite Hslug, Hitems. exact Hsi.
  - unfold codes_indexed, stored_codes.
    destruct (ensure_region_cases alias dm) as [(r & _ & ->)|(_ & ->)]; [done|].
    rewrite create_region_db. cbn. rewrite fmap_app.
    intros c [Hc| ->%list_elem_of_singleton]%elem_of_app.
    + apply insert_keeps_key. by apply Hci.
    + rewrite lookup_insert_eq. eauto.
  - split; [by rewrite Hitems|].
    destruct (ensure_region_cases alias dm) as [(r & _ & ->)|(_ & ->)]; [done|].
    rewrite create_region_db. cbn. rewrite fmap_app.
    apply NoDup_app. split_and!; [done | | apply NoDup_singleton].
    intros c Hc ->%list_elem_of_singleton.
    destruct (Hci _ Hc) as [id Hid].
    pose proof (unique_region_code_fresh dm (slugify alias)) as Hfree.
    cbn in Hid. congruence.
Qed.

Lemma ingest_row_grows row dm :
  run_inv dm →
  run_inv (ingest_row row dm).1 ∧ grows (dm_db dm) (dm_db (ingest_row row dm).1).
Proof.
  intros Hinv. unfold ingest_row.
  destruct (ensure_item_run (row_item_alias row) dm Hinv) as (Hinv1 & _).
  pose proof (ensure_item_grows (row_item_alias row) dm Hinv) as Hg1.
  destruct (ensure_item (row_item_alias row) dm) as [dm1 iid]. cbn [fst] in *.
  destruct (ensure_region_run (row_region_alias row) dm1 Hinv1) as (Hinv2 & _).
  pose proof (ensure_region_grows (row_region_alias row) dm1) as Hg2.
  destruct (ensure_region (row_region_alias row) dm1) as [dm2 rid]. cbn [fst] in *.
  pose proof (grows_trans _ _ _ Hg1 Hg2) as Hg.
  destruct (first_of_month (row_year row) (row_month row)) as [d|e]; cbn [fst].
  - split; [exact Hinv2|].
    eapply grows_trans; [exact Hg|]. apply grows_upsert_series.
  - done.
Qed.

Lemma ingest_rows_grows rows dm :
  run_inv dm →
  run_inv (ingest_rows rows dm).1 ∧ grows (dm_db dm) (dm_db (ingest_rows rows dm).1).
Proof.
  revert dm. induction rows as [|row rows IH]; intros dm Hinv; simpl.
  - split; [done | apply grows_refl].
  - destruct (ingest_row_grows row dm Hinv) as [Hinv1 Hg1].
    destruct (ingest_row row dm) as [dm1 [e|]]; cbn [fst] in *; [done|].
    destruct (IH dm1 Hinv1) as [Hinv' Hg']. split; [done | by eapply grows_trans].
Qed.

Lemma ingest_row_dim_inv row dm : dim_inv dm → dim_inv (ingest_row row dm).1.
Proof.
  intros Hinv. unfold ingest_row.
  pose proof (ensure_item_dim_inv (row_item_alias row) dm Hinv) as Hinv1.
  destruct (ensure_item (row_item_alias row) dm) as [dm1 iid]. cbn [fst] in *.
  pose proof (ensure_region_dim_inv (row_region_alias row) dm1 Hinv1) as Hinv2.
  destruct (ensure_region (row_region_alias row) dm1) as [dm2 rid]. cbn [fst] in *.
  by destruct (first_of_month (row_year row) (row_month row)) as [d|e].
Qed.

Lemma ingest_rows_dim_inv rows dm : dim_inv dm → dim_inv (ingest_rows rows dm).1.
Proof.
  revert dm. induction rows as [|row rows IH]; intros dm Hinv; simpl; [done|].
  pose proof (ingest_row_dim_inv row dm Hinv) as Hinv1.
  destruct (ingest_row row dm) as [dm1 [e|]]; cbn [fst] in *; [done|].
  by apply IH.
Qed.

Lemma committed_db_grows file_path rows db :
  primary_keys_unique db →
  primary_keys_unique (committed_db file_path rows db)
  ∧ grows db (committed_db file_path rows db).
Proof.
  intros Hpk. unfold committed_db, transaction_body.
  set (conn := conn_execute _ _).
  assert (Hinv : run_inv (new_DimensionManager conn)) by (by apply run_inv_new).
  destruct (ingest_rows_grows rows _ Hinv) as [(_ & Hpk' & _) Hg].
  rewrite new_DimensionManager_db in Hg.
  destruct (ingest_rows rows (new_DimensionManager conn)) as [dm' err].
  cbn [fst] in *. split; [done|].
  eapply grows_trans; [|exact Hg]. apply grows_insert_raw.
Qed.

Lemma committed_db_unique file_path rows db :
  primary_keys_unique db → unique_keys db →
  unique_keys (committed_db file_path rows db).
Proof.
  intros Hpk Huk. unfold committed_db, transaction_body.
  set (conn := conn_execute _ _).
  assert (Hinv : dim_inv (new_DimensionManager conn)) by (by apply dim_inv_new).
  destruct (ingest_rows_dim_inv rows _ Hinv) as (_ & _ & _ & Huk').
  by destruct (ingest_rows rows (new_DimensionManager conn)) as [dm' err].
Qed.

Lemma record_run_runs run_id started_at checksum final_status (st : frame) :
  etl_runs_table (w_db st.1)
    `prefix_of` etl_runs_table (w_db (record_run run_id started_at checksum final_status st)).
Proof.
  destruct (record_run_effect run_id started_at checksum final_status st) as (_ & _ & H).
  destruct (single_statement_fault (fault_at st.1 0)); destruct H as [-> _]; [done|].
  by apply prefix_app_r.
Qed.

(** The store after a call, in terms of the store before it: the store
    committed by the transaction or the store as it was, up to the run
    table, which keeps its records. *)
Lemma ingest_with_engine_outcome file_path rows checksum w :
  let db' := w_db (ingest_with_engine file_path rows checksum w).1 in
  etl_runs_table (w_db w) `prefix_of` etl_runs_table db'
  ∧ (same_but_runs (w_db w) db'
     ∨ same_but_runs (committed_db file_path rows (w_db w)) db').
Proof.
  cbv zeta. split.
  - rewrite ingest_with_engine_eq. cbn [fst].
    etrans; [|apply record_run_runs].
    by rewrite ingest_try_runs.
  - pose proof (ingest_with_engine_store file_path rows checksum w) as H.
    destruct ((ingest_with_engine file_path rows checksum w).2);
      [right; by destruct H | by left].
Qed.

(** X10: a call of [ingest_with_engine] removes nothing from a store whose
    primary keys are unique, whether it returns or raises: every item
    record is still there under its id, slug and name, with its alias list
    extended at most; region, raw and run records are where they were, new
    ones following them; and every fact key is still present. *)
Theorem ingest_with_engine_keeps_records (file_path : string) (rows : list base_row)
    (checksum : string) (w : world) :
  primary_keys_unique (w_db w) →
  grows (w_db w) (w_db (ingest_with_engine file_path rows checksum w).1).
Proof.
  intros Hpk.
  destruct (ingest_with_engine_outcome file_path rows checksum w) as [Hruns [H|H]].
  - by apply grows_same_but_runs.
  - destruct (committed_db_grows file_path rows (w_db w) Hpk) as [_ Hg].
    eapply grows_trans; [exact Hg|].
    apply grows_same_but_runs; [done|].
    destruct (transaction_body_audit file_path rows (w_db w)) as [_ Hr].
    unfold committed_db. by rewrite Hr.
Qed.

(** X11: a call of [ingest_with_engine] keeps the primary keys and the
    unique constraints of the dimension tables: when ids, item slugs and
    region codes are unique before the call they are unique after it,
    whether it returns or raises. *)
Theorem ingest_with_engine_keeps_constraints (file_path : string)
    (rows : list base_row) (checksum : string) (w : world) :
  primary_keys_unique (w_db w) → unique_keys (w_db w) →
  primary_keys_unique (w_db (ingest_with_engine file_path rows checksum w).1)
  ∧ unique_keys (w_db (ingest_with_engine file_path rows checksum w).1).
Proof.
  intros Hpk Huk.
  destruct (ingest_with_engine_outcome file_path rows checksum w)
    as [_ [(Hi & Hr & _)|(Hi & Hr & _)]];
    unfold primary_keys_unique, unique_keys; rewrite Hi, Hr.
  - by destruct Hpk, Huk.
  - destruct (committed_db_grows file_path rows (w_db w) Hpk) as [[? ?] _].
    destruct (committed_db_unique file_path rows (w_db w) Hpk Huk) as [? ?].
    done.
Qed.

End StoreGrowth.

Section StoreGrowthExamples.
Local Existing Instance example_runtime.

Lemma seeded_database_constraints :
  primary_keys_unique seeded_database ∧ unique_keys seeded_database.
Proof.
  split; split; simpl; apply NoDup_singleton.
Qed.

Lemma ingest_with_engine_keeps_records_witness :
  grows seeded_database
    (w_db (ingest_with_engine "annex.xlsx" two_rows "c0ffee"
             (set_w_db seeded_database empty_world)).1).
Proof.
  apply (ingest_with_engine_keeps_records "annex.xlsx" two_rows "c0ffee"
           (set_w_db seeded_database empty_world)).
  apply seeded_database_constraints.
Defined.

Lemma ingest_with_engine_keeps_constraints_witness :
  unique_keys
    (w_db (ingest_with_engine "annex.xlsx" two_rows "c0ffee"
             (set_w_db seeded_database empty_world)).1).
Proof.
  apply (ingest_with_engine_keeps_constraints "annex.xlsx" two_rows "c0ffee"
           (set_w_db seeded_database empty_world));
    apply seeded_database_constraints.
Defined.

End StoreGrowthExamples.

(** ** Failed calls, the retry budget and the foreign keys *)

Section EngineBudget.
Context `{RT : PyRuntime}.

(** X12: a call of [ingest_with_engine] that raises leaves the item,
    region, raw and series tables exactly as they were, whatever the
    attempts had written before failing; the run table either is unchanged
    (the run record could not be written) or has gained one record, of
    status "failed", with the checksum of the call. *)
Theorem failed_call_changes_no_data (file_path : string) (rows : list base_row)
    (checksum : string) (w : world) (e : exn) :
  let r := ingest_with_engine file_path rows checksum w in
  r.2 = Raise e →
  same_but_runs (w_db w) (w_db r.1)
  ∧ (etl_runs_table (w_db r.1) = etl_runs_table (w_db w)
     ∨ ∃ record, etl_runs_table (w_db r.1) = etl_runs_table (w_db w) ++ [record]
                 ∧ run_status record = "failed"
                 ∧ run_checksum record = checksum).
Proof.
  intros r Hraise. subst r. split.
  - pose proof (ingest_with_engine_store file_path rows checksum w) as H.
    by rewrite Hraise in H.
  - rewrite ingest_with_engine_eq in Hraise |- *. cbn [fst snd] in *.
    pose proof (ingest_try_runs file_path rows (tick_clock (draw_uuid w), [])) as Hruns.
    change (w_db (tick_clock (draw_uuid w), []).1) with (w_db w) in Hruns.
    destruct ((ingest_try file_path rows (tick_clock (draw_uuid w), [])).2) as [e'|];
      [|done].
    match goal with
    | |- context [record_run ?i ?s ?c ?f ?st] =>
        destruct (record_run_effect i s c f st) as (_ & _ & H)
    end.
    destruct (single_statement_fault _); destruct H as [-> _].
    + left. exact Hruns.
    + right. eexists. rewrite etl_runs_insert_run, Hruns. by split_and!.
Qed.

(** *** The retry budget *)

Lemma consumed_refl w : consumed w w 0 [].
Proof. unfold consumed. simpl. by rewrite app_nil_r, Nat.add_0_r. Qed.

Lemma consumed_trans w1 w2 w3 n1 n2 s1 s2 :
  consumed w1 w2 n1 s1 → consumed w2 w3 n2 s2 → consumed w1 w3 (n1 + n2) (s1 ++ s2).
Proof.
  intros (Hf & Hs & Hd) (Hf' & Hs' & Hd'). unfold consumed.
  rewrite Hf', Hf, Hs', Hs, Hd', Hd, drop_drop, length_app, app_assoc.
  split_and!; [f_equal; lia | done | lia].
Qed.

Lemma consumed_ext w w1 w2 n s :
  w_faults w2 = w_faults w1 → w_sleeps w2 = w_sleeps w1 →
  w_disposed w2 = w_disposed w1 →
  consumed w w1 n s → consumed w w2 n s.
Proof. unfold consumed. by intros -> -> ->. Qed.

Lemma consumed_next_fault w : consumed w (next_fault w).2 1 [].
Proof.
  unfold consumed, next_fault.
  destruct (w_faults w) as [|f rest] eqn:E; simpl; rewrite ?E, ?app_nil_r, ?Nat.add_0_r;
    split_and!; done.
Qed.

Lemma consumed_append_log level message (st : frame) w n s :
  consumed w st.1 n s → consumed w (append_log level message st).1 n s.
Proof.
  destruct st as [w1 log]. intros H.
  eapply consumed_ext; [| | |exact H]; reflexivity.
Qed.

Lemma consumed_dispose_and_sleep seconds w w1 n :
  consumed w w1 n [] → consumed w (dispose_and_sleep seconds w1) n [seconds].
Proof.
  intros (Hf & Hs & Hd). unfold consumed. rewrite app_nil_r in Hs.
  cbn [dispose_and_sleep w_faults w_sleeps w_disposed length] in *.
  split_and!; [done | by rewrite Hs | lia].
Qed.

Lemma retry_step_consumed attempt rest file_path rows w log :
  (∃ st' o, retry_loop (attempt :: rest) file_path rows (w, log) = (st', o)
            ∧ consumed w st'.1 1 [])
  ∨ (attempt ≠ MAX_RETRIES
     ∧ ∃ st', retry_loop (attempt :: rest) file_path rows (w, log)
              = retry_loop rest file_path rows st'
              ∧ consumed w st'.1 1 [wait_time_after attempt]).
Proof.
  simpl retry_loop.
  pose proof (consumed_next_fault w) as Hnext.
  destruct (next_fault w) as [f w1]. cbn [snd] in Hnext.
  destruct (run_transaction f (w_db w1) (transaction_body file_path rows))
    as [db report].
  assert (Hbase : ∀ level1 m1 level2 m2,
    consumed w
      (if tx_body_done report
       then append_log level2 m2
              (if tx_entered report then append_log level1 m1 (set_w_db db w1, log)
               else (set_w_db db w1, log))
       else if tx_entered report then append_log level1 m1 (set_w_db db w1, log)
            else (set_w_db db w1, log)).1 1 []).
  { intros. assert (H0 : consumed w (set_w_db db w1, log).1 1 [])
      by (eapply consumed_ext; [| | |exact Hnext]; reflexivity).
    destruct (tx_body_done report), (tx_entered report);
      repeat apply consumed_append_log; exact H0. }
  destruct (tx_error report) as [e|].
  - destruct (is_dbapi_error e).
    + case_bool_decide as Hlast.
      * left. eexists _, _. split; [reflexivity|].
        apply consumed_append_log, Hbase.
      * right. split; [done|].
        match goal with
        | |- context [append_log "warning" ?m ?st] =>
            pose proof (consumed_append_log "warning" m st w 1 [] (Hbase _ _ _ _)) as Hw;
            destruct (append_log "warning" m st) as [w2 log2]
        end.
        eexists. split; [reflexivity|].
        cbn [fst] in *. by apply consumed_dispose_and_sleep.
    + left. eexists _, _. split; [reflexivity|]. apply Hbase.
  - left. eexists _, _. split; [reflexivity|]. apply Hbase.
Qed.

Lemma retry_loop_consumed attempts file_path rows (st : frame) :
  ∃ n, (n ≤ length attempts)%nat
       ∧ consumed st.1 (retry_loop attempts file_path rows st).1.1
           (S n `min` length attempts) (wait_time_after <$> take n attempts)
       ∧ (n = length attempts → Forall (λ a, a ≠ MAX_RETRIES) attempts).
Proof.
  revert st. induction attempts as [|attempt rest IH]; intros [w log].
  - exists 0%nat. split_and!; [done | apply consumed_refl | by constructor].
  - destruct (retry_step_consumed attempt rest file_path rows w log)
      as [(st' & o & -> & Hc)|(Hne & st' & -> & Hc)].
    + exists 0%nat. split_and!; [simpl; lia | exact Hc | done].
    + destruct (IH st') as (n & Hn & Hc' & Hall).
      exists (S n). split_and!; [simpl; lia | |].
      * pose proof (consumed_trans _ _ _ _ _ _ _ Hc Hc') as Hsum.
        cbn [length take fmap list_fmap app] in *.
        replace (S (S n) `min` S (length rest))%nat
          with (1 + S n `min` length rest)%nat by lia.
        exact Hsum.
      * intros [= Hlen]. constructor; [done | by apply Hall].
Qed.

Lemma record_run_consumed run_id started_at checksum final_status (st : frame) :
  consumed st.1 (record_run run_id started_at checksum final_status st) 1 [].
Proof.
  destruct st as [w log]. unfold record_run, consumed. cbn [fst snd].
  generalize (Str.take (Z.to_nat MAX_LOG_CHARS) (String.concat newline log)).
  intros truncated.
  destruct w as [db faults clock uuids logger sleeps disposed].
  destruct faults as [|[[e|[|n] e|e]|] rest]; cbn;
    rewrite ?app_nil_r, ?Nat.add_0_r; split_and!; reflexivity.
Qed.

(** X13: whatever the storage does, one call of [ingest_with_engine] opens
    at most three ingestion transactions and one transaction for the run
    record.  With n the number of retries (at most two), it sleeps n times,
    2 seconds and then 4 seconds, disposes of the engine once per sleep and
    consumes n + 2 transactions; the 10-second cap of the back-off is never
    reached. *)
Theorem retry_budget (file_path : string) (rows : list base_row)
    (checksum : string) (w : world) :
  ∃ n, (n ≤ 2)%nat
       ∧ consumed w (ingest_with_engine file_path rows checksum w).1
           (n + 2) (take n [2; 4]).
Proof.
  rewrite ingest_with_engine_eq. cbn [fst].
  set (st0 := append_log "info"
                ("Starting database ingestion for " +:+ pretty (length rows) +:+ " rows")
                (tick_clock (draw_uuid w), [])).
  assert (H0 : consumed w st0.1 0 [])
    by (apply consumed_append_log;
        eapply consumed_ext; [| | |apply consumed_refl]; reflexivity).
  destruct (retry_loop_consumed (seq 1 MAX_RETRIES) file_path rows st0)
    as (n & Hn & Hc & Hall).
  assert (Hn2 : (n ≤ 2)%nat).
  { change (length (seq 1 MAX_RETRIES)) with 3%nat in *.
    destruct (decide (n = 3%nat)) as [->|]; [|lia].
    specialize (Hall eq_refl).
    change (seq 1 MAX_RETRIES) with [1; 2; 3]%nat in Hall.
    rewrite !Forall_cons in Hall. destruct Hall as (_ & _ & Hne & _).
    by destruct Hne. }
  exists n. split; [done|].
  assert (Htry : consumed w (ingest_try file_path rows (tick_clock (draw_uuid w), [])).1.1
                   (S n) (take n [2; 4])).
  { unfold ingest_try. fold st0.
    pose proof (consumed_trans _ _ _ _ _ _ _ H0 Hc) as Hsum.
    change (length (seq 1 MAX_RETRIES)) with 3%nat in *.
    replace (0 + S n `min` 3)%nat with (S n) in Hsum by lia.
    assert (Hs : wait_time_after <$> take n (seq 1 MAX_RETRIES) = take n [2; 4]).
    { destruct n as [|[|[|n]]]; [done | done | done | lia]. }
    rewrite Hs in Hsum. cbn [app] in Hsum.
    destruct (retry_loop (seq 1 MAX_RETRIES) file_path rows st0) as [st1 [e|]];
      cbn [fst] in *; [done|].
    by apply consumed_append_log. }
  match goal with
  | |- context [record_run ?i ?s ?c ?f ?st] =>
      pose proof (consumed_trans _ _ _ _ _ _ _ Htry (record_run_consumed i s c f st)) as H
  end.
  rewrite app_nil_r in H. by replace (n + 2)%nat with (S n + 1)%nat by lia.
Qed.

(** *** Foreign keys *)

Lemma apply_upserts_key (upserts : list (fact_key * string))
    (facts : gmap fact_key string) (k : fact_key) :
  is_Some (apply_upserts facts upserts !! k) →
  (∃ kv, kv ∈ upserts ∧ kv.1 = k) ∨ is_Some (facts !! k).
Proof.
  revert facts. induction upserts as [|[k0 v0] upserts IH]; intros facts; [by right|].
  cbn [apply_upserts foldl]. fold (apply_upserts (<[k0:=v0]> facts) upserts).
  intros [(kv & Hin & Hk)|H]%IH.
  - left. exists kv. split; [by right | done].
  - destruct (decide (k = k0)) as [->|Hne].
    + left. exists (k0, v0). split; [left | done].
    + right. by rewrite lookup_insert_ne in H.
Qed.

Lemma resolved_references db rows upserts kv :
  resolved db rows upserts → kv ∈ upserts →
  kv.1.1.1 ∈ (item_id <$> items_table db) ∧ kv.1.1.2 ∈ (region_id <$> regions_table db).
Proof.
  intros Hres. revert kv.
  induction Hres as [|row kv0 rows upserts (iid & rid & d & Hi & Hr & _ & ->) _ IH];
    intros kv; [by intros ?%elem_of_nil|].
  intros [->|Hin]%elem_of_cons; [|by apply IH].
  destruct Hi as (r & Hin & <- & _). destruct Hr as (r' & Hin' & <- & _).
  cbn [fst snd]. split; by apply list_elem_of_fmap_2.
Qed.

Lemma grows_ids db db' :
  grows db db' →
  (∀ i, i ∈ (item_id <$> items_table db) → i ∈ (item_id <$> items_table db'))
  ∧ (∀ i, i ∈ (region_id <$> regions_table db) → i ∈ (region_id <$> regions_table db')).
Proof.
  intros (Hi & [new ->] & _). split.
  - intros i (r & -> & Hr)%list_elem_of_fmap.
    destruct (Hi r Hr) as (r' & Hr' & <- & _). by apply list_elem_of_fmap_2.
  - intros i Hin. rewrite fmap_app. apply elem_of_app. by left.
Qed.

(** X14: a call of [ingest_with_engine] keeps the foreign keys of the
    series table: when primary keys are unique and every fact refers to a
    stored item and a stored region before the call, so it is after the
    call, whether it returns or raises. *)
Theorem ingest_with_engine_keeps_references (file_path : string)
    (rows : list base_row) (checksum : string) (w : world) :
  primary_keys_unique (w_db w) → references_hold (w_db w) →
  references_hold (w_db (ingest_with_engine file_path rows checksum w).1).
Proof.
  intros Hpk Href.
  pose proof (ingest_with_engine_store file_path rows checksum w) as H.
  destruct ((ingest_with_engine file_path rows checksum w).2) as [s|e].
  - destruct H as [Hbody (Hi & Hr & _ & Hs)].
    destruct (transaction_body_run file_path rows (w_db w) Hpk Hbody)
      as (upserts & Hres & Hser & _).
    destruct (committed_db_grows file_path rows (w_db w) Hpk) as [_ Hg].
    destruct (grows_ids _ _ Hg) as [Hgi Hgr].
    intros k Hk. rewrite Hi, Hr. rewrite Hs, Hser in Hk.
    apply apply_upserts_key in Hk as [(kv & Hin & <-)|Hold].
    + by eapply resolved_references.
    + destruct (Href k Hold). auto.
  - destruct H as (Hi & Hr & _ & Hs).
    intros k Hk. rewrite Hi, Hr. rewrite Hs in Hk. by apply Href.
Qed.

End EngineBudget.

Section EngineBudgetExamples.
Local Existing Instance example_runtime.

Lemma failed_call_changes_no_data_witness :
  same_but_runs (w_db empty_world) (w_db month_13_run.1).
Proof.
  assert (H : month_13_run.2 = Raise (ValueError "month must be in 1..12"))
    by (vm_compute; reflexivity).
  apply (failed_call_changes_no_data "annex.xlsx" month_13_rows "c0ffee" empty_world _ H).
Defined.

Lemma ingest_with_engine_keeps_references_witness :
  references_hold
    (w_db (ingest_with_engine "annex.xlsx" two_rows "c0ffee"
             (set_w_db seeded_database empty_world)).1).
Proof.
  apply (ingest_with_engine_keeps_references "annex.xlsx" two_rows "c0ffee"
           (set_w_db seeded_database empty_world)).
  - apply seeded_database_constraints.
  - intros k [v Hk]. cbn [set_w_db w_db seeded_database series_table] in Hk.
    by rewrite lookup_empty in Hk.
Defined.

End EngineBudgetExamples.

(** ** The pipeline in its two modes ([etl/phase3_pipeline.py:
       run_phase3_pipeline], [collect_validation_snapshot]) *)

Section PipelineModes.
Context `{RT : PyRuntime}.

Lemma date_ltb_spec (a b : date) :
  date_ltb a b = true
  ↔ a.1.1 < b.1.1 ∨ a.1.1 = b.1.1 ∧ (a.1.2 < b.1.2 ∨ a.1.2 = b.1.2 ∧ a.2 < b.2).
Proof.
  destruct a as [[ya ma] da], b as [[yb mb] db]. cbn [date_ltb fst snd].
  rewrite orb_true_iff, andb_true_iff, orb_true_iff, andb_true_iff.
  rewrite !Z.ltb_lt, !Z.eqb_eq. tauto.
Qed.

Lemma date_ltb_irrefl (a : date) : date_ltb a a = false.
Proof.
  apply not_true_is_false. rewrite date_ltb_spec. lia.
Qed.

Lemma date_ltb_trans (a b c : date) :
  date_ltb a b = true → date_ltb b c = true → date_ltb a c = true.
Proof. rewrite !date_ltb_spec. lia. Qed.

Lemma date_ltb_false_trans (a b c : date) :
  date_ltb a b = true → date_ltb a c = false → date_ltb b c = false.
Proof.
  intros Hab Hac. apply not_true_is_false. intros Hbc.
  by rewrite (date_ltb_trans _ _ _ Hab Hbc) in Hac.
Qed.

Lemma max_date_latest (facts : gmap fact_key string) :
  latest_of facts (max_date facts).
Proof.
  unfold max_date.
  match goal with
  | |- latest_of _ (foldr ?f None _) =>
      assert (Hl : ∀ l : list (fact_key * string),
                match foldr f None l with
                | None => l = []
                | Some d => (∃ kv, kv ∈ l ∧ kv.1.2 = d)
                            ∧ ∀ kv, kv ∈ l → date_ltb d kv.1.2 = false
                end)
  end.
  { induction l as [|[k v] l IH]; [done|]. cbn [foldr].
    match goal with
    | |- context [foldr ?f None l] => destruct (foldr f None l) as [d'|]
    end.
    - destruct IH as [(kv & Hin & Hkv) Hmax].
      destruct (date_ltb d' k.2) eqn:Hlt.
      + split; [exists (k, v); split; [left | done]|].
        intros kv' [->|Hin']%elem_of_cons; [apply date_ltb_irrefl|].
        eapply date_ltb_false_trans; [exact Hlt | by apply Hmax].
      + split; [exists kv; split; [by right | done]|].
        intros kv' [->|Hin']%elem_of_cons; [done | by apply Hmax].
    - subst l. split; [exists (k, v); split; [left | done]|].
      intros kv' [->|Hin']%elem_of_cons; [apply date_ltb_irrefl|].
      by apply elem_of_nil in Hin'. }
  match goal with
  | |- latest_of _ (foldr ?f None ?l) =>
      specialize (Hl l); destruct (foldr f None l) as [d|]
  end; unfold latest_of.
  - destruct Hl as [([k v] & Hin & Hkv) Hmax]. split.
    + exists k. split; [|done]. exists v. by apply elem_of_map_to_list in Hin.
    + intros k' [v' Hk']. apply (Hmax (k', v')). by apply elem_of_map_to_list.
  - by apply map_to_list_empty_iff.
Qed.

Lemma process_batches_preview batches summaries (w : world) previews :
  process_batches true batches summaries (w, previews)
  = ((w, previews ++ (preview_file <$> batches)),
     Ok (summaries ++ (preview_summary <$> batches))).
Proof.
  revert summaries previews.
  induction batches as [|batch rest IH]; intros summaries previews.
  - cbn. by rewrite !app_nil_r.
  - cbn [process_batches]. rewrite IH. cbn [fmap list_fmap].
    by rewrite <-!app_assoc.
Qed.

Lemma summary_rows (f : SourceBatch → batch_summary) batches :
  (∀ batch, bs_rows (f batch) = length (batch_rows batch)) →
  foldr Nat.add 0%nat (bs_rows <$> (f <$> batches)) = total_rows batches.
Proof.
  intros Hf. unfold total_rows.
  induction batches as [|batch rest IH]; [done|].
  cbn [fmap list_fmap foldr]. rewrite Hf. f_equal. exact IH.
Qed.

(** X15: in preview mode (a dry run, or no database configured) a run of
    the pipeline never reaches the engine: the store is left as it was, no
    transaction is opened and nothing is sent to the logger.  When every
    source loads, it writes one preview file per batch, after those
    already written and in batch order, and returns one summary with
    status "preview" per batch, the batch count, the total row count and
    no validation snapshot; when a source fails to load it writes nothing
    and raises that exception. *)
Theorem preview_mode_leaves_environment
    (mospi_annexes : list (source annex_cells))
    (datagov_resources : list (source datagov_cells))
    (imf_series : list (source imf_entry))
    (dpiit_resources : list (source dpiit_cells))
    (has_engine dry_run : bool) (pw : pipeline_world) :
  dry_run || negb has_engine = true →
  let run := run_phase3_pipeline mospi_annexes datagov_resources imf_series
               dpiit_resources has_engine dry_run pw in
  run.1.1 = pw.1
  ∧ match build_batches mospi_annexes datagov_resources imf_series dpiit_resources with
    | Raise e => run.1.2 = pw.2 ∧ run.2 = Raise e
    | Ok batches =>
        run.1.2 = pw.2 ++ (preview_file <$> batches)
        ∧ run.2 = Ok {| ps_batches := preview_summary <$> batches;
                        ps_totals := {| t_batches := length batches;
                                        t_rows := total_rows batches;
                                        t_validation := None |} |}
    end.
Proof.
  intros Hmode. cbv zeta. unfold run_phase3_pipeline. rewrite Hmode.
  destruct (build_batches _ _ _ _) as [batches|e]; [|done].
  destruct pw as [w previews]. rewrite process_batches_preview.
  assert (Hno : negb dry_run && has_engine = false).
  { destruct dry_run, has_engine; done. }
  rewrite Hno. cbn [fst snd app]. split_and!; [done | done |].
  by rewrite (summary_rows preview_summary).
Qed.

Lemma process_batches_ingest batches summaries (pw pw' : pipeline_world) result :
  process_batches false batches summaries pw = (pw', Ok result) →
  pw'.2 = pw.2 ∧ result = summaries ++ (ingested_summary <$> batches).
Proof.
  revert summaries pw.
  induction batches as [|batch rest IH]; intros summaries [w previews].
  - cbn. intros [= <- <-]. by rewrite app_nil_r.
  - cbn [process_batches].
    destruct (ingest_with_engine _ _ _ w) as [w1 [s|e]]; [|done].
    intros [Hp ->]%IH. split; [done|].
    cbn [fmap list_fmap]. by rewrite <-app_assoc.
Qed.

(** X16: a summary returned by an ingesting run of the pipeline (a database
    is configured, no dry run) lists every batch built from the sources,
    in order, with status "ingested"; its totals give the batch count and
    the total row count; no preview file is written; and its validation
    snapshot counts the item and region records of the store as the run
    leaves it and names the latest date among its facts, or none when
    the store has no fact. *)
Theorem ingesting_run_summary
    (mospi_annexes : list (source annex_cells))
    (datagov_resources : list (source datagov_cells))
    (imf_series : list (source imf_entry))
    (dpiit_resources : list (source dpiit_cells))
    (pw : pipeline_world) (summary : PipelineSummary) :
  let run := run_phase3_pipeline mospi_annexes datagov_resources imf_series
               dpiit_resources true false pw in
  run.2 = Ok summary →
  ∃ batches snapshot,
    build_batches mospi_annexes datagov_resources imf_series dpiit_resources
    = Ok batches
    ∧ ps_batches summary = ingested_summary <$> batches
    ∧ t_batches (ps_totals summary) = length batches
    ∧ t_rows (ps_totals summary) = total_rows batches
    ∧ run.1.2 = pw.2
    ∧ t_validation (ps_totals summary) = Some snapshot
    ∧ v_items snapshot = length (items_table (w_db run.1.1))
    ∧ v_regions snapshot = length (regions_table (w_db run.1.1))
    ∧ latest_of (series_table (w_db run.1.1)) (v_latest_date snapshot).
Proof.
  cbv zeta. unfold run_phase3_pipeline.
  destruct (build_batches _ _ _ _) as [batches|e]; [|done].
  cbn [orb negb andb].
  destruct (process_batches false batches [] pw) as [[w previews] [summaries|e]] eqn:Hp;
    [|done].
  apply process_batches_ingest in Hp as [Hprev ->]. cbn [fst snd app] in *.
  unfold collect_validation_snapshot.
  pose proof (next_fault_world w) as Hnf.
  destruct (next_fault w) as [f w1].
  destruct (run_transaction f (w_db w1) _) as [db report].
  destruct (tx_error report); [done|].
  intros [= <-]. cbn [fst snd ps_batches ps_totals t_batches t_rows t_validation].
  eexists batches, _. split_and!; try done.
  - by rewrite (summary_rows ingested_summary).
  - cbn [v_latest_date]. apply max_date_latest.
Qed.

Lemma ingest_with_engine_store_ok file_path rows checksum w :
  store_ok (w_db w) →
  store_ok (w_db (ingest_with_engine file_path rows checksum w).1)
  ∧ grows (w_db w) (w_db (ingest_with_engine file_path rows checksum w).1).
Proof.
  intros (Hpk & Huk & Href).
  destruct (ingest_with_engine_outcome file_path rows checksum w) as [Hruns Hout].
  destruct (committed_db_grows file_path rows (w_db w) Hpk) as [Hpk' Hg].
  destruct (committed_db_unique file_path rows (w_db w) Hpk Huk) as [Hu1 Hu2].
  assert (Hgrows : grows (w_db w) (w_db (ingest_with_engine file_path rows checksum w).1)).
  { destruct Hout as [H|H]; [by apply grows_same_but_runs|].
    eapply grows_trans; [exact Hg|].
    apply grows_same_but_runs; [done|].
    destruct (transaction_body_audit file_path rows (w_db w)) as [_ Hr].
    unfold committed_db. by rewrite Hr. }
  split; [|done].
  pose proof (ingest_with_engine_store file_path rows checksum w) as H.
  destruct ((ingest_with_engine file_path rows checksum w).2) as [s|e].
  - destruct H as [Hbody (Hi & Hr & _ & Hs)].
    destruct (transaction_body_run file_path rows (w_db w) Hpk Hbody)
      as (upserts & Hres & Hser & _).
    destruct (grows_ids _ _ Hg) as [Hgi Hgr].
    unfold store_ok, primary_keys_unique, unique_keys, references_hold.
    rewrite Hi, Hr. split_and!; try done; try apply Hpk'.
    intros k Hk. rewrite Hs, Hser in Hk.
    apply apply_upserts_key in Hk as [(kv & Hin & <-)|Hold].
    + by eapply resolved_references.
    + destruct (Href k Hold). auto.
  - destruct H as (Hi & Hr & _ & Hs).
    unfold store_ok, primary_keys_unique, unique_keys, references_hold.
    rewrite Hi, Hr. split_and!; try done; try apply Hpk; try apply Huk.
    intros k Hk. rewrite Hs in Hk. by apply Href.
Qed.

Lemma process_batches_store_ok preview_only batches summaries (pw : pipeline_world) :
  store_ok (w_db pw.1) →
  store_ok (w_db (process_batches preview_only batches summaries pw).1.1)
  ∧ grows (w_db pw.1) (w_db (process_batches preview_only batches summaries pw).1.1).
Proof.
  revert summaries pw.
  induction batches as [|batch rest IH]; intros summaries [w previews] Hok.
  - cbn. split; [done | apply grows_refl].
  - cbn [process_batches]. destruct preview_only; [by apply (IH _ (w, _ ++ _))|].
    destruct (ingest_with_engine_store_ok (batch_file_path batch)
                (_base_row <$> batch_rows batch) (batch_checksum batch) w Hok)
      as [Hok1 Hg1].
    destruct (ingest_with_engine _ _ _ w) as [w1 [s|e]]; cbn [fst snd] in *; [|done].
    destruct (IH (summaries ++ [base_summary batch "ingested" None None])
                (w1, previews) Hok1) as [Hok2 Hg2].
    split; [done | by eapply grows_trans].
Qed.

(** X17: a run of the pipeline, in either mode and whether it returns or
    raises, keeps the constraints of the schema and removes nothing: when
    primary keys, item slugs and region codes are unique and every fact
    refers to a stored item and region before the run, so it is after it,
    and every record of the store is still there (item records with their
    alias lists extended at most). *)
Theorem pipeline_keeps_store
    (mospi_annexes : list (source annex_cells))
    (datagov_resources : list (source datagov_cells))
    (imf_series : list (source imf_entry))
    (dpiit_resources : list (source dpiit_cells))
    (has_engine dry_run : bool) (pw : pipeline_world) :
  store_ok (w_db pw.1) →
  let run := run_phase3_pipeline mospi_annexes datagov_resources imf_series
               dpiit_resources has_engine dry_run pw in
  store_ok (w_db run.1.1) ∧ grows (w_db pw.1) (w_db run.1.1).
Proof.
  intros Hok. cbv zeta. unfold run_phase3_pipeline.
  destruct (build_batches _ _ _ _) as [batches|e];
    [|split; [done | apply grows_refl]].
  pose proof (process_batches_store_ok (dry_run || negb has_engine) batches [] pw Hok)
    as H.
  destruct (process_batches _ batches [] pw) as [[w previews] [summaries|e]];
    cbn [fst snd] in *; [|done].
  destruct (negb dry_run && has_engine); [|done].
  pose proof (collect_validation_snapshot_db w) as Hdb.
  destruct (collect_validation_snapshot w) as [w1 [snapshot|e]]; cbn [fst snd] in *;
    by rewrite Hdb.
Qed.

End PipelineModes.

Section PipelineExamples.
Local Existing Instance example_runtime.

Lemma preview_mode_leaves_environment_witness :
  let pw : pipeline_world := (empty_world, []) in
  (run_phase3_pipeline one_annex [] [] [] false false pw).1.1 = pw.1.
Proof.
  exact (proj1 (preview_mode_leaves_environment one_annex [] [] [] false false
                  (empty_world, []) eq_refl)).
Defined.

Lemma one_annex_run_returns :
  ∃ summary,
    (run_phase3_pipeline one_annex [] [] [] true false (empty_world, [])).2
    = Ok summary.
Proof. vm_compute. eexists. reflexivity. Qed.

Lemma ingesting_run_summary_witness :
  ∃ summary batches,
    (run_phase3_pipeline one_annex [] [] [] true false (empty_world, [])).2
    = Ok summary
    ∧ build_batches one_annex [] [] [] = Ok batches
    ∧ ps_batches summary = ingested_summary <$> batches.
Proof.
  destruct one_annex_run_returns as [summary Hs]. exists summary.
  destruct (ingesting_run_summary one_annex [] [] [] (empty_world, []) summary Hs)
    as (batches & snapshot & Hb & Hl & _).
  exists batches. split_and!; [exact Hs | exact Hb | exact Hl].
Defined.

Lemma empty_store_ok : store_ok empty_database.
Proof.
  split_and!; try (split; simpl; apply NoDup_nil_2).
  intros k [v Hk]. cbn in Hk. by rewrite lookup_empty in Hk.
Qed.

Lemma pipeline_keeps_store_witness :
  let pw : pipeline_world := (empty_world, []) in
  store_ok (w_db (run_phase3_pipeline one_annex [] [] [] true false pw).1.1).
Proof.
  exact (proj1 (pipeline_keeps_store one_annex [] [] [] true false (empty_world, [])
                  empty_store_ok)).
Defined.

End PipelineExamples.

(** ** The annex workflow ([etl/fetch_mospi.py: run_etl]) *)

Section AnnexWorkflowFacts.
Context `{RT : PyRuntime}.

Lemma only_logged_refl w : only_logged w w.
Proof. by unfold only_logged. Qed.

Lemma only_logged_call level message w w' :
  only_logged w w' → only_logged w (logger_call level message w').
Proof.
  intros (? & ? & ? & ? & ? & ? & Hl). unfold only_logged. cbn.
  split_and!; try done. by apply prefix_app_r.
Qed.

Lemma parse_annex_length frame_rows rows :
  parse_annex frame_rows = Ok rows → length rows = length (complete_rows frame_rows).
Proof.
  intros H. unfold parse_annex in H.
  eapply row_loop_length; [apply parse_annex_row_no_skip | exact H].
Qed.

Lemma ingest_with_engine_summary file_path rows checksum w s :
  (ingest_with_engine file_path rows checksum w).2 = Ok s →
  summary_status s = "success" ∧ summary_rows_processed s = length rows.
Proof.
  rewrite ingest_with_engine_eq. cbn [snd].
  destruct ((ingest_try _ _ _).2); [done|]. by intros [= <-].
Qed.

(** X18: what a call of [run_etl] can have done.  A dry run leaves the
    store as it was, opens no transaction and writes one CSV file, which
    holds the parsed rows, one per sheet row without a missing cell;
    without a database the call leaves the store as it was, opens no
    transaction and writes no file; a call that reports an ingestion wrote
    no file and reports a successful run whose row count is the number of
    parsed rows; and a call that raises wrote no file and, outside a real
    ingestion, left the store as it was and opened no transaction.  In
    all these cases the messages already sent to the logger are kept. *)
Theorem run_etl_outcome (mospi_url : string) (download : result (source annex_cells))
    (dry_run has_engine : bool) (pw : pipeline_world) :
  let run := run_etl mospi_url download dry_run has_engine pw in
  match run.2 with
  | Ok (DryRun rows_parsed output_file) =>
      dry_run = true ∧ only_logged pw.1 run.1.1
      ∧ ∃ file frame_rows rows,
          download = Ok file ∧ src_content file = Loaded frame_rows
          ∧ parse_annex frame_rows = Ok rows
          ∧ run.1.2 = pw.2 ++ [(output_file, rows)]
          ∧ rows_parsed = length (complete_rows frame_rows)
  | Ok (Skipped rows_parsed checksum) =>
      dry_run = false ∧ has_engine = false ∧ only_logged pw.1 run.1.1
      ∧ run.1.2 = pw.2
  | Ok (Ingested result rows_parsed checksum) =>
      dry_run = false ∧ has_engine = true ∧ run.1.2 = pw.2
      ∧ summary_status result = "success"
      ∧ summary_rows_processed result = rows_parsed
  | Raise e =>
      run.1.2 = pw.2
      ∧ (only_logged pw.1 run.1.1 ∨ dry_run = false ∧ has_engine = true)
  end.
Proof.
  cbv zeta. destruct pw as [w files]. unfold run_etl.
  destruct download as [file|e]; cbn [fst snd].
  2: { split; [done|]. left. apply only_logged_call, only_logged_refl. }
  destruct (src_content file) as [e|frame_rows] eqn:Hc; cbn [fst snd].
  { split; [done|]. left. do 2 apply only_logged_call. apply only_logged_refl. }
  destruct (parse_annex frame_rows) as [rows|e] eqn:Hp; cbn [fst snd].
  2: { split; [done|]. left. do 2 apply only_logged_call. apply only_logged_refl. }
  destruct dry_run; cbn [fst snd].
  { split_and!; [done | do 4 apply only_logged_call; apply only_logged_refl |].
    exists file, frame_rows, rows. split_and!; try done.
    by apply parse_annex_length. }
  destruct has_engine; cbn [negb fst snd].
  2: { split_and!; try done. do 4 apply only_logged_call. apply only_logged_refl. }
  pose proof (ingest_with_engine_summary (src_path file) rows (src_checksum file)
                (logger_call "info" ("Parsed " +:+ pretty (length rows) +:+ " rows")
                   (logger_call "info" ("Saved annex to " +:+ src_path file)
                      (logger_call "info" ("Downloading MOSPI annex: " +:+ mospi_url) w))))
    as Hs.
  destruct (ingest_with_engine _ _ _ _) as [w1 [s|e]]; cbn [fst snd] in *.
  - destruct (Hs s eq_refl) as [? ?]. done.
  - split; [done|]. by right.
Qed.

End AnnexWorkflowFacts.

(** ** The monthly wrapper ([etl/monthly_refresh.py]) *)

Section MonthlyRefreshFacts.
Context `{RT : PyRuntime}.
Variable str_date : date → string.
Variable str_totals : totals → string.

Lemma read_transaction_error f db :
  tx_error (run_transaction f db (λ conn, (conn_execute id conn, None))).2
  = single_statement_fault f.
Proof. by destruct f as [[e|[|n] e|e]|]. Qed.

Lemma year_month_ltb_spec (a b : date) :
  year_month_ltb a b = true ↔ month_before a b.
Proof.
  unfold year_month_ltb, month_before.
  rewrite orb_true_iff, andb_true_iff, !Z.ltb_lt, Z.eqb_eq. done.
Qed.

Lemma month_before_le (d k reference : date) :
  date_ltb d k = false → month_before d reference → month_before k reference.
Proof.
  intros Hle%not_true_iff_false. rewrite date_ltb_spec in Hle.
  unfold month_before. lia.
Qed.

Lemma latest_stale db reference :
  match max_date (series_table db) with
  | None => true
  | Some latest => year_month_ltb latest reference
  end = true ↔ stale db reference.
Proof.
  pose proof (max_date_latest (series_table db)) as H. unfold stale.
  destruct (max_date (series_table db)) as [d|]; cbn [latest_of] in H.
  - destruct H as [(k & Hk & <-) Hmax]. rewrite year_month_ltb_spec. split.
    + intros Hd k' Hk'. eapply month_before_le; [by apply Hmax | done].
    + intros Hall. by apply Hall.
  - rewrite H. split; [|done]. intros _ k [v Hk]. by rewrite lookup_empty in Hk.
Qed.

Lemma should_refresh_eq reference w :
  should_refresh true reference w
  = ((next_fault w).2,
     match single_statement_fault (fault_at w 0) with
     | Some e => Raise e
     | None => Ok match max_date (series_table (w_db w)) with
                  | None => true
                  | Some latest => year_month_ltb latest reference
                  end
     end).
Proof.
  unfold should_refresh. cbn [negb].
  destruct (next_fault_world w) as (Hdb & _ & _ & _ & _ & _ & Hf).
  destruct (next_fault w) as [f w1]. cbn [fst snd] in *. subst f.
  pose proof (read_transaction_error (fault_at w 0) (w_db w1)) as He.
  destruct (run_transaction _ (w_db w1) _) as [db report]. cbn [snd] in He.
  rewrite He, Hdb.
  destruct (single_statement_fault (fault_at w 0)); [done|].
  by destruct (max_date (series_table (w_db w))).
Qed.

(** X19: [should_refresh] answers no without reading anything when no
    database is configured.  With a database it runs one read-only
    transaction: the store is left as it was and one entry of the fault
    schedule is consumed; when the transaction fails its error is raised;
    otherwise the answer is yes exactly when every fact of the store is
    dated before the month of the reference date, so also when the store
    has no fact. *)
Theorem should_refresh_decision (reference : date) (w : world) :
  should_refresh false reference w = (w, Ok false)
  ∧ let r := should_refresh true reference w in
    w_db r.1 = w_db w
    ∧ w_faults r.1 = tail (w_faults w)
    ∧ match single_statement_fault (fault_at w 0) with
      | Some e => r.2 = Raise e
      | None => ∃ answer, r.2 = Ok answer
                          ∧ (answer = true ↔ stale (w_db w) reference)
      end.
Proof.
  split; [done|]. cbv zeta. rewrite should_refresh_eq. cbn [fst snd].
  destruct (next_fault_world w) as (Hdb & _ & _ & _ & _ & Hfaults & _).
  split_and!; [done | done |].
  destruct (single_statement_fault (fault_at w 0)); [done|].
  eexists. split; [reflexivity|]. apply latest_stale.
Qed.

Lemma config_listed_nonempty config :
  config_listed config →
  negb (nonempty_list (cfg_mospi_annexes config)
        || nonempty_list (cfg_datagov_resources config)
        || nonempty_list (cfg_imf_series config)
        || nonempty_list (cfg_dpiit_resources config)) = false.
Proof.
  unfold config_listed. intros H.
  destruct (cfg_mospi_annexes config), (cfg_datagov_resources config),
    (cfg_imf_series config), (cfg_dpiit_resources config); cbn; try done.
  by destruct H as [?|[?|[?|?]]].
Qed.

(** X20: without [--force] the monthly wrapper does not run the pipeline
    when no database is configured, or when the store holds a fact dated
    in the current month or later and the read of the latest date is not
    hit by a fault: it returns, the store is as it was, no preview file
    is written, and the one message sent to the logger names the first
    day of the current month. *)
Theorem refresh_main_up_to_date (config : RefreshConfig) (has_engine : bool)
    (current_date : date) (pw : pipeline_world) :
  config_listed config →
  single_statement_fault (fault_at pw.1 0) = None →
  has_engine = false ∨ ¬ stale (w_db pw.1) current_date →
  let run := refresh_main str_date str_totals config has_engine false current_date pw in
  run.2 = Ok ()
  ∧ w_db run.1.1 = w_db pw.1
  ∧ run.1.2 = pw.2
  ∧ w_logger run.1.1
    = w_logger pw.1
      ++ [("info", "ETL already up to date for "
                   +:+ str_date (current_date.1.1, current_date.1.2, 1)
                   +:+ "; skipping")].
Proof.
  intros Hcfg Hfault Hcase. cbv zeta. unfold refresh_main.
  rewrite (config_listed_nonempty config Hcfg).
  destruct pw as [w previews]. cbn [fst snd] in *.
  destruct has_engine.
  - destruct Hcase as [?|Hfresh]; [done|].
    rewrite should_refresh_eq, Hfault.
    destruct (next_fault_world w) as (Hdb & _ & _ & Hlog & _).
    assert (Hno : match max_date (series_table (w_db w)) with
                  | None => true
                  | Some latest =>
                      year_month_ltb latest (current_date.1.1, current_date.1.2, 1)
                  end = false).
    { apply not_true_iff_false. rewrite latest_stale. intros Hs. apply Hfresh.
      intros k Hk. exact (Hs k Hk). }
    rewrite Hno. cbn [fst snd logger_call w_db w_logger].
    by rewrite Hdb, Hlog.
  - done.
Qed.

End MonthlyRefreshFacts.

Section WorkflowExamples.
Local Existing Instance example_runtime.

(** C9 as stated fails for the annex workflow.  [parse_annex] emits the
    row of the year 1900 and [run_etl] upserts it: the fact table holds a
    fact dated January 1900.  The pipeline, given the same annex, drops
    the row in [parse_mospi_annex] and writes no fact. *)
Lemma run_etl_ingests_any_year :
  row_year <$> default [] (returned (parse_annex old_annex_rows)) = [1900]
  ∧ match old_annex_etl.2 with
    | Ok (Ingested result rows_parsed _) =>
        summary_status result = "success" ∧ rows_parsed = 1%nat
    | _ => False
    end
  ∧ series_table (w_db old_annex_etl.1.1) !! (1, 1, (1900, 1, 1)) = Some "140.0"
  ∧ length <$> returned (parse_mospi_annex old_annex_rows) = Some 0%nat
  ∧ is_Some (returned old_annex_pipeline.2)
  ∧ series_table (w_db old_annex_pipeline.1.1) = ∅.
Proof. vm_compute. split_and!; (reflexivity || by eexists). Qed.

Lemma refresh_main_up_to_date_witness :
  let pw : pipeline_world := (march_world, []) in
  let run := refresh_main (λ _, "2024-03-01") (λ _, "totals") one_annex_config
               true false (2024, 3, 15) pw in
  run.2 = Ok ()
  ∧ w_db run.1.1 = w_db pw.1
  ∧ run.1.2 = pw.2
  ∧ w_logger run.1.1
    = w_logger pw.1
      ++ [("info", "ETL already up to date for " +:+ "2024-03-01" +:+ "; skipping")].
Proof.
  refine (refresh_main_up_to_date (λ _, "2024-03-01") (λ _, "totals") one_annex_config
            true (2024, 3, 15) (march_world, []) _ eq_refl _).
  - left. discriminate.
  - right. intros Hs.
    assert (H : month_before (2024, 3, 1) (2024, 3, 15)).
    { apply (Hs (1, 1, (2024, 3, 1))). exists "140.0". reflexivity. }
    unfold month_before in H. cbn in H. lia.
Defined.

End WorkflowExamples.

(** ** Engines ([etl/utils.py: get_engine], [dispose_engine]) *)

Section EngineCache.
Context `{RT : PyRuntime}.
Variable create_error : string → Z → Z → option exn.

Lemma _int_env_returns name default env :
  ∃ n, _int_env name default env = Ok n
       ∧ (n = default ∨ ∃ text, env !! name = Some text ∧ int_of_str text = Some n).
Proof.
  unfold _int_env. destruct (env !! name) as [text|]; cbn [py_int].
  - destruct (int_of_str text) as [n|] eqn:Hn.
    + exists n. split; [done|]. right. by exists text.
    + exists default. by split; [|left].
  - exists default. by split; [|left].
Qed.

Lemma get_engine_cases database_url p :
  match get_database_url database_url (environ p) with
  | None => get_engine create_error database_url p = (p, Ok None)
  | Some url =>
      if Str.nonempty url then
        match _ENGINE_CACHE p !! url with
        | Some engine => get_engine create_error database_url p = (p, Ok (Some engine))
        | None =>
            ∃ pool_size max_overflow,
              _int_env "DB_POOL_SIZE" 5 (environ p) = Ok pool_size
              ∧ _int_env "DB_POOL_MAX_OVERFLOW" 5 (environ p) = Ok max_overflow
              ∧ match create_error url pool_size max_overflow with
                | Some e => get_engine create_error database_url p = (p, Raise e)
                | None =>
                    let engine :=
                      {| engine_url := url; engine_pool_size := pool_size;
                         engine_max_overflow := max_overflow;
                         engine_serial := engines_created p |} in
                    get_engine create_error database_url p
                    = ({| environ := environ p;
                          _ENGINE_CACHE := <[url := engine]> (_ENGINE_CACHE p);
                          engines_created := S (engines_created p);
                          engines_disposed := engines_disposed p |},
                       Ok (Some engine))
                end
        end
      else get_engine create_error database_url p = (p, Ok None)
  end.
Proof.
  unfold get_engine.
  destruct (get_database_url database_url (environ p)) as [url|]; [|done].
  destruct (Str.nonempty url); cbn [negb]; [|done].
  destruct (_ENGINE_CACHE p !! url) as [engine|]; [done|].
  destruct (_int_env_returns "DB_POOL_SIZE" 5 (environ p)) as (pool_size & -> & _).
  destruct (_int_env_returns "DB_POOL_MAX_OVERFLOW" 5 (environ p))
    as (max_overflow & -> & _).
  exists pool_size, max_overflow. split_and!; [done | done |].
  unfold create_engine. by destruct (create_error url pool_size max_overflow).
Qed.

(** X21: once [get_engine] has returned an engine, a later call that
    resolves to the same URL returns that very engine and changes nothing:
    no engine is created, whatever the environment says about the pool by
    then. *)
Theorem get_engine_reuses (database_url : option string) (p p1 : process)
    (engine : Engine) (env : gmap string string) :
  get_engine create_error database_url p = (p1, Ok (Some engine)) →
  get_database_url database_url env = get_database_url database_url (environ p) →
  get_engine create_error database_url (set_environ env p1)
  = (set_environ env p1, Ok (Some engine)).
Proof.
  intros Hget Hurl.
  pose proof (get_engine_cases database_url p) as H1.
  pose proof (get_engine_cases database_url (set_environ env p1)) as H2.
  cbn [set_environ environ _ENGINE_CACHE] in H2. rewrite Hurl in H2.
  destruct (get_database_url database_url (environ p)) as [url|];
    [|by rewrite H1 in Hget].
  destruct (Str.nonempty url); [|by rewrite H1 in Hget].
  assert (Hc : _ENGINE_CACHE p1 !! url = Some engine).
  { destruct (_ENGINE_CACHE p !! url) as [cached|] eqn:Hc.
    - rewrite H1 in Hget. by injection Hget as <- <-.
    - destruct H1 as (pool_size & max_overflow & _ & _ & H1).
      destruct (create_error url pool_size max_overflow); [by rewrite H1 in Hget|].
      cbv zeta in H1. rewrite H1 in Hget. injection Hget as <- <-.
      cbn [_ENGINE_CACHE]. by rewrite lookup_insert_eq. }
  by rewrite Hc in H2.
Qed.

Lemma dispose_engine_cases database_url p :
  match get_database_url database_url (environ p) with
  | None => dispose_engine database_url p = p
  | Some url =>
      if Str.nonempty url then
        match _ENGINE_CACHE p !! url with
        | None => dispose_engine database_url p = p
        | Some engine =>
            dispose_engine database_url p
            = {| environ := environ p;
                 _ENGINE_CACHE := delete url (_ENGINE_CACHE p);
                 engines_created := engines_created p;
                 engines_disposed := engines_disposed p ++ [engine] |}
        end
      else dispose_engine database_url p = p
  end.
Proof.
  unfold dispose_engine.
  destruct (get_database_url database_url (environ p)) as [url|]; [|done].
  destruct (Str.nonempty url); cbn [negb]; [|done].
  by destruct (_ENGINE_CACHE p !! url).
Qed.

Lemma cache_inv_delete url p p' :
  cache_inv p → _ENGINE_CACHE p' = delete url (_ENGINE_CACHE p) →
  engines_created p' = engines_created p → cache_inv p'.
Proof.
  intros Hinv Hc Hn u e. rewrite Hc, Hn. intros [_ He]%lookup_delete_Some.
  by apply Hinv.
Qed.

(** X22: [dispose_engine] disposes of the engine cached for the URL, of
    that engine only and once, and removes it from the cache, leaving the
    other entries alone; when no engine is cached for the URL, or no URL is
    configured, it does nothing.  A second call does nothing more.  The
    engine that [get_engine] then returns for that URL is a new one, none
    of those created before, and its pool settings are those read from the
    environment at that time.  The cache keeps every engine under its own
    URL throughout. *)
Theorem dispose_engine_forgets (database_url : option string) (p : process) :
  cache_inv p →
  let p1 := dispose_engine database_url p in
  cache_inv p1
  ∧ dispose_engine database_url p1 = p1
  ∧ engines_created p1 = engines_created p
  ∧ match get_database_url database_url (environ p) with
    | None => p1 = p
    | Some url =>
        if Str.nonempty url then
          match _ENGINE_CACHE p !! url with
          | None => p1 = p
          | Some engine =>
              engines_disposed p1 = engines_disposed p ++ [engine]
              ∧ _ENGINE_CACHE p1 = delete url (_ENGINE_CACHE p)
              ∧ _ENGINE_CACHE p1 !! url = None
              ∧ environ p1 = environ p
          end
        else p1 = p
    end
  ∧ ∀ p2 engine,
      get_engine create_error database_url p1 = (p2, Ok (Some engine)) →
      engine_serial engine = engines_created p
      ∧ _int_env "DB_POOL_SIZE" 5 (environ p) = Ok (engine_pool_size engine)
      ∧ _int_env "DB_POOL_MAX_OVERFLOW" 5 (environ p) = Ok (engine_max_overflow engine)
      ∧ _ENGINE_CACHE p2 !! engine_url engine = Some engine
      ∧ cache_inv p2.
Proof.
  intros Hinv. cbv zeta.
  pose proof (dispose_engine_cases database_url p) as Hd.
  assert (Henv : environ (dispose_engine database_url p) = environ p).
  { destruct (get_database_url database_url (environ p)) as [url|]; [|by rewrite Hd].
    destruct (Str.nonempty url); [|by rewrite Hd].
    destruct (_ENGINE_CACHE p !! url); by rewrite Hd. }
  assert (Hn : engines_created (dispose_engine database_url p) = engines_created p).
  { destruct (get_database_url database_url (environ p)) as [url|]; [|by rewrite Hd].
    destruct (Str.nonempty url); [|by rewrite Hd].
    destruct (_ENGINE_CACHE p !! url); by rewrite Hd. }
  assert (Hinv1 : cache_inv (dispose_engine database_url p)).
  { destruct (get_database_url database_url (environ p)) as [url|]; [|by rewrite Hd].
    destruct (Str.nonempty url); [|by rewrite Hd].
    destruct (_ENGINE_CACHE p !! url); [|by rewrite Hd].
    eapply (cache_inv_delete url); [exact Hinv | by rewrite Hd | by rewrite Hd]. }
  assert (Hgone : ∀ url, get_database_url database_url (environ p) = Some url →
                         Str.nonempty url = true →
                         _ENGINE_CACHE (dispose_engine database_url p) !! url = None).
  { intros url Hu Hne. rewrite Hu, Hne in Hd.
    destruct (_ENGINE_CACHE p !! url) eqn:Hc; rewrite Hd; [|done].
    cbn [_ENGINE_CACHE]. apply lookup_delete_eq. }
  split_and!; [done | | done | |].
  - pose proof (dispose_engine_cases database_url (dispose_engine database_url p)) as H2.
    rewrite Henv in H2.
    destruct (get_database_url database_url (environ p)) as [url|] eqn:Hu; [|done].
    destruct (Str.nonempty url) eqn:Hne; [|done].
    by rewrite (Hgone url eq_refl Hne) in H2.
  - destruct (get_database_url database_url (environ p)) as [url|] eqn:Hu; [|done].
    destruct (Str.nonempty url) eqn:Hne; [|done].
    pose proof (Hgone url eq_refl Hne) as Hnone.
    destruct (_ENGINE_CACHE p !! url) as [engine|]; [|done].
    rewrite Hd in Hnone |- *. done.
  - intros p2 engine Hget.
    pose proof (get_engine_cases database_url (dispose_engine database_url p)) as H2.
    rewrite Henv, Hn in H2.
    destruct (get_database_url database_url (environ p)) as [url|] eqn:Hu;
      [|by rewrite H2 in Hget].
    destruct (Str.nonempty url) eqn:Hne; [|by rewrite H2 in Hget].
    rewrite (Hgone url eq_refl Hne) in H2.
    destruct H2 as (pool_size & max_overflow & Hps & Hmo & H2).
    destruct (create_error url pool_size max_overflow); [by rewrite H2 in Hget|].
    cbv zeta in H2. rewrite H2 in Hget. injection Hget as <- <-.
    cbn [engine_serial engine_pool_size engine_max_overflow engine_url _ENGINE_CACHE].
    split_and!; [done | done | done | by rewrite lookup_insert_eq |].
    intros u e. cbn [_ENGINE_CACHE engines_created].
    intros [[<- <-]|[_ He]]%lookup_insert_Some.
    + cbn. split; [done | lia].
    + destruct (Hinv1 u e He) as [? ?]. rewrite Hn in *. split; [done | lia].
Qed.

End EngineCache.

Section EngineExamples.
Local Existing Instance example_runtime.

Lemma fresh_process_cache_inv env : cache_inv (fresh_process env).
Proof. intros url engine H. cbn in H. by rewrite lookup_empty in H. Qed.

Lemma get_engine_reuses_witness :
  let create_error : string → Z → Z → option exn := λ _ _ _, None in
  let p := fresh_process ∅ in
  let engine := {| engine_url := "postgresql://db"; engine_pool_size := 5;
                   engine_max_overflow := 5; engine_serial := 0 |} in
  let p1 := {| environ := ∅; _ENGINE_CACHE := {[ "postgresql://db" := engine ]};
               engines_created := 1; engines_disposed := [] |} in
  let env : gmap string string := {[ "DB_POOL_SIZE" := "20" ]} in
  get_engine create_error (Some "postgresql://db") (set_environ env p1)
  = (set_environ env p1, Ok (Some engine)).
Proof.
  exact (get_engine_reuses (λ _ _ _, None) (Some "postgresql://db") (fresh_process ∅)
           _ _ {[ "DB_POOL_SIZE" := "20" ]} eq_refl eq_refl).
Defined.

Lemma pooled_process_cache_inv : cache_inv pooled_process.
Proof.
  intros url engine H. cbn [pooled_process _ENGINE_CACHE] in H.
  apply lookup_singleton_Some in H as [<- <-]. cbn. split; [done | lia].
Qed.

Lemma dispose_engine_forgets_witness :
  let p1 := dispose_engine (Some "postgresql://db") pooled_process in
  engines_disposed p1 = [pooled_engine]
  ∧ _ENGINE_CACHE p1 !! "postgresql://db" = None.
Proof.
  destruct (dispose_engine_forgets (λ _ _ _, None) (Some "postgresql://db")
              pooled_process pooled_process_cache_inv) as (_ & _ & _ & H & _).
  destruct H as (Hd & _ & Hc & _). split; [exact Hd | exact Hc].
Defined.

End EngineExamples.

(** ** Choice of the DPIIT file ([etl/phase3_pipeline.py:
       _load_dpiit_dataframe]) *)

Section DpiitArchive.

Lemma insert_sorted_head {A} (leb : A → A → bool) x l :
  ∃ h rest, insert_sorted leb x l = h :: rest
            ∧ (h = x ∧ (∀ y r, l = y :: r → leb x y = true)
               ∨ ∃ r, l = h :: r ∧ leb x h = false).
Proof.
  destruct l as [|y r]; simpl.
  - exists x, []. split; [done|]. left. by split.
  - destruct (leb x y) eqn:Hxy.
    + exists x, (y :: r). split; [done|]. left. split; [done|].
      by intros ? ? [= <- <-].
    + exists y, (insert_sorted leb x r). split; [done|]. right. by exists r.
Qed.

Lemma insert_sorted_elem {A} (leb : A → A → bool) x l y :
  y ∈ insert_sorted leb x l ↔ y = x ∨ y ∈ l.
Proof.
  induction l as [|z r IH]; simpl.
  - rewrite list_elem_of_singleton. split; [by left | intros [?|?%elem_of_nil]; done].
  - destruct (leb x z).
    + by rewrite elem_of_cons.
    + rewrite !elem_of_cons, IH. tauto.
Qed.

Lemma list_sort_elem {A} (leb : A → A → bool) l y :
  y ∈ list_sort leb l ↔ y ∈ l.
Proof.
  induction l as [|x l IH]; [done|].
  cbn [list_sort foldr]. fold (list_sort leb l).
  by rewrite insert_sorted_elem, IH, elem_of_cons.
Qed.

Lemma member_key_rank a b :
  (member_key_leb a b = true → member_rank a ≤ member_rank b)
  ∧ (member_key_leb a b = false → member_rank b ≤ member_rank a).
Proof.
  unfold member_key_leb. split.
  - intros [?%Z.ltb_lt|[?%Z.eqb_eq _]%andb_true_iff]%orb_true_iff; lia.
  - intros [?%Z.ltb_ge _]%orb_false_iff. lia.
Qed.

Lemma list_sort_head_rank l h rest :
  list_sort member_key_leb l = h :: rest →
  ∀ name, name ∈ l → member_rank h ≤ member_rank name.
Proof.
  revert h rest. induction l as [|x l IH]; intros h rest; [done|].
  cbn [list_sort foldr]. fold (list_sort member_key_leb l). intros Hs.
  destruct (insert_sorted_head member_key_leb x (list_sort member_key_leb l))
    as (h' & rest' & Heq & Hcase).
  rewrite Hs in Heq. injection Heq as <- <-.
  intros name [->|Hin]%elem_of_cons.
  - destruct Hcase as [[-> _]|(r & Hr & Hle)]; [done|].
    by apply member_key_rank.
  - destruct Hcase as [[-> Hle]|(r & Hr & Hle)].
    + destruct (list_sort member_key_leb l) as [|y r] eqn:Hl.
      * apply (list_sort_elem member_key_leb) in Hin. rewrite Hl in Hin.
        by apply elem_of_nil in Hin.
      * etrans; [apply (proj1 (member_key_rank x y)), (Hle y r eq_refl)|].
        by apply (IH y r).
    + by apply (IH h r).
Qed.

Lemma member_rank_cases name :
  (is_excel_name name = true ∧ member_rank name = 0)
  ∨ (is_excel_name name = false ∧ is_csv_name name = true ∧ member_rank name = 1)
  ∨ (is_excel_name name = false ∧ is_csv_name name = false ∧ member_rank name = 2).
Proof.
  unfold member_rank.
  destruct (is_excel_name name); [by left|].
  destruct (is_csv_name name); [right; by left | right; by right].
Qed.

Lemma _load_dpiit_dataframe_zip namelist :
  _load_dpiit_dataframe ".zip" namelist
  = match file_members namelist with
    | [] => Raise (ValueError "DPIIT archive is empty")
    | _ =>
        match list_sort member_key_leb (file_members namelist) with
        | [] => Raise (OtherError "list index out of range")
        | target_name :: _ =>
            if is_excel_name target_name then Ok (Some target_name, read_excel)
            else if is_csv_name target_name then Ok (Some target_name, read_csv)
            else Raise (ValueError ("Unsupported DPIIT file inside archive: "
                                    +:+ target_name))
        end
    end.
Proof. reflexivity. Qed.

(** X23: from an archive, [_load_dpiit_dataframe] reads a member that is a
    file, never a directory entry, and of the best kind the archive holds,
    wherever that member stands in the listing: an Excel file if there is
    one, read with the Excel reader; otherwise a CSV file, read with the
    CSV reader.  It raises exactly when no file member is an Excel or a CSV
    file, which includes the empty archive. *)
Theorem dpiit_archive_choice (namelist : list string) :
  match _load_dpiit_dataframe ".zip" namelist with
  | Ok (Some target_name, reader) =>
      target_name ∈ file_members namelist
      ∧ (∀ name, name ∈ file_members namelist →
                 member_rank target_name ≤ member_rank name)
      ∧ (reader = read_excel ∧ is_excel_name target_name = true
         ∨ reader = read_csv ∧ is_csv_name target_name = true
           ∧ ∀ name, name ∈ file_members namelist → is_excel_name name = false)
  | Ok (None, _) => False
  | Raise e =>
      is_value_error e = true
      ∧ ∀ name, name ∈ file_members namelist →
                is_excel_name name = false ∧ is_csv_name name = false
  end.
Proof.
  rewrite _load_dpiit_dataframe_zip.
  destruct (file_members namelist) as [|first others] eqn:Hm.
  { split; [done|]. by intros name ?%elem_of_nil. }
  assert (Hfirst : first ∈ file_members namelist) by (rewrite Hm; left).
  rewrite <-Hm. clear others Hm.
  destruct (list_sort member_key_leb (file_members namelist)) as [|target rest] eqn:Hs.
  { apply (list_sort_elem member_key_leb) in Hfirst. rewrite Hs in Hfirst.
    by apply elem_of_nil in Hfirst. }
  clear first Hfirst.
  assert (Hin : target ∈ file_members namelist).
  { apply (list_sort_elem member_key_leb). rewrite Hs. by left. }
  pose proof (list_sort_head_rank _ _ _ Hs) as Hmin.
  destruct (member_rank_cases target) as [[He Hr]|[(He & Hc & Hr)|(He & Hc & Hr)]];
    rewrite He, ?Hc.
  - split_and!; [done | done | by left].
  - split_and!; [done | done |]. right. split_and!; [done | done |].
    intros name Hname. specialize (Hmin name Hname).
    destruct (member_rank_cases name) as [[_ ?]|[(? & _)|(? & _)]]; [lia | done | done].
  - split; [done|]. intros name Hname. specialize (Hmin name Hname).
    destruct (member_rank_cases name) as [[_ ?]|[(_ & _ & ?)|(? & ? & _)]];
      [lia | lia | done].
Qed.

End DpiitArchive.

(** ** What a run writes into the dimension tables *)

Section Provenance.
Context `{RT : PyRuntime}.
Implicit Types (dm : DimensionManager) (db : database).

Lemma provenance_same items regions db db' :
  items_table db' = items_table db → regions_table db' = regions_table db →
  provenance items regions db db'.
Proof.
  intros Hi Hr. split.
  - intros r' Hin. exists []. split; [done|]. left. exists r'.
    rewrite Hi in Hin. by rewrite app_nil_r.
  - intros r' Hin. left. by rewrite <-Hr.
Qed.

Lemma provenance_refl items regions db : provenance items regions db db.
Proof. by apply provenance_same. Qed.

Lemma provenance_trans items regions db1 db2 db3 :
  provenance items regions db1 db2 → provenance items regions db2 db3 →
  provenance items regions db1 db3.
Proof.
  intros [Hi Hr] [Hi' Hr']. split.
  - intros r3 Hin3.
    destruct (Hi' r3 Hin3) as (extra2 & Hall2 & [(r2 & Hin2 & Hid & Hs & Hn & Ha)|[Hn Ha]]).
    + destruct (Hi r2 Hin2)
        as (extra1 & Hall1 & [(r1 & Hin1 & Hid1 & Hs1 & Hn1 & Ha1)|[Hn1 Ha1]]);
        exists (extra1 ++ extra2); (split; [by apply Forall_app|]).
      * left. exists r1. split_and!; try congruence.
        by rewrite Ha, Ha1, app_assoc.
      * right. rewrite Hn. split; [done|]. by rewrite Ha, Ha1.
    + exists extra2. split; [done|]. by right.
  - intros r3 Hin3. destruct (Hr' r3 Hin3) as [Hin2|?]; [by apply Hr | by right].
Qed.

Lemma provenance_set_item_aliases items regions r alias db :
  NoDup (item_id <$> items_table db) → r ∈ items_table db → alias ∈ items →
  provenance items regions db
    (set_item_aliases (item_id r) (item_aliases r ++ [alias]) db).
Proof.
  intros Hnd Hr Ha. split; [|by left].
  intros r' (r0 & -> & Hr0)%list_elem_of_fmap.
  case_decide as Hid.
  - assert (r0 = r) as -> by (by eapply (NoDup_fmap_same item_id)).
    exists [alias]. split; [by constructor|]. left. by exists r.
  - exists []. split; [done|]. left. exists r0. by rewrite app_nil_r.
Qed.

Lemma provenance_insert_item items regions alias id slug db :
  alias ∈ items →
  provenance items regions db
    (insert_item {| item_id := id; item_slug := slug; item_canonical_name := alias;
                    item_aliases := [alias] |} db).
Proof.
  intros Ha. split; [|by left].
  intros r' [Hin| ->%list_elem_of_singleton]%elem_of_app.
  - exists []. split; [done|]. left. exists r'. by rewrite app_nil_r.
  - exists []. split; [done|]. by right.
Qed.

Lemma provenance_insert_region items regions alias id code db :
  alias ∈ regions →
  provenance items regions db
    (insert_region {| region_id := id; region_code := code; region_name := alias;
                      region_type := "unknown" |} db).
Proof.
  intros Ha. split.
  - intros r' Hin. exists []. split; [done|]. left. exists r'. by rewrite app_nil_r.
  - intros r' [Hin| ->%list_elem_of_singleton]%elem_of_app; [by left | by right].
Qed.

Lemma ensure_item_provenance items regions alias dm :
  run_inv dm → alias ∈ items →
  provenance items regions (dm_db dm) (dm_db (ensure_item alias dm).1).
Proof.
  intros (Hinv & [Hni _] & Hsync & _) Ha.
  destruct (ensure_item_cases alias dm) as [(r & Hfound & ->)|(_ & _ & ->)].
  - cbn [fst].
    assert (Hr : dm_items dm !! item_id r = Some r)
      by (destruct Hfound as [H|[_ H]]; by eapply item_by_token_stored).
    destruct (append_db r alias dm) as [-> | ->]; [apply provenance_refl|].
    apply provenance_set_item_aliases; [done | by eapply Hsync | done].
  - rewrite create_item_db. by apply provenance_insert_item.
Qed.

Lemma ensure_region_provenance items regions alias dm :
  alias ∈ regions →
  provenance items regions (dm_db dm) (dm_db (ensure_region alias dm).1).
Proof.
  intros Ha.
  destruct (ensure_region_cases alias dm) as [(r & _ & ->)|(_ & ->)].
  - apply provenance_refl.
  - rewrite create_region_db. by apply provenance_insert_region.
Qed.

Lemma ingest_row_provenance items regions row dm :
  run_inv dm → row_item_alias row ∈ items → row_region_alias row ∈ regions →
  provenance items regions (dm_db dm) (dm_db (ingest_row row dm).1).
Proof.
  intros Hinv Hi Hr. unfold ingest_row.
  destruct (ensure_item_run (row_item_alias row) dm Hinv) as (Hinv1 & _).
  pose proof (ensure_item_provenance items regions (row_item_alias row) dm Hinv Hi)
    as Hp1.
  destruct (ensure_item (row_item_alias row) dm) as [dm1 iid]. cbn [fst] in *.
  pose proof (ensure_region_provenance items regions (row_region_alias row) dm1 Hr)
    as Hp2.
  destruct (ensure_region (row_region_alias row) dm1) as [dm2 rid]. cbn [fst] in *.
  pose proof (provenance_trans _ _ _ _ _ Hp1 Hp2) as Hp.
  destruct (first_of_month (row_year row) (row_month row)) as [d|e]; cbn [fst];
    [|done].
  eapply provenance_trans; [exact Hp|]. by apply provenance_same.
Qed.

Lemma ingest_rows_provenance items regions rows dm :
  run_inv dm →
  Forall (λ row, row_item_alias row ∈ items ∧ row_region_alias row ∈ regions) rows →
  provenance items regions (dm_db dm) (dm_db (ingest_rows rows dm).1).
Proof.
  intros Hinv Hall. revert dm Hinv.
  induction Hall as [|row rows [Hi Hr] _ IH]; intros dm Hinv; simpl.
  - apply provenance_refl.
  - destruct (ingest_row_grows row dm Hinv) as [Hinv1 _].
    pose proof (ingest_row_provenance items regions row dm Hinv Hi Hr) as Hp1.
    destruct (ingest_row row dm) as [dm1 [e|]]; cbn [fst] in *; [done|].
    eapply provenance_trans; [exact Hp1 | by apply IH].
Qed.

Lemma batch_aliases rows :
  Forall (λ row, row_item_alias row ∈ (row_item_alias <$> rows)
                 ∧ row_region_alias row ∈ (row_region_alias <$> rows)) rows.
Proof.
  apply Forall_forall. intros row Hin. split; by apply list_elem_of_fmap_2.
Qed.

Lemma committed_db_provenance file_path rows db :
  primary_keys_unique db →
  provenance (row_item_alias <$> rows) (row_region_alias <$> rows) db
    (committed_db file_path rows db).
Proof.
  intros Hpk. unfold committed_db, transaction_body.
  set (conn := conn_execute _ _).
  assert (Hinv : run_inv (new_DimensionManager conn)) by (by apply run_inv_new).
  pose proof (ingest_rows_provenance _ _ rows _ Hinv (batch_aliases rows)) as Hp.
  rewrite new_DimensionManager_db in Hp.
  destruct (ingest_rows rows (new_DimensionManager conn)) as [dm' err].
  cbn [fst] in *.
  eapply provenance_trans; [|exact Hp]. by apply provenance_same.
Qed.

(** X24: what a call of [ingest_with_engine] writes into the dimension
    tables of a store with unique primary keys, whether it returns or
    raises.  A region record is one of the store before the call,
    unchanged, or it has the type "unknown" and as its name the region
    alias of a row of the batch, as given.  An item record is one of the
    store before the call with item aliases of the batch appended to its
    alias list, or its canonical name is the item alias of a row of the
    batch, as given, and its alias list is that name followed by item
    aliases of the batch. *)
Theorem ingest_with_engine_provenance (file_path : string) (rows : list base_row)
    (checksum : string) (w : world) :
  primary_keys_unique (w_db w) →
  provenance (row_item_alias <$> rows) (row_region_alias <$> rows) (w_db w)
    (w_db (ingest_with_engine file_path rows checksum w).1).
Proof.
  intros Hpk.
  destruct (ingest_with_engine_outcome file_path rows checksum w)
    as [_ [(Hi & Hr & _)|(Hi & Hr & _)]].
  - by apply provenance_same.
  - eapply provenance_trans; [by apply (committed_db_provenance file_path)|].
    by apply provenance_same.
Qed.

End Provenance.

Section ProvenanceExamples.
Local Existing Instance example_runtime.

Lemma ingest_with_engine_provenance_witness :
  provenance (row_item_alias <$> two_rows) (row_region_alias <$> two_rows)
    (w_db (set_w_db seeded_database empty_world))
    (w_db (ingest_with_engine "annex.xlsx" two_rows "c0ffee"
             (set_w_db seeded_database empty_world)).1).
Proof.
  apply (ingest_with_engine_provenance "annex.xlsx" two_rows "c0ffee"
           (set_w_db seeded_database empty_world)).
  apply seeded_database_constraints.
Defined.

End ProvenanceExamples.

(** ** What a failed run of the pipeline has committed *)

Section PipelinePrefix.
Context `{RT : PyRuntime}.

Lemma process_batches_prefix batches summaries (w : world) previews :
  let run := process_batches false batches summaries (w, previews) in
  match run.2 with
  | Ok _ => batches_return batches w ∧ run.1.1 = after_batches batches w
  | Raise e =>
      ∃ committed failed rest,
        batches = committed ++ failed :: rest
        ∧ batches_return committed w
        ∧ (batch_call failed (after_batches committed w)).2 = Raise e
        ∧ run.1.1 = (batch_call failed (after_batches committed w)).1
  end.
Proof.
  cbv zeta. revert summaries w.
  induction batches as [|batch rest IH]; intros summaries w; [done|].
  cbn [process_batches].
  fold (batch_call batch w).
  destruct (batch_call batch w) as [w1 [s|e]] eqn:Hcall.
  - specialize (IH (summaries ++ [base_summary batch "ingested" None None]) w1).
    destruct (process_batches false rest _ (w1, previews)) as [[w2 previews2] [ss|e]];
      cbn [fst snd] in *.
    + destruct IH as [Hret ->]. cbn [batches_return after_batches foldl].
      rewrite Hcall. cbn [fst snd returned]. by split_and!.
    + destruct IH as (committed & failed & rest' & -> & Hret & Hfail & ->).
      exists (batch :: committed), failed, rest'.
      cbn [batches_return after_batches foldl]. rewrite Hcall. cbn [fst snd returned].
      by split_and!.
  - cbn [fst snd]. exists [], batch, rest.
    cbn [batches_return after_batches foldl]. rewrite Hcall. by split_and!.
Qed.

(** X25: an ingesting run of the pipeline is not atomic across batches.
    When the engine raises for a batch, the batches before it have been
    ingested and stay committed, each by a call that returned; the item,
    region, raw and series tables are exactly those left by these calls;
    and the batches after it were not attempted.  When the run returns,
    or raises only in the validation snapshot, the store is the one left
    by the calls for all batches, in order. *)
Theorem pipeline_commits_prefix
    (mospi_annexes : list (source annex_cells))
    (datagov_resources : list (source datagov_cells))
    (imf_series : list (source imf_entry))
    (dpiit_resources : list (source dpiit_cells))
    (pw : pipeline_world) :
  let run := run_phase3_pipeline mospi_annexes datagov_resources imf_series
               dpiit_resources true false pw in
  match build_batches mospi_annexes datagov_resources imf_series dpiit_resources with
  | Raise e => run = (pw, Raise e)
  | Ok batches =>
      (batches_return batches pw.1
       ∧ w_db run.1.1 = w_db (after_batches batches pw.1))
      ∨ ∃ committed failed rest e,
          batches = committed ++ failed :: rest
          ∧ batches_return committed pw.1
          ∧ (batch_call failed (after_batches committed pw.1)).2 = Raise e
          ∧ run.2 = Raise e
          ∧ same_but_runs (w_db (after_batches committed pw.1)) (w_db run.1.1)
  end.
Proof.
  cbv zeta. unfold run_phase3_pipeline.
  destruct (build_batches _ _ _ _) as [batches|e]; [|done].
  cbn [orb negb andb]. destruct pw as [w previews].
  pose proof (process_batches_prefix batches [] w previews) as H. cbv zeta in H.
  destruct (process_batches false batches [] (w, previews))
    as [[w1 previews1] [summaries|e]]; cbn [fst snd] in *.
  - destruct H as [Hret ->]. left. split; [done|].
    pose proof (collect_validation_snapshot_db (after_batches batches w)) as Hdb.
    by destruct (collect_validation_snapshot _) as [w2 [snapshot|e]].
  - destruct H as (committed & failed & rest & -> & Hret & Hfail & ->).
    right. exists committed, failed, rest, e. split_and!; try done.
    pose proof (ingest_with_engine_store (batch_file_path failed)
                  (_base_row <$> batch_rows failed) (batch_checksum failed)
                  (after_batches committed w)) as Hs.
    fold (batch_call failed (after_batches committed w)) in Hs.
    by rewrite Hfail in Hs.
Qed.

End PipelinePrefix.

(** ** Slugs of the items created for one slug candidate *)

Section SlugFamilies.
Context `{RT : PyRuntime}.
Implicit Types (dm : DimensionManager).

Lemma family_token label c :
  slugify label = c → c ≠ "" → _normalize_alias label = c.
Proof.
  intros <- Hne. unfold _normalize_alias, Str.or_else.
  by destruct (slugify label).
Qed.

(** Resolving labels of one family appends slugs of the family to the
    item table, each one unused before, and keeps the slug index in step
    with the table. *)
Lemma resolve_family_slugs labels c dm :
  Forall (λ label, slugify label = c) labels →
  slugs_indexed dm →
  NoDup (stored_slugs dm) →
  ∃ new_slugs,
    stored_slugs (resolve_items labels dm) = stored_slugs dm ++ new_slugs
    ∧ slugs_indexed (resolve_items labels dm)
    ∧ NoDup (stored_slugs (resolve_items labels dm))
    ∧ Forall (λ s, ∃ k, (1 ≤ k)%nat ∧ s = candidate (Str.or_else c "item") k) new_slugs.
Proof.
  intros Hfam. revert dm.
  induction Hfam as [|l ls Hl Hls IH]; intros dm Hidx Hnd.
  - exists []. simpl. by rewrite app_nil_r.
  - rewrite resolve_items_cons.
    destruct (unique_item_slug_spec dm (slugify l)) as (k1 & Hk1 & Hs1 & Hfree1 & _).
    rewrite Hl in Hs1, Hfree1.
    destruct (ensure_item_slugs l dm) as [[Hs Hi]|[Hs Hi]].
    + destruct (IH (ensure_item l dm).1) as (new & Hnew & Hidx' & Hnd' & Hform).
      * intros s. rewrite Hs, Hi. apply Hidx.
      * by rewrite Hs.
      * exists new. split_and!; [by rewrite Hnew, Hs | done..].
    + rewrite Hl in Hs, Hi. rewrite Hs1 in Hs, Hi.
      assert (Hfresh : candidate (Str.or_else c "item") k1 ∉ stored_slugs dm).
      { intros Hin. apply Hidx in Hin. rewrite Hfree1 in Hin. by destruct Hin. }
      destruct (IH (ensure_item l dm).1) as (new & Hnew & Hidx' & Hnd' & Hform).
      * intros s. rewrite Hs, Hi.
        intros [Hin| ->%list_elem_of_singleton]%elem_of_app.
        -- apply insert_keeps_key. by apply Hidx.
        -- rewrite lookup_insert_eq. eauto.
      * rewrite Hs. apply NoDup_app. split_and!; [done | | apply NoDup_singleton].
        intros s Hin ->%list_elem_of_singleton. done.
      * exists (candidate (Str.or_else c "item") k1 :: new).
        rewrite Hnew, Hs, <-app_assoc. split_and!; [done | done | | ].
        -- by rewrite Hnew, Hs, <-app_assoc in Hnd'.
        -- constructor; eauto.
Qed.

(** Labels whose token is indexed are matched: no record is inserted. *)
Lemma resolve_known labels c dm :
  item_inv dm → c ≠ "" →
  Forall (λ label, slugify label = c) labels →
  is_Some (item_alias_index dm !! c) →
  stored_slugs (resolve_items labels dm) = stored_slugs dm.
Proof.
  intros Hinv Hne Hfam. revert dm Hinv.
  induction Hfam as [|l ls Hl Hls IH]; intros dm Hinv Hc; [done|].
  rewrite resolve_items_cons.
  pose proof (family_token l c Hl Hne) as Htok.
  destruct (item_by_token_indexed dm c Hinv Hc) as [r Hr].
  rewrite <-Htok in Hr.
  destruct (ensure_item_known l dm r Hr) as [_ Hids].
  destruct (ensure_item_slugs l dm) as [[Hs _]|[Hs _]].
  - rewrite IH; [done | by apply ensure_item_inv |].
    by apply (run_call_index_keys (ResolveItem l)).
  - apply (f_equal length) in Hids, Hs.
    unfold stored_item_ids, stored_slugs in Hids, Hs.
    rewrite length_app, !length_fmap in *. simpl in Hs. lia.
Qed.

(** Of the labels of one non-empty slug candidate at most one is resolved
    as a new item: its token is indexed from then on. *)
Lemma resolve_family_once labels c dm :
  item_inv dm → c ≠ "" →
  Forall (λ label, slugify label = c) labels →
  (length (stored_slugs (resolve_items labels dm)) ≤ length (stored_slugs dm) + 1)%nat.
Proof.
  intros Hinv Hne Hfam. destruct Hfam as [|l ls Hl Hls]; [simpl; lia|].
  rewrite resolve_items_cons.
  pose proof (family_token l c Hl Hne) as Htok.
  destruct (ensure_item_resolves l dm Hinv) as (r & Hr & _).
  rewrite Htok in Hr. apply item_by_token_Some in Hr as (id & Hid & _).
  rewrite (resolve_known ls c (ensure_item l dm).1);
    [| by apply ensure_item_inv | done | done | by rewrite Hid].
  pose proof (resolve_items_growth [l] dm) as Hg. simpl in Hg. exact Hg.
Qed.

Lemma run_calls_slugs calls dm :
  slugs_indexed dm → NoDup (stored_slugs dm) →
  slugs_indexed (run_calls calls dm) ∧ NoDup (stored_slugs (run_calls calls dm)).
Proof.
  revert dm. induction calls as [|call calls IH]; intros dm Hidx Hnd; [done|].
  cbn [run_calls foldl]. fold (run_calls calls (run_call call dm)).
  destruct call as [alias|alias]; cbn [run_call].
  - destruct (resolve_family_slugs [alias] (slugify alias) dm) as (_ & _ & Hidx' & Hnd' & _);
      [by constructor | done | done |].
    by apply IH.
  - destruct (ensure_region_frame alias dm) as (Hitems & _).
    destruct (ensure_region_item_state alias dm) as (_ & _ & Hslug).
    apply IH.
    + intros s. unfold stored_slugs. rewrite Hitems, Hslug. apply Hidx.
    + unfold stored_slugs. by rewrite Hitems.
Qed.

(** C8, amended: in every state that the resolver reaches from a store
    whose item slugs are unique, resolving labels that normalise to one
    slug candidate keeps the slugs of the item table pairwise distinct;
    the slugs of the records created are distinct and each is the base
    slug (the candidate, or "item" when the candidate is empty) or the
    base slug with a numeric suffix.  For a non-empty candidate at most
    one record is created, however many labels there are: the first
    creation indexes the token of the candidate and every later label of
    the candidate is matched to that item.  Only when every label is
    resolved as a new item, which needs labels without a common token, are
    there as many new slugs as labels; from a slug index that knows no
    slug of the family they are then, in order, the base slug, base-2,
    base-3, ... *)
Theorem slug_disambiguation (conn : connection) (calls : list resolver_call)
    (labels : list string) (c : string) :
  NoDup (item_slug <$> items_table (conn_db conn)) →
  Forall (λ label, slugify label = c) labels →
  let dm := run_calls calls (new_DimensionManager conn) in
  let base := Str.or_else c "item" in
  let new_slugs :=
    item_slug <$> drop (length (items_table (dm_db dm)))
                       (items_table (dm_db (resolve_items labels dm))) in
  NoDup (item_slug <$> items_table (dm_db (resolve_items labels dm)))
  ∧ NoDup new_slugs
  ∧ Forall (λ s, ∃ k, (1 ≤ k)%nat ∧ s = candidate base k) new_slugs
  ∧ (c ≠ "" → (length new_slugs ≤ 1)%nat)
  ∧ (length new_slugs = length labels →
     (∀ k, (1 ≤ k)%nat → slug_index dm !! candidate base k = None) →
     new_slugs = candidate base <$> seq 1 (length labels)).
Proof.
  intros Hstore Hfam dm base new_slugs.
  assert (Hinv : item_inv dm) by apply run_calls_inv, new_DimensionManager_inv.
  destruct (run_calls_slugs calls (new_DimensionManager conn)) as [Hidx Hnd].
  { apply new_DimensionManager_indexed. }
  { unfold stored_slugs. by rewrite new_DimensionManager_db. }
  fold dm in Hidx, Hnd.
  destruct (resolve_family_slugs labels c dm Hfam Hidx Hnd)
    as (new & Hnew & _ & Hnd' & Hform).
  assert (Hnew_slugs : new_slugs = new).
  { unfold new_slugs. rewrite fmap_drop. fold (stored_slugs (resolve_items labels dm)).
    rewrite Hnew. rewrite <-(length_fmap item_slug). fold (stored_slugs dm).
    by rewrite drop_app_length. }
  rewrite Hnew_slugs. split_and!.
  - exact Hnd'.
  - rewrite Hnew in Hnd'. by apply NoDup_app in Hnd' as (_ & _ & ?).
  - exact Hform.
  - intros Hne. pose proof (resolve_family_once labels c dm Hinv Hne Hfam) as Hlen.
    rewrite Hnew, length_app in Hlen. lia.
  - intros Hlen Hnone.
    destruct (resolve_family labels c dm Hfam Hidx Hnd) as (new' & Hnew' & _ & _ & _ & Hexact).
    { rewrite Hnew, length_app. lia. }
    rewrite Hnew in Hnew'. apply app_inv_head in Hnew'. subst new'.
    apply (Hexact 0%nat). intros k Hk. rewrite Hnone by done.
    split; [by intros [] | lia].
Qed.

End SlugFamilies.

Section SlugFamilyExamples.
Local Existing Instance example_runtime.

(** C8 as stated fails: three labels of the slug candidate "rice" are
    not resolved as three items with the slugs rice, rice-2 and rice-3.
    The first creates the item "rice"; the other two are matched to it. *)
Lemma shared_candidate_makes_one_item :
  Forall (λ label, slugify label = "rice") ["Rice"; "RICE"; "rice!"]
  ∧ item_slug <$> items_table (dm_db (resolve_items ["Rice"; "RICE"; "rice!"] fresh_manager))
    = ["rice"]
  ∧ item_aliases <$> items_table (dm_db (resolve_items ["Rice"; "RICE"; "rice!"] fresh_manager))
    = [["Rice"]].
Proof. split_and!; [repeat constructor | vm_compute; reflexivity..]. Qed.

(** Three labels without any letter or digit share the empty slug candidate
    and become the items "item", "item-2" and "item-3". *)
Lemma slug_disambiguation_witness :
  let conn := {| conn_db := empty_database; conn_statements := 0 |} in
  let dm := run_calls [] (new_DimensionManager conn) in
  item_slug <$> drop (length (items_table (dm_db dm)))
                     (items_table (dm_db (resolve_items ["!!!"; "???"; "***"] dm)))
  = ["item"; "item-2"; "item-3"].
Proof.
  assert (Hfam : Forall (λ label, slugify label = "") ["!!!"; "???"; "***"])
    by (repeat constructor).
  destruct (slug_disambiguation {| conn_db := empty_database; conn_statements := 0 |}
              [] ["!!!"; "???"; "***"] "" (NoDup_nil_2 (A := string)) Hfam)
    as (_ & _ & _ & _ & Hexact).
  apply Hexact.
  - vm_compute. reflexivity.
  - intros k _. reflexivity.
Defined.

End SlugFamilyExamples.
